(** * The dynamic GBWT: a shallow embedding of [dynamic_gbwt.cpp]

    The development follows the layout of the C++ sources.  Unsigned 64-bit
    quantities ([size_type], [node_type], [comp_type], [rank_type]) are
    integers of [Z] whose wrap-around is written with [wrap64]; vectors are
    lists read with [at_index], which is undefined ([None]) out of range as
    [std::vector::operator[]] is.  Member functions of a class live in the
    module that bears the name of the class. *)

From Stdlib Require Import ZArith Lia Bool.
From stdpp Require Import base option list.

Local Open Scope Z_scope.

(** ** Machine integers and vectors *)

Definition wrap64 (x : Z) : Z := x mod 2 ^ 64.
Global Arguments wrap64 : simpl never.

Abbreviation size_type := Z (only parsing).
Abbreviation node_type := Z (only parsing).
Abbreviation comp_type := Z (only parsing).
Abbreviation rank_type := Z (only parsing).
Abbreviation byte_type := Z (only parsing).
Abbreviation edge_type := (Z * Z)%type (only parsing).
Abbreviation run_type := (Z * Z)%type (only parsing).
Abbreviation text_type := (list Z) (only parsing).

Definition ENDMARKER : node_type := 0.

(** Modelled from the spec: [invalid_offset()] of [utils.h], which is
    absent: the sentinel that stands for no offset (section 7).  A sentinel
    is a value of [size_type]; the largest one is taken. *)
Definition invalid_offset : size_type := 2 ^ 64 - 1.

(** Modelled from the spec: [invalid_edge()] of [utils.h], which is absent:
    the sentinel that stands for no edge. *)
Definition invalid_edge : edge_type := (ENDMARKER, invalid_offset).

Definition vsize {A} (v : list A) : Z := Z.of_nat (length v).

Definition at_index {A} (v : list A) (i : Z) : option A :=
  if 0 <=? i then v !! Z.to_nat i else None.

Definition set_index {A} (v : list A) (i : Z) (x : A) : option (list A) :=
  if (0 <=? i) && (i <? vsize v) then Some (<[Z.to_nat i := x]> v) else None.

Fixpoint first_index {A} (p : A -> bool) (l : list A) : Z :=
  match l with
  | [] => 0
  | x :: l' => if p x then 0 else 1 + first_index p l'
  end.

Fixpoint sumZ (l : list Z) : Z :=
  match l with
  | [] => 0
  | x :: l' => x + sumZ l'
  end.

(** A stable insertion sort: an element goes in front of the first element
    that is not smaller than it. *)
Fixpoint sorted_insert {A} (lt : A -> A -> bool) (x : A) (l : list A) : list A :=
  match l with
  | [] => [x]
  | y :: l' => if lt y x then y :: sorted_insert lt x l' else x :: y :: l'
  end.

Fixpoint stable_sort {A} (lt : A -> A -> bool) (l : list A) : list A :=
  match l with
  | [] => []
  | x :: l' => sorted_insert lt x (stable_sort lt l')
  end.

(** ** DynamicRecord

    The record of a node and its operations, of [support.h] and
    [support.cpp]. *)
Module DynamicRecord.

(** Modelled from the spec: the class [DynamicRecord] of [support.h], which
    is absent: the size of the body, the incoming edges with their counts,
    the outgoing edges with their offsets and the runs of the body (section
    3). *)
Record t := mk {
  body_size : size_type;
  incoming : list edge_type;
  outgoing : list edge_type;
  body : list run_type
}.

(** Modelled from the spec: the default constructor of [DynamicRecord], a
    record without edges or runs. *)
Definition empty : t := mk 0 [] [] [].

(** Modelled from the spec: [DynamicRecord::clear], back to the record
    without edges or runs. *)
Definition clear (r : t) : t := empty.

(** Modelled from the spec: [DynamicRecord::size], the number of symbols of
    the column (section 4.3). *)
Definition size (r : t) : size_type := body_size r.

(** Modelled from the spec: [DynamicRecord::outdegree], the number of
    outgoing edges. *)
Definition outdegree (r : t) : size_type := vsize (outgoing r).

(** Modelled from the spec: [DynamicRecord::indegree], the number of
    incoming edges. *)
Definition indegree (r : t) : size_type := vsize (incoming r).

(** Modelled from the spec: [DynamicRecord::runs], the number of runs of the
    body. *)
Definition runs (r : t) : size_type := vsize (body r).

(** Modelled from the spec: [DynamicRecord::successor], the destination of
    the outgoing edge of a rank; a rank out of range reads past the vector. *)
Definition successor (r : t) (outrank : rank_type) : option node_type :=
  fst <$> at_index (outgoing r) outrank.

(** Modelled from the spec: [DynamicRecord::offset], the offset of the
    outgoing edge of a rank. *)
Definition offset (r : t) (outrank : rank_type) : option size_type :=
  snd <$> at_index (outgoing r) outrank.

(** Modelled from the spec: [DynamicRecord::predecessor], the source of the
    incoming edge of a rank. *)
Definition predecessor (r : t) (inrank : rank_type) : option node_type :=
  fst <$> at_index (incoming r) inrank.

(** Modelled from the spec: [DynamicRecord::count], the count of the
    incoming edge of a rank. *)
Definition count (r : t) (inrank : rank_type) : option size_type :=
  snd <$> at_index (incoming r) inrank.

(** Modelled from the spec: [DynamicRecord::edgeTo], a linear search for the
    edge to a node, which gives the outdegree when there is none (section
    4.3). *)
Definition edgeTo (r : t) (to : node_type) : rank_type :=
  first_index (fun e : edge_type => e.1 =? to) (outgoing r).

(** Modelled from the spec: [DynamicRecord::findFirst], the first incoming
    rank whose predecessor is not below [from], the indegree when there is
    none (section 4.3). *)
Definition findFirst (r : t) (from : node_type) : rank_type :=
  first_index (fun e : edge_type => from <=? e.1) (incoming r).

(** Modelled from the spec: [DynamicRecord::addEdge], which appends [(node,
    0)] to the outgoing edges (section 4.3). *)
Definition addEdge (r : t) (node : node_type) : t :=
  mk (body_size r) (incoming r) (outgoing r ++ [(node, 0)]) (body r).

(** Modelled from the spec: an assignment through the reference that
    [DynamicRecord::offset] gives to the offset of an outgoing edge. *)
Definition set_offset (r : t) (outrank : rank_type) (v : size_type) : option t :=
  match at_index (outgoing r) outrank with
  | Some e =>
      Some (mk (body_size r) (incoming r)
               (<[Z.to_nat outrank := (e.1, v)]> (outgoing r)) (body r))
  | None => None
  end.

(** Modelled from the spec: the loop of [DynamicRecord::increment]: the
    count of the predecessor is raised when it has an entry, and an entry
    with count 1 is appended otherwise (section 4.3). *)
Fixpoint increment_in (from : node_type) (inc : list edge_type) : list edge_type :=
  match inc with
  | [] => [(from, 1)]
  | e :: rest =>
      if e.1 =? from then (e.1, wrap64 (e.2 + 1)) :: rest
      else e :: increment_in from rest
  end.

(** Modelled from the spec: [DynamicRecord::increment], which aggregates or
    appends to the incoming edges (section 4.3). *)
Definition increment (r : t) (from : node_type) : t :=
  mk (body_size r) (increment_in from (incoming r)) (outgoing r) (body r).

(** Modelled from the spec: [DynamicRecord::addIncoming], which [load] calls
    to add an incoming edge (section 4.6). *)
Definition addIncoming (r : t) (inedge : edge_type) : t :=
  mk (body_size r) (incoming r ++ [inedge]) (outgoing r) (body r).

(** Modelled from the spec: the count inside [DynamicRecord::LF], the number
    of symbols [outrank] among the first [i] positions of a body. *)
Fixpoint rank_in (b : list run_type) (outrank : rank_type) (i : size_type) : size_type :=
  match b with
  | [] => 0
  | run :: rest =>
      if i <=? 0 then 0
      else if run.2 <=? i then
        (if run.1 =? outrank then run.2 else 0) + rank_in rest outrank (i - run.2)
      else (if run.1 =? outrank then i else 0)
  end.

(** Modelled from the spec: the scan inside the one-argument
    [DynamicRecord::LF], the symbol at position [i] of a body. *)
Fixpoint symbol_at (b : list run_type) (i : size_type) : option rank_type :=
  match b with
  | [] => None
  | run :: rest => if i <? run.2 then Some run.1 else symbol_at rest (i - run.2)
  end.

(** Modelled from the spec: [DynamicRecord::LF(i, to)], the offset of the
    edge to [to] plus the number of its symbols among the first [i]
    positions, and the sentinel when there is no such edge (section 4.3). *)
Definition LF (r : t) (i : size_type) (to : node_type) : size_type :=
  let outrank := edgeTo r to in
  match offset r outrank with
  | Some base => wrap64 (base + rank_in (body r) outrank i)
  | None => invalid_offset
  end.

(** Modelled from the spec: [DynamicRecord::LF(i)], the destination of the
    symbol at position [i] and its place in the column of the destination
    (section 4.3).  The spec is silent on a position past the column; the
    sentinel edge is given there. *)
Definition LF_edge (r : t) (i : size_type) : edge_type :=
  match symbol_at (body r) i with
  | Some outrank =>
      match at_index (outgoing r) outrank with
      | Some e => (e.1, wrap64 (e.2 + rank_in (body r) outrank i))
      | None => invalid_edge
      end
  | None => invalid_edge
  end.

(** Modelled from the spec: the first step of [DynamicRecord::recode], each
    outgoing edge with its rank (section 4.3). *)
Fixpoint tag_ranks (k : rank_type) (out : list edge_type) : list (edge_type * rank_type) :=
  match out with
  | [] => []
  | e :: rest => (e, k) :: tag_ranks (k + 1) rest
  end.

(** Modelled from the spec: the order of the outgoing edges after
    [DynamicRecord::recode], by destination. *)
Definition by_destination (a b : edge_type * rank_type) : bool := a.1.1 <? b.1.1.

(** Modelled from the spec: the order of the incoming edges after
    [DynamicRecord::recode], by predecessor. *)
Definition by_predecessor (a b : edge_type) : bool := a.1 <? b.1.

(** Modelled from the spec: the rank that [DynamicRecord::recode] gives to
    an old rank, its place among the sorted edges. *)
Definition new_rank (sorted : list (edge_type * rank_type)) (old : rank_type) : rank_type :=
  first_index (fun p : edge_type * rank_type => p.2 =? old) sorted.

(** Modelled from the spec: the last step of [DynamicRecord::recode] on a
    body, adjacent runs of one rank joined. *)
Fixpoint coalesce (b : list run_type) : list run_type :=
  match b with
  | [] => []
  | run :: rest =>
      match coalesce rest with
      | [] => [run]
      | run' :: rest' =>
          if run.1 =? run'.1 then (run.1, wrap64 (run.2 + run'.2)) :: rest'
          else run :: run' :: rest'
      end
  end.

(** Modelled from the spec: [DynamicRecord::recode]: the outgoing edges are
    sorted by destination (stably), the ranks of the body follow, adjacent
    equal runs are joined, and the incoming edges are sorted by predecessor
    (section 4.3). *)
Definition recode (r : t) : t :=
  let sorted := stable_sort by_destination (tag_ranks 0 (outgoing r)) in
  mk (body_size r)
     (stable_sort by_predecessor (incoming r))
     (fst <$> sorted)
     (coalesce ((fun run : run_type => (new_rank sorted run.1, run.2)) <$> body r)).

(** Modelled from the spec: the equality of [DynamicRecord], field by field
    (section 4.6). *)
#[global] Instance eq_dec : EqDecision t.
Proof. solve_decision. Defined.

(** Modelled from the spec: [operator==] of [DynamicRecord], field by field
    (section 4.6). *)
Definition equal (a b : t) : bool := bool_decide (a = b).

(** The number of symbols in the runs of a body. *)
Definition body_total (r : t) : Z := sumZ (snd <$> body r).

End DynamicRecord.

(** ** GBWTHeader, from [files.h] *)
Module GBWTHeader.

Record t := mk {
  tag : Z;
  version : Z;
  sequences : Z;
  size : Z;
  offset : Z;
  alphabet_size : Z;
  flags : Z
}.

Definition TAG : Z := 0x6B376B37.

(** Modelled from the spec: [Version::GBWT_VERSION] of [utils.h], which is
    absent; the comment at the head of [files.h] gives 2 as the latest
    version. *)
Definition VERSION : Z := 2.
Definition MIN_VERSION : Z := 1.
Definition FLAG_MASK : Z := 1.
Definition FLAG_BIDIRECTIONAL : Z := 1.

(** Modelled from the spec: the constructor [GBWTHeader()] of [files.cpp],
    which is absent: tag and version set, the counts zero. *)
Definition default : t := mk TAG VERSION 0 0 0 0 0.

(** Modelled from the spec: [GBWTHeader::check] of [files.cpp], which is
    absent: the tag, a version from [MIN_VERSION] to [VERSION], and no flag
    outside the mask (section 4.5). *)
Definition check (h : t) : bool :=
  (tag h =? TAG) && (MIN_VERSION <=? version h) && (version h <=? VERSION)
  && (Z.land (flags h) FLAG_MASK =? flags h).

Definition setVersion (h : t) : t :=
  mk (tag h) VERSION (sequences h) (size h) (offset h) (alphabet_size h) (flags h).
Definition set (h : t) (flag : Z) : t :=
  mk (tag h) (version h) (sequences h) (size h) (offset h) (alphabet_size h)
     (Z.lor (flags h) flag).
Definition unset (h : t) (flag : Z) : t :=
  mk (tag h) (version h) (sequences h) (size h) (offset h) (alphabet_size h)
     (Z.land (flags h) (wrap64 (Z.lnot flag))).
Definition get (h : t) (flag : Z) : bool := negb (Z.land (flags h) flag =? 0).

(** Modelled from the spec: the equality of headers, field by field (section
    4.6). *)
#[global] Instance eq_dec : EqDecision t.
Proof. solve_decision. Defined.

(** Modelled from the spec: [operator==] of [GBWTHeader], declared in
    [files.h] and defined in [files.cpp], which is absent: field by field
    (section 4.6). *)
Definition equal (a b : t) : bool := bool_decide (a = b).

Definition set_sequences (h : t) (v : Z) : t :=
  mk (tag h) (version h) v (size h) (offset h) (alphabet_size h) (flags h).
Definition set_size (h : t) (v : Z) : t :=
  mk (tag h) (version h) (sequences h) v (offset h) (alphabet_size h) (flags h).
Definition set_alphabet (h : t) (off sigma : Z) : t :=
  mk (tag h) (version h) (sequences h) (size h) off sigma (flags h).

End GBWTHeader.

(** ** ByteCode

    The numbers of the byte stream, of [internal.h]: seven payload bits per
    byte, least significant group first, the high bit set while more bytes
    follow. *)
Module ByteCode.

(** Modelled from the spec: the seven payload bits of a byte of [ByteCode]
    in [internal.h], which is absent (section 4.1). *)
Definition DATA_BITS : Z := 7.

(** Modelled from the spec: the mask of the payload bits of a byte. *)
Definition DATA_MASK : Z := 0x7F.

(** Modelled from the spec: the continuation bit of a byte, set while more
    bytes follow. *)
Definition NEXT_BYTE : Z := 0x80.

(** Modelled from the spec: the loop of [ByteCode::write]: the low seven
    bits with the continuation bit while the value does not fit a byte, then
    the value (section 4.1).  [fuel] bounds the rounds. *)
Fixpoint encode (fuel : nat) (value : Z) : list byte_type :=
  match fuel with
  | O => [value]
  | S fuel' =>
      if DATA_MASK <? value
      then Z.lor (Z.land value DATA_MASK) NEXT_BYTE :: encode fuel' (Z.shiftr value DATA_BITS)
      else [value]
  end.

(** Modelled from the spec: [ByteCode::write], which appends the bytes of a
    number (section 4.1).  The loop shifts the value right by seven bits in
    a round, so [Z.log2 value] rounds are more than it takes. *)
Definition write (array : list byte_type) (value : size_type) : list byte_type :=
  array ++ encode (Z.to_nat (Z.log2 value)) value.

(** Modelled from the spec: the loop of [ByteCode::read]: the number at the
    head of [bytes], its groups of seven bits shifted to their places, and
    how many bytes it took; reading past the end is undefined. *)
Fixpoint decode (bytes : list byte_type) (shift : Z) : option (Z * Z) :=
  match bytes with
  | [] => None
  | b :: rest =>
      if Z.land b NEXT_BYTE =? 0 then Some (Z.shiftl (Z.land b DATA_MASK) shift, 1)
      else
        match decode rest (shift + DATA_BITS) with
        | Some (v, n) => Some (Z.shiftl (Z.land b DATA_MASK) shift + v, 1 + n)
        | None => None
        end
  end.

(** Modelled from the spec: [ByteCode::read], the number at offset [i] and
    the offset past it (section 4.1). *)
Definition read (array : list byte_type) (i : size_type) : option (size_type * size_type) :=
  match decode (drop (Z.to_nat i) array) 0 with
  | Some (v, n) => Some (wrap64 v, i + n)
  | None => None
  end.

End ByteCode.

(** ** Run

    The codec of the runs of a body, of [internal.h]. *)
Module Run.

(** Modelled from the spec: the class [Run] of [internal.h], which is
    absent: the size of the local alphabet and the length from which a run
    goes on in further bytes (section 4.2). *)
Record t := mk { sigma : size_type; run_continues : size_type }.

(** Modelled from the spec: the constructor of [Run]: rank and length share
    a byte when the alphabet has fewer than 255 letters, lengths below [256
    / sigma] fit in it. *)
Definition make (alphabet_size : size_type) : t :=
  mk alphabet_size (if alphabet_size <? 255 then 256 / alphabet_size else 0).

(** Modelled from the spec: [Run::write] (section 4.2).  With one letter a
    run is its length minus one as a number; with an alphabet too large for
    a byte, rank and length minus one are two numbers; otherwise rank and
    length share a byte, and the rest of a long run follows as a number. *)
Definition write (c : t) (data : list byte_type) (run : run_type) : list byte_type :=
  if sigma c =? 1 then ByteCode.write data (wrap64 (run.2 - 1))
  else if run_continues c =? 0 then
    ByteCode.write (ByteCode.write data run.1) (wrap64 (run.2 - 1))
  else if run.2 <? run_continues c then
    data ++ [run.1 + sigma c * wrap64 (run.2 - 1)]
  else
    ByteCode.write (data ++ [run.1 + sigma c * (run_continues c - 1)])
                   (run.2 - run_continues c).

(** Modelled from the spec: [Run::read], the inverse of [Run::write]: the
    run at [offset] and the offset past it (section 4.2). *)
Definition read (c : t) (source : list byte_type) (offset : size_type)
  : option (run_type * size_type) :=
  if sigma c =? 1 then
    match ByteCode.read source offset with
    | Some (len, offset') => Some ((0, wrap64 (len + 1)), offset')
    | None => None
    end
  else if run_continues c =? 0 then
    match ByteCode.read source offset with
    | Some (rank, offset1) =>
        match ByteCode.read source offset1 with
        | Some (len, offset2) => Some ((rank, wrap64 (len + 1)), offset2)
        | None => None
        end
    | None => None
    end
  else
    match at_index source offset with
    | Some b =>
        let rank := b mod sigma c in
        let len := b / sigma c + 1 in
        if run_continues c <=? len then
          match ByteCode.read source (offset + 1) with
          | Some (more, offset') => Some ((rank, wrap64 (len + more)), offset')
          | None => None
          end
        else Some ((rank, len), offset + 1)
    | None => None
    end.

End Run.

(** ** The sparse bitvector

    The node index of the byte stream, of the succinct library. *)
Module sd_vector.

(** Modelled from the spec: the sparse bitvector of the succinct library, a
    collaborator known by its interface (section 6): a vector of a given
    length with some bits set.  It is kept as its length and the positions
    set, in the order they were set. *)
Record t := mk { size : size_type; ones : list size_type }.

(** Modelled from the spec: [sd_vector_builder(n, m)], a vector of length
    [n] with no bit set yet, to which [m] bits will be set. *)
Definition builder (n m : size_type) : t := mk n [].

(** Modelled from the spec: [sd_vector_builder::set], which sets the bit at
    a position. *)
Definition set (v : t) (i : size_type) : t := mk (size v) (ones v ++ [i]).

(** Modelled from the spec: [select_1(k)], the position of the [k]-th set
    bit, counted from 1 (section 6). *)
Definition select_1 (v : t) (k : size_type) : option size_type := at_index (ones v) (k - 1).

End sd_vector.

(** ** RunMerger

    The builder of a new body, of [support.h]. *)
Module RunMerger.

(** Modelled from the spec: the class [RunMerger] of [support.h], which is
    absent: the number of symbols written, the pending run, the runs written
    and the number of symbols of each rank (section 4.4). *)
Record t := mk {
  total_size : size_type;
  accumulator : run_type;
  runs : list run_type;
  counts : list size_type
}.

(** Modelled from the spec: the constructor of [RunMerger] for [sigma]
    ranks: nothing written, all counts zero. *)
Definition make (sigma : size_type) : t := mk 0 (0, 0) [] (replicate (Z.to_nat sigma) 0).

(** Modelled from the spec: [RunMerger::size], the number of symbols
    written. *)
Definition size (m : t) : size_type := total_size m.

(** Modelled from the spec: [RunMerger::flush], which commits the pending
    run when it is not empty (section 4.4). *)
Definition flush (m : t) : t :=
  if (accumulator m).2 =? 0 then m
  else mk (total_size m) ((accumulator m).1, 0) (runs m ++ [accumulator m]) (counts m).

(** Modelled from the spec: [RunMerger::insert(run)]: the size and the count
    of the rank grow by the length, and the run joins the pending one when
    the ranks agree or takes its place after a flush (section 4.4).  A rank
    without a count is out of range. *)
Definition insert (m : t) (run : run_type) : option t :=
  c ← at_index (counts m) run.1;
  counts' ← set_index (counts m) run.1 (wrap64 (c + run.2));
  let m1 := mk (wrap64 (total_size m + run.2)) (accumulator m) (runs m) counts' in
  if run.1 =? (accumulator m1).1
  then Some (mk (total_size m1) ((accumulator m1).1, wrap64 ((accumulator m1).2 + run.2))
                (runs m1) (counts m1))
  else let m2 := flush m1 in Some (mk (total_size m2) run (runs m2) (counts m2)).

(** Modelled from the spec: [RunMerger::insert(outrank)], which appends a
    run of one symbol (section 4.4). *)
Definition insert_rank (m : t) (outrank : rank_type) : option t := insert m (outrank, 1).

(** Modelled from the spec: [RunMerger::addEdge], which extends the counts
    by a zero (section 4.4). *)
Definition addEdge (m : t) : t :=
  mk (total_size m) (accumulator m) (runs m) (counts m ++ [0]).

End RunMerger.

(** ** Sequence

    A sequence being inserted, of [support.h]. *)
Module Sequence.

(** Modelled from the spec: the class [Sequence] of [support.h], which is
    absent: identifier, current node, next node, offset in the current
    record and position in the source (section 4.7). *)
Record t := mk {
  id : size_type;
  curr : node_type;
  next : node_type;
  offset : size_type;
  pos : size_type
}.

(** Modelled from the spec: the constructor [Sequence(text, i, seq_id)]: a
    sequence at the endmarker whose next node is the symbol at [i]; its
    offset in the column of the endmarker is its identifier (section 4.7,
    invariant I8). *)
Definition from_text (text : text_type) (i : size_type) (seq_id : size_type) : option t :=
  first ← at_index text i; Some (mk seq_id ENDMARKER first seq_id i).

(** Modelled from the spec: the constructor [Sequence(node, seq_id,
    source_pos)], used by [merge]: a sequence at the endmarker whose next
    node is [node]. *)
Definition from_node (node : node_type) (seq_id : size_type) (source_pos : size_type) : t :=
  mk seq_id ENDMARKER node seq_id source_pos.

(** Modelled from the spec: [operator<] of [Sequence], the order of the sort
    between iterations: by next node, then current node, then offset
    (section 4.7). *)
Definition lt (a b : t) : bool :=
  if negb (next a =? next b) then next a <? next b
  else if negb (curr a =? curr b) then curr a <? curr b
  else offset a <? offset b.

Definition set_offset (s : t) (v : size_type) : t := mk (id s) (curr s) (next s) v (pos s).
Definition set_pos (s : t) (v : size_type) : t := mk (id s) (curr s) (next s) (offset s) v.
Definition advance (s : t) (n : node_type) : t := mk (id s) (next s) n (offset s) (pos s).

End Sequence.

(** Modelled from the spec: [chooseBestSort] of [internal.h], which is
    absent: any sort on the key [(next, curr, offset)] that is stable
    (sections 4.7 and 9). *)
Definition chooseBestSort (seqs : list Sequence.t) : list Sequence.t :=
  stable_sort Sequence.lt seqs.

(** ** DynamicGBWT *)
Module DynamicGBWT.

Record t := mk { header : GBWTHeader.t; bwt : list DynamicRecord.t }.

(** An index as the default constructor leaves it. *)
Definition empty_index : t := mk GBWTHeader.default [].

(** What a call comes to: it returns, it ends the process through
    [std::exit(EXIT_FAILURE)] after a diagnostic (the index is kept as it
    was at that moment), it reads or writes a vector out of range, or the
    steps granted to a [while (true)] loop are used up. *)
Inductive diagnostic :=
| CannotSetOffset (new_offset new_sigma : size_type)
| TextWithoutEndmarker.

Inductive outcome (A : Type) :=
| Ok (a : A)
| Exit (d : diagnostic) (at_exit : t)
| Undefined
| OutOfFuel.
Arguments Ok {A} a.
Arguments Exit {A} d at_exit.
Arguments Undefined {A}.
Arguments OutOfFuel {A}.

Definition bind {A B} (m : outcome A) (k : A -> outcome B) : outcome B :=
  match m with
  | Ok a => k a
  | Exit d g => Exit d g
  | Undefined => Undefined
  | OutOfFuel => OutOfFuel
  end.

Definition defined {A} (o : option A) : outcome A :=
  match o with
  | Some a => Ok a
  | None => Undefined
  end.

Declare Scope outcome_scope.
Delimit Scope outcome_scope with outcome.
Notation "'do' x <- m ; k" := (bind m (fun x => k))
  (at level 10, x pattern, m at level 100, k at level 200) : outcome_scope.
Local Open Scope outcome_scope.

(** *** Accessors, of [dynamic_gbwt.h] *)

(** Modelled from the spec: [DynamicGBWT::size] of [dynamic_gbwt.h], which
    is absent: the size in the header. *)
Definition size (g : t) : size_type := GBWTHeader.size (header g).

(** Modelled from the spec: [DynamicGBWT::empty]: no symbol in the index. *)
Definition empty (g : t) : bool := size g =? 0.

(** Modelled from the spec: [DynamicGBWT::sequences], the number of
    sequences in the header. *)
Definition sequences (g : t) : size_type := GBWTHeader.sequences (header g).

(** Modelled from the spec: [DynamicGBWT::sigma], the size of the alphabet
    in the header. *)
Definition sigma (g : t) : size_type := GBWTHeader.alphabet_size (header g).

(** Modelled from the spec: [DynamicGBWT::effective], the size of the
    alphabet less the offset, the number of records (section 4.6). *)
Definition effective (g : t) : size_type :=
  wrap64 (GBWTHeader.alphabet_size (header g) - GBWTHeader.offset (header g)).

(** Modelled from the spec: [DynamicGBWT::toComp], the compacted index of a
    node: the node less the offset, and 0 for the endmarker (section 3). *)
Definition toComp (g : t) (node : node_type) : comp_type :=
  if node =? 0 then node else wrap64 (node - GBWTHeader.offset (header g)).

(** Modelled from the spec: [DynamicGBWT::toNode], the node of a compacted
    index. *)
Definition toNode (g : t) (comp : comp_type) : node_type :=
  if comp =? 0 then comp else wrap64 (comp + GBWTHeader.offset (header g)).

(** Modelled from the spec: [DynamicGBWT::record], the record of a node, at
    its compacted index in the vector (section 3). *)
Definition record (g : t) (node : node_type) : option DynamicRecord.t :=
  at_index (bwt g) (toComp g node).

(** Modelled from the spec: an assignment through the reference that
    [DynamicGBWT::record] gives. *)
Definition set_record (g : t) (node : node_type) (r : DynamicRecord.t) : option t :=
  bwt' ← set_index (bwt g) (toComp g node) r; Some (mk (header g) bwt').

(** Modelled from the spec: [DynamicGBWT::count], the sum of the counts of
    the incoming edges of a node (section 4.6). *)
Definition count (g : t) (node : node_type) : outcome size_type :=
  do r <- defined (record g node);
  Ok (wrap64 (sumZ (snd <$> DynamicRecord.incoming r))).

(** *** Serialization *)

(** What [serialize] writes: the header, the node index with its select
    support, the bytes of the records.  The header and the bitvector are
    written by their own classes in formats of their own, so they are kept
    as values here; the count of bytes written, which adds up the sizes of
    those formats, is left out. *)
Record stream := mk_stream {
  s_header : GBWTHeader.t;
  s_index : sd_vector.t;
  s_bytes : list byte_type
}.

Definition write_record (compressed_bwt : list byte_type) (current : DynamicRecord.t)
  : list byte_type :=
  let with_degree := ByteCode.write compressed_bwt (DynamicRecord.outdegree current) in
  let with_edges :=
    fold_left (fun buf (outedge : edge_type) =>
                 ByteCode.write (ByteCode.write buf outedge.1) outedge.2)
              (DynamicRecord.outgoing current) with_degree in
  if 0 <? DynamicRecord.outdegree current then
    fold_left (Run.write (Run.make (DynamicRecord.outdegree current)))
              (DynamicRecord.body current) with_edges
  else with_edges.

Fixpoint write_records (records : list DynamicRecord.t)
    (compressed_bwt : list byte_type) (bwt_offsets : list size_type)
  : list byte_type * list size_type :=
  match records with
  | [] => (compressed_bwt, bwt_offsets)
  | current :: rest =>
      write_records rest (write_record compressed_bwt current)
                    (bwt_offsets ++ [vsize compressed_bwt])
  end.

Definition serialize (g : t) : outcome stream :=
  if vsize (bwt g) <? effective g then Undefined
  else
    let n := Z.to_nat (effective g) in
    let '(compressed_bwt, offsets) := write_records (take n (bwt g)) [] [] in
    let bwt_offsets := offsets ++ replicate (length (bwt g) - n) 0 in
    let node_index :=
      fold_left sd_vector.set bwt_offsets
                (sd_vector.builder (vsize compressed_bwt) (vsize bwt_offsets)) in
    Ok (mk_stream (header g) node_index compressed_bwt).

(** [in.read] takes the bytes that are left when fewer than asked for are,
    and the rest of the buffer stays zero. *)
Definition read_bytes (n : size_type) (input : list byte_type)
  : list byte_type * list byte_type :=
  (take (Z.to_nat n) input ++ replicate (Z.to_nat n - length input) 0,
   drop (Z.to_nat n) input).

Fixpoint read_edges (n : nat) (node_encoding : list byte_type) (offset : size_type)
  : option (list edge_type * size_type) :=
  match n with
  | O => Some ([], offset)
  | S n' =>
      '(first, offset1) ← ByteCode.read node_encoding offset;
      '(second, offset2) ← ByteCode.read node_encoding offset1;
      '(rest, offset3) ← read_edges n' node_encoding offset2;
      Some ((first, second) :: rest, offset3)
  end.

(** The loop that reads the body; a run takes at least one byte, so the
    length of the encoding bounds the number of rounds. *)
Fixpoint read_body (rounds : nat) (decoder : Run.t) (node_encoding : list byte_type)
    (offset : size_type) (current : DynamicRecord.t) : option DynamicRecord.t :=
  if offset <? vsize node_encoding then
    match rounds with
    | O => None
    | S rounds' =>
        '(run, offset') ← Run.read decoder node_encoding offset;
        read_body rounds' decoder node_encoding offset'
          (DynamicRecord.mk (wrap64 (DynamicRecord.body_size current + run.2))
             (DynamicRecord.incoming current) (DynamicRecord.outgoing current)
             (DynamicRecord.body current ++ [run]))
    end
  else Some current.

Definition read_record (node_encoding : list byte_type) (current : DynamicRecord.t)
  : option DynamicRecord.t :=
  let current := DynamicRecord.clear current in
  '(degree, offset) ← ByteCode.read node_encoding 0;
  '(edges, offset) ← read_edges (Z.to_nat degree) node_encoding offset;
  let current :=
    DynamicRecord.mk (DynamicRecord.body_size current) (DynamicRecord.incoming current)
                     edges [] in
  if 0 <? DynamicRecord.outdegree current then
    read_body (length node_encoding) (Run.make (DynamicRecord.outdegree current))
              node_encoding offset current
  else Some current.

Fixpoint read_records (e : size_type) (node_index : sd_vector.t)
    (records : list DynamicRecord.t) (comp : comp_type) (input : list byte_type)
  : option (list DynamicRecord.t) :=
  match records with
  | [] => Some []
  | current :: rest =>
      start ← sd_vector.select_1 node_index (comp + 1);
      stop ← (if comp + 1 <? e then sd_vector.select_1 node_index (comp + 2)
              else Some (sd_vector.size node_index));
      let '(node_encoding, input') := read_bytes (wrap64 (stop - start)) input in
      current' ← read_record node_encoding current;
      rest' ← read_records e node_index rest (comp + 1) input';
      Some (current' :: rest')
  end.

Fixpoint run_counts (b : list run_type) (counts : list size_type) : option (list size_type) :=
  match b with
  | [] => Some counts
  | run :: rest =>
      c ← at_index counts run.1;
      counts' ← set_index counts run.1 (wrap64 (c + run.2));
      run_counts rest counts'
  end.

Fixpoint rebuild_edges (g : t) (comp : comp_type) (edges : list (edge_type * size_type))
  : option t :=
  match edges with
  | [] => Some g
  | (outedge, c) :: rest =>
      if negb (outedge.1 =? ENDMARKER) then
        successor ← record g outedge.1;
        g' ← set_record g outedge.1 (DynamicRecord.addIncoming successor (comp, c));
        rebuild_edges g' comp rest
      else rebuild_edges g comp rest
  end.

Fixpoint rebuild_incoming (n : nat) (comp : comp_type) (g : t) : option t :=
  match n with
  | O => Some g
  | S n' =>
      current ← at_index (bwt g) comp;
      counts ← run_counts (DynamicRecord.body current)
                          (replicate (length (DynamicRecord.outgoing current)) 0);
      g' ← rebuild_edges g comp (zip (DynamicRecord.outgoing current) counts);
      rebuild_incoming n' (comp + 1) g'
  end.

(** [load]; the diagnostic on a header that fails [check] does not stop it. *)
Definition load (g : t) (input : stream) : outcome t :=
  let header := s_header input in
  let e := wrap64 (GBWTHeader.alphabet_size header - GBWTHeader.offset header) in
  let resized := take (Z.to_nat e) (bwt g)
                 ++ replicate (Z.to_nat e - length (bwt g)) DynamicRecord.empty in
  do records <- defined (read_records e (s_index input) resized 0 (s_bytes input));
  defined (rebuild_incoming (Z.to_nat e) 0 (mk header records)).

Definition copy (g source : t) : t := mk (header source) (bwt source).

Definition runs (g : t) : size_type := wrap64 (sumZ (DynamicRecord.runs <$> bwt g)).

(** [compare], less the report it prints. *)
Fixpoint compare_records (n : nat) (a b : list DynamicRecord.t) : outcome bool :=
  match n with
  | O => Ok true
  | S n' =>
      match a, b with
      | x :: a', y :: b' =>
          if DynamicRecord.equal x y then compare_records n' a' b' else Ok false
      | _, _ => Undefined
      end
  end.

Definition compare (g another : t) : outcome bool :=
  if negb (GBWTHeader.equal (header g) (header another)) then Ok false
  else compare_records (Z.to_nat (effective g)) (bwt g) (bwt another).

(** *** Support functions for index construction *)

Definition swapBody (record : DynamicRecord.t) (merger : RunMerger.t)
  : DynamicRecord.t * RunMerger.t :=
  let merger := RunMerger.flush merger in
  (DynamicRecord.mk (RunMerger.total_size merger) (DynamicRecord.incoming record)
                    (DynamicRecord.outgoing record) (RunMerger.runs merger),
   RunMerger.mk (DynamicRecord.body_size record) (RunMerger.accumulator merger)
                (DynamicRecord.body record) (RunMerger.counts merger)).

(** The records of the old vector go to their places in the new one, from
    compacted index [comp] on. *)
Fixpoint relocate (records : list DynamicRecord.t) (comp : comp_type)
    (old_offset new_offset : size_type) (new_bwt : list DynamicRecord.t)
  : option (list DynamicRecord.t) :=
  match records with
  | [] => Some new_bwt
  | current :: rest =>
      new_bwt' ← set_index new_bwt (wrap64 (wrap64 (comp + old_offset) - new_offset)) current;
      relocate rest (comp + 1) old_offset new_offset new_bwt'
  end.

Definition resize (g : t) (new_offset new_sigma : size_type) : outcome t :=
  let new_offset :=
    if ((1 <? sigma g) && (GBWTHeader.offset (header g) <? new_offset)) || (new_sigma <=? 1)
    then GBWTHeader.offset (header g) else new_offset in
  let new_sigma := if new_sigma <? sigma g then sigma g else new_sigma in
  if (0 <? new_offset) && (new_sigma <=? new_offset) then
    Exit (CannotSetOffset new_offset new_sigma) g
  else if negb (new_offset =? GBWTHeader.offset (header g)) || negb (new_sigma =? sigma g) then
    if vsize (bwt g) <? effective g then Undefined
    else
      let new_bwt := replicate (Z.to_nat (wrap64 (new_sigma - new_offset))) DynamicRecord.empty in
      match take (Z.to_nat (effective g)) (bwt g) with
      | [] => Ok (mk (GBWTHeader.set_alphabet (header g) new_offset new_sigma) new_bwt)
      | endmarker :: others =>
          do with_endmarker <- defined (set_index new_bwt 0 endmarker);
          do moved <- defined (relocate others 1 (GBWTHeader.offset (header g)) new_offset
                                        with_endmarker);
          Ok (mk (GBWTHeader.set_alphabet (header g) new_offset new_sigma) moved)
      end
  else Ok g.

(** The two sources of sequences, a text and another index, answer the same
    two calls. *)
Class Source (S : Type) := {
  nextPosition : list Sequence.t -> S -> option (list Sequence.t);
  advancePosition : list Sequence.t -> S -> option (list Sequence.t)
}.

Definition nextPosition_text (seqs : list Sequence.t) (text : text_type)
  : option (list Sequence.t) :=
  Some ((fun seq => Sequence.set_pos seq (wrap64 (Sequence.pos seq + 1))) <$> seqs).

Definition add_count (result : list edge_type) (outrank : rank_type) (n : size_type)
  : option (list edge_type) :=
  e ← at_index result outrank; set_index result outrank (e.1, wrap64 (e.2 + n)).

(** A walk over the body of a record of the source: the run under the
    iterator, the runs after it, the number of positions up to the end of
    that run, and for [nextPosition] the offsets of the edges advanced by
    the runs passed. *)
Record walk := mk_walk {
  w_node : node_type;
  w_record : DynamicRecord.t;
  w_run : run_type;
  w_rest : list run_type;
  w_offset : size_type;
  w_result : list edge_type
}.

Fixpoint walk_to (counting : bool) (rest : list run_type) (run : run_type)
    (offset : size_type) (result : list edge_type) (pos : size_type)
  : option (run_type * list run_type * size_type * list edge_type) :=
  if offset <=? pos then
    match rest with
    | [] => None
    | run' :: rest' =>
        result' ← (if counting then add_count result run'.1 run'.2 else Some result);
        walk_to counting rest' run' (wrap64 (offset + run'.2)) result' pos
    end
  else Some (run, rest, offset, result).

Definition walk_open (counting : bool) (source : t) (node : node_type) : option walk :=
  current ← record source node;
  match DynamicRecord.body current with
  | [] => None
  | run :: rest =>
      result ← (if counting then add_count (DynamicRecord.outgoing current) run.1 run.2
                else Some (DynamicRecord.outgoing current));
      Some (mk_walk node current run rest run.2 result)
  end.

Definition walk_for (counting : bool) (source : t) (w : option walk) (node : node_type)
  : option walk :=
  match w with
  | Some w' => if w_node w' =? node then Some w' else walk_open counting source node
  | None => walk_open counting source node
  end.

Fixpoint nextPosition_from (source : t) (w : option walk) (seqs : list Sequence.t)
  : option (list Sequence.t) :=
  match seqs with
  | [] => Some []
  | seq :: rest =>
      w1 ← walk_for true source w (Sequence.curr seq);
      '(run, runs, offset, result) ←
        walk_to true (w_rest w1) (w_run w1) (w_offset w1) (w_result w1) (Sequence.pos seq);
      e ← at_index result run.1;
      let seq' := Sequence.set_pos seq (wrap64 (e.2 - wrap64 (offset - Sequence.pos seq))) in
      rest' ← nextPosition_from source
                (Some (mk_walk (w_node w1) (w_record w1) run runs offset result)) rest;
      Some (seq' :: rest')
  end.

Definition nextPosition_gbwt (seqs : list Sequence.t) (source : t) : option (list Sequence.t) :=
  nextPosition_from source None seqs.

Definition advancePosition_text (seqs : list Sequence.t) (text : text_type)
  : option (list Sequence.t) :=
  mapM (fun seq => n ← at_index text (Sequence.pos seq); Some (Sequence.advance seq n)) seqs.

Fixpoint advancePosition_from (source : t) (w : option walk) (seqs : list Sequence.t)
  : option (list Sequence.t) :=
  match seqs with
  | [] => Some []
  | seq :: rest =>
      w1 ← walk_for false source w (Sequence.next seq);
      '(run, runs, offset, result) ←
        walk_to false (w_rest w1) (w_run w1) (w_offset w1) (w_result w1) (Sequence.pos seq);
      n ← DynamicRecord.successor (w_record w1) run.1;
      rest' ← advancePosition_from source
                (Some (mk_walk (w_node w1) (w_record w1) run runs offset result)) rest;
      Some (Sequence.advance seq n :: rest')
  end.

Definition advancePosition_gbwt (seqs : list Sequence.t) (source : t)
  : option (list Sequence.t) :=
  advancePosition_from source None seqs.

#[global] Instance text_source : Source text_type :=
  {| nextPosition := nextPosition_text; advancePosition := advancePosition_text |}.
#[global] Instance gbwt_source : Source t :=
  {| nextPosition := nextPosition_gbwt; advancePosition := advancePosition_gbwt |}.

(** [recode]; the records are independent of one another, so the parallel
    loop is a map. *)
Definition recode (g : t) : outcome t :=
  if vsize (bwt g) <? effective g then Undefined
  else
    let n := Z.to_nat (effective g) in
    Ok (mk (header g) ((DynamicRecord.recode <$> take n (bwt g)) ++ drop n (bwt g))).


(** *** The insertion of a batch of sequences *)

(** The old runs go to the new body until it holds [offset] symbols; the
    run that crosses [offset] is split.  After a split the new body holds
    exactly [offset] symbols, which ends the loop. *)
Fixpoint pull (iter : list run_type) (new_body : RunMerger.t) (offset : size_type)
  : option (list run_type * RunMerger.t) :=
  if RunMerger.size new_body <? offset then
    match iter with
    | [] => None
    | run :: rest =>
        if run.2 <=? wrap64 (offset - RunMerger.size new_body) then
          new_body' ← RunMerger.insert new_body run;
          pull rest new_body' offset
        else
          let temp : run_type := (run.1, wrap64 (offset - RunMerger.size new_body)) in
          new_body' ← RunMerger.insert new_body temp;
          Some ((run.1, wrap64 (run.2 - temp.2)) :: rest, new_body')
    end
  else Some (iter, new_body).

Fixpoint pull_rest (iter : list run_type) (new_body : RunMerger.t) : option RunMerger.t :=
  match iter with
  | [] => Some new_body
  | run :: rest => new_body' ← RunMerger.insert new_body run; pull_rest rest new_body'
  end.

(** The record being rewritten: its node, the new body and the iterator
    into the old one. *)
Record splice := mk_splice {
  sp_curr : node_type;
  sp_new_body : RunMerger.t;
  sp_iter : list run_type
}.

Definition splice_open (g : t) (curr : node_type) : option splice :=
  current ← record g curr;
  Some (mk_splice curr (RunMerger.make (DynamicRecord.outdegree current))
                  (DynamicRecord.body current)).

Definition splice_close (g : t) (sp : option splice) : option t :=
  match sp with
  | None => Some g
  | Some sp' =>
      new_body ← pull_rest (sp_iter sp') (sp_new_body sp');
      current ← record g (sp_curr sp');
      set_record g (sp_curr sp') (swapBody current new_body).1
  end.

Definition splice_step (g : t) (sp : splice) (seq : Sequence.t)
  : option (t * splice * Sequence.t) :=
  let curr := sp_curr sp in
  current ← record g curr;
  let outrank := DynamicRecord.edgeTo current (Sequence.next seq) in
  '(g1, new_body) ←
    (if DynamicRecord.outdegree current <=? outrank then
       g' ← set_record g curr
              (DynamicRecord.mk (DynamicRecord.body_size current)
                 (DynamicRecord.incoming current)
                 (DynamicRecord.outgoing current ++ [(Sequence.next seq, 0)])
                 (DynamicRecord.body current));
       Some (g', RunMerger.addEdge (sp_new_body sp))
     else Some (g, sp_new_body sp));
  '(iter, new_body) ← pull (sp_iter sp) new_body (Sequence.offset seq);
  rank ← at_index (RunMerger.counts new_body) outrank;
  new_body ← RunMerger.insert_rank new_body outrank;
  g2 ← (if negb (Sequence.next seq =? ENDMARKER) then
          next_node ← record g1 (Sequence.next seq);
          set_record g1 (Sequence.next seq) (DynamicRecord.increment next_node curr)
        else Some g1);
  Some (g2, mk_splice curr new_body iter, Sequence.set_offset seq rank).

Fixpoint splice_all (g : t) (sp : option splice) (seqs : list Sequence.t)
  : option (t * list Sequence.t) :=
  match seqs with
  | [] => g' ← splice_close g sp; Some (g', [])
  | seq :: rest =>
      '(g1, sp1) ←
        match sp with
        | Some sp' =>
            if sp_curr sp' =? Sequence.curr seq then Some (g, sp')
            else g' ← splice_close g sp;
                 sp'' ← splice_open g' (Sequence.curr seq); Some (g', sp'')
        | None => sp'' ← splice_open g (Sequence.curr seq); Some (g, sp'')
        end;
      '(g2, sp2, seq') ← splice_step g1 sp1 seq;
      '(g3, rest') ← splice_all g2 (Some sp2) rest;
      Some (g3, seq' :: rest')
  end.

(** The sequences at the front whose next node is the endmarker. *)
Fixpoint finished (seqs : list Sequence.t) : nat :=
  match seqs with
  | [] => O
  | seq :: rest => if Sequence.next seq =? ENDMARKER then S (finished rest) else O
  end.

Fixpoint edge_offsets (g : t) (next : node_type) (inedges : list edge_type)
    (offset : size_type) : option t :=
  match inedges with
  | [] => Some g
  | inedge :: rest =>
      predecessor ← record g inedge.1;
      predecessor' ← DynamicRecord.set_offset predecessor
                       (DynamicRecord.edgeTo predecessor next) offset;
      g' ← set_record g inedge.1 predecessor';
      edge_offsets g' next rest (wrap64 (offset + inedge.2))
  end.

Fixpoint rebuild_offsets (g : t) (next : node_type) (seqs : list Sequence.t) : option t :=
  match seqs with
  | [] => Some g
  | seq :: rest =>
      if Sequence.next seq =? next then rebuild_offsets g next rest
      else
        next_node ← record g (Sequence.next seq);
        g' ← edge_offsets g (Sequence.next seq) (DynamicRecord.incoming next_node) 0;
        rebuild_offsets g' (Sequence.next seq) rest
  end.

Definition to_positions (g : t) (seqs : list Sequence.t) : option (list Sequence.t) :=
  mapM (fun seq =>
          current ← record g (Sequence.curr seq);
          base ← DynamicRecord.offset current (DynamicRecord.edgeTo current (Sequence.next seq));
          Some (Sequence.set_offset seq (wrap64 (Sequence.offset seq + base)))) seqs.

Definition add_size (g : t) (n : size_type) : t :=
  mk (GBWTHeader.set_size (header g) (wrap64 (GBWTHeader.size (header g) + n))) (bwt g).

(** One round of the loop of the template [insert]: the index after the
    round and the sequences of the next round, [None] when the loop
    returns. *)
Definition batch_round {Src} `{Source Src} (g : t) (seqs : list Sequence.t) (source : Src)
  : outcome (t * option (list Sequence.t)) :=
  do (g1, seqs1) <- defined (splice_all g None seqs);
  let g2 := add_size g1 (vsize seqs1) in
  do seqs2 <- defined (nextPosition seqs1 source);
  let seqs3 := chooseBestSort seqs2 in
  let seqs4 := drop (finished seqs3) seqs3 in
  match seqs4 with
  | [] => Ok (g2, None)
  | _ :: _ =>
      do g3 <- defined (rebuild_offsets g2 (sigma g2) seqs4);
      do seqs5 <- defined (to_positions g3 seqs4);
      do seqs6 <- defined (advancePosition seqs5 source);
      Ok (g3, Some seqs6)
  end.

(** The template [insert]: a round of the loop for each unit of [fuel],
    [iterations] counting the rounds done before. *)
Fixpoint insert_batch {Src} `{Source Src} (fuel : nat) (iterations : size_type) (g : t)
    (seqs : list Sequence.t) (source : Src) : outcome (size_type * t) :=
  match fuel with
  | O => OutOfFuel
  | S fuel' =>
      let iterations := wrap64 (iterations + 1) in
      do (g', next_round) <- batch_round g seqs source;
      match next_round with
      | None => Ok (iterations, g')
      | Some seqs' => insert_batch fuel' iterations g' seqs' source
      end
  end.

(** *** insert *)

Definition add_sequence (g : t) : t :=
  mk (GBWTHeader.set_sequences (header g) (wrap64 (GBWTHeader.sequences (header g) + 1)))
     (bwt g).

(** The scan of the text: where the sequences start, the smallest and the
    largest node. *)
Record scan := mk_scan {
  sc_index : t;
  sc_seq_start : bool;
  sc_min_node : node_type;
  sc_max_node : node_type;
  sc_seqs : list Sequence.t
}.

Definition scan_symbol (text : text_type) (st : scan) (i : size_type) (symbol : node_type)
  : option scan :=
  '(g, seqs) ←
    (if sc_seq_start st then
       seq ← Sequence.from_text text i (sequences (sc_index st));
       Some (add_sequence (sc_index st), sc_seqs st ++ [seq])
     else Some (sc_index st, sc_seqs st));
  Some (mk_scan g
          (if symbol =? ENDMARKER then true else false)
          (if symbol =? ENDMARKER then sc_min_node st else Z.min symbol (sc_min_node st))
          (Z.max symbol (sc_max_node st))
          seqs).

Fixpoint scan_text (text : text_type) (symbols : list node_type) (i : size_type) (st : scan)
  : option scan :=
  match symbols with
  | [] => Some st
  | symbol :: rest =>
      st' ← scan_symbol text st i symbol;
      scan_text text rest (i + 1) st'
  end.

Definition insert (fuel : nat) (g : t) (text : text_type) : outcome t :=
  match last text with
  | None => Ok g
  | Some symbol =>
      if negb (symbol =? ENDMARKER) then Exit TextWithoutEndmarker g
      else
        let min_node :=
          if empty g then wrap64 (Z.lnot 0) else wrap64 (GBWTHeader.offset (header g) + 1) in
        let max_node := if empty g then 0 else wrap64 (sigma g - 1) in
        do st <- defined (scan_text text text 0 (mk_scan g true min_node max_node []));
        let min_node := if sc_max_node st =? 0 then 1 else sc_min_node st in
        do g1 <- resize (sc_index st) (wrap64 (min_node - 1)) (wrap64 (sc_max_node st + 1));
        do (iterations, g2) <- insert_batch fuel 0 g1 (sc_seqs st) text;
        recode g2
  end.

(** *** merge *)

(** The sequences of one batch, read off the body of the endmarker of the
    source.  A round either moves the iterator to the next run or takes one
    sequence, so the rounds are bounded. *)
Fixpoint batch_of (rounds : nat) (g : t) (endmarker : DynamicRecord.t)
    (iter : list run_type) (run_offset source_offset limit : size_type)
    (seqs : list Sequence.t)
  : option (t * list run_type * size_type * size_type * list Sequence.t) :=
  if source_offset <? limit then
    match rounds with
    | O => None
    | S rounds' =>
        match iter with
        | [] => None
        | run :: rest =>
            if run.2 <=? run_offset then
              batch_of rounds' g endmarker rest 0 source_offset limit seqs
            else
              node ← DynamicRecord.successor endmarker run.1;
              batch_of rounds' (add_sequence g) endmarker iter
                       (wrap64 (run_offset + 1)) (wrap64 (source_offset + 1)) limit
                       (seqs ++ [Sequence.from_node node (sequences g) source_offset])
        end
    end
  else Some (g, iter, run_offset, source_offset, seqs).

Fixpoint merge_batches (fuel : nat) (g source : t) (batch_size : size_type)
    (endmarker : DynamicRecord.t) (iter : list run_type)
    (run_offset source_offset : size_type) : outcome t :=
  if source_offset <? sequences source then
    match fuel with
    | O => OutOfFuel
    | S fuel' =>
        let limit := Z.min (wrap64 (source_offset + batch_size)) (sequences source) in
        do (g1, iter', run_offset', source_offset', seqs) <-
          defined (batch_of (Z.to_nat (limit - source_offset) + length iter) g endmarker
                            iter run_offset source_offset limit []);
        do (iterations, g2) <- insert_batch fuel 0 g1 seqs source;
        merge_batches fuel' g2 source batch_size endmarker iter' run_offset' source_offset'
    end
  else Ok g.

Definition merge (fuel : nat) (g source : t) (batch_size : size_type) : outcome t :=
  if empty source then Ok g
  else if empty g then Ok (copy g source)
  else
    let batch_size := if batch_size =? 0 then sequences source else batch_size in
    do g1 <- resize g (GBWTHeader.offset (header source)) (sigma source);
    do endmarker <- defined (record source ENDMARKER);
    do g2 <- merge_batches fuel g1 source batch_size endmarker
                           (DynamicRecord.body endmarker) 0 0;
    recode g2.

(** *** LF *)

Definition LF (g : t) (from : node_type) (i : size_type) (to : node_type)
  : outcome size_type :=
  if sigma g <=? to then Ok invalid_offset
  else if sigma g <=? from then count g to
  else
    do from_node <- defined (record g from);
    let result := DynamicRecord.LF from_node i to in
    if negb (result =? invalid_offset) then Ok result
    else
      do to_node <- defined (record g to);
      let inrank := DynamicRecord.findFirst to_node from in
      if DynamicRecord.indegree to_node <=? inrank then count g to
      else
        do pred <- defined (DynamicRecord.predecessor to_node inrank);
        do next_from <- defined (record g pred);
        defined (DynamicRecord.offset next_from (DynamicRecord.edgeTo next_from to)).

Definition LF_edge (g : t) (from : node_type) (i : size_type) : outcome edge_type :=
  if sigma g <=? from then Ok invalid_edge
  else
    do from_node <- defined (record g from);
    Ok (DynamicRecord.LF_edge from_node i).

End DynamicGBWT.

(** ** Notions used in the statements *)

Import DynamicGBWT.
Local Open Scope outcome_scope.

(** A value of an unsigned 64-bit type. *)
Definition u64 (x : Z) : Prop := 0 <= x < 2 ^ 64.

(** A call fails fatally when it ends the process with a diagnostic. *)
Definition fails_fatally {A} (o : outcome A) : Prop :=
  exists d at_exit, o = Exit d at_exit.

(** The header counts what the vector holds: the offset is within the
    alphabet and there is one record for each effective symbol. *)
Definition consistent (g : t) : Prop :=
  0 <= GBWTHeader.offset (header g) <= GBWTHeader.alphabet_size (header g)
  /\ GBWTHeader.alphabet_size (header g) < 2 ^ 64
  /\ vsize (bwt g) = effective g.

(** The offset and the alphabet size that [resize] settles on. *)
Definition settled_offset (g : t) (new_offset new_sigma : size_type) : size_type :=
  if ((1 <? sigma g) && (GBWTHeader.offset (header g) <? new_offset)) || (new_sigma <=? 1)
  then GBWTHeader.offset (header g) else new_offset.

Definition settled_sigma (g : t) (new_sigma : size_type) : size_type :=
  Z.max (sigma g) new_sigma.

(** ** Sample indices *)

(** The index that [insert] builds from the text [3 5 0] on an empty index:
    offset 2, and records for the endmarker and the nodes 3, 4 and 5. *)
Definition index_3_5 : t :=
  mk (GBWTHeader.mk GBWTHeader.TAG GBWTHeader.VERSION 1 3 2 6 0)
     [ DynamicRecord.mk 1 [] [(3, 0)] [(0, 1)];
       DynamicRecord.mk 1 [(0, 1)] [(5, 0)] [(0, 1)];
       DynamicRecord.mk 0 [] [] [];
       DynamicRecord.mk 1 [(3, 1)] [(0, 0)] [(0, 1)] ].


(** The number of symbols a builder holds: the runs written and the
    pending one. *)
Definition merged (m : RunMerger.t) : Z :=
  sumZ (snd <$> RunMerger.runs m) + (RunMerger.accumulator m).2.

(** Invariant I7 with the per-record equality it rests on: the size of
    each record is the sum of the lengths of its runs, and the size in the
    header is the sum of the sizes of the records, hence the sum of the
    lengths of all runs.  The sums are those of [size_type]. *)
Definition I7 (g : t) : Prop :=
  Forall (fun r => DynamicRecord.body_size r = wrap64 (DynamicRecord.body_total r)) (bwt g)
  /\ size g = wrap64 (sumZ (DynamicRecord.body_size <$> bwt g))
  /\ size g = wrap64 (sumZ (DynamicRecord.body_total <$> bwt g)).

(** The sizes and bodies of the records, and the number of symbols of a
    body. *)
Definition run_lengths (b : list run_type) : Z := sumZ (snd <$> b).

Definition bodies (g : t) : list (Z * list run_type) :=
  (fun r => (DynamicRecord.body_size r, DynamicRecord.body r)) <$> bwt g.

Definition sized (p : Z * list run_type) : Prop := p.1 = wrap64 (run_lengths p.2).

Definition symbols (l : list (Z * list run_type)) : Z :=
  sumZ ((fun p : Z * list run_type => run_lengths p.2) <$> l).

(** What holds while the record of [sp_curr sp] is rewritten: the builder
    and the old runs still to come hold the symbols of that record and
    those inserted so far, [total] stands for the symbols of the whole
    index with the latter. *)
Definition splicing (g : t) (sp : splice) (total : Z) : Prop :=
  exists old,
    0 <= toComp g (sp_curr sp)
    /\ bodies g !! Z.to_nat (toComp g (sp_curr sp)) = Some old
    /\ (forall j p, bodies g !! j = Some p -> j <> Z.to_nat (toComp g (sp_curr sp)) ->
          sized p)
    /\ RunMerger.total_size (sp_new_body sp) = wrap64 (merged (sp_new_body sp))
    /\ wrap64 (symbols (bodies g) - run_lengths old.2 + merged (sp_new_body sp)
               + run_lengths (sp_iter sp)) = wrap64 total.

Definition spliced (g : t) (sp : option splice) (total : Z) : Prop :=
  match sp with
  | Some sp' => splicing g sp' total
  | None => Forall sized (bodies g) /\ wrap64 (symbols (bodies g)) = wrap64 total
  end.

(** The form of I7 on the sizes and bodies. *)
Definition counted (g : t) : Prop :=
  Forall sized (bodies g) /\ size g = wrap64 (symbols (bodies g)).

(** Two indices whose headers differ in the size at most, with as many
    records. *)
Definition same_frame (g g' : t) : Prop :=
  GBWTHeader.set_size (header g') 0 = GBWTHeader.set_size (header g) 0
  /\ length (bwt g') = length (bwt g).

(** Two entries of the same size whose bodies hold as many symbols. *)
Definition same_count (p q : Z * list run_type) : Prop :=
  q.1 = p.1 /\ wrap64 (run_lengths q.2) = wrap64 (run_lengths p.2).

(** Two indices that differ in the number of sequences at most. *)
Definition same_but_sequences (g g' : t) : Prop :=
  bwt g' = bwt g
  /\ GBWTHeader.set_sequences (header g') 0 = GBWTHeader.set_sequences (header g) 0.

(** ** The text as a source: notions for the termination of a batch *)

(** A sequence reads the text: its next node is the symbol at [pos]. *)
Definition aligned (text : text_type) (seq : Sequence.t) : Prop :=
  at_index text (Sequence.pos seq) = Some (Sequence.next seq).

(** The symbols in front of the first endmarker. *)
Fixpoint to_endmarker (symbols : list Z) : nat :=
  match symbols with
  | [] => O
  | symbol :: rest => if symbol =? ENDMARKER then O else S (to_endmarker rest)
  end.

(** The symbols a sequence at position [pos] has to write before its
    endmarker, and the most any sequence of a batch has. *)
Definition remaining (text : text_type) (pos : size_type) : nat :=
  to_endmarker (drop (Z.to_nat pos) text).

Definition longest (text : text_type) (seqs : list Sequence.t) : nat :=
  max_list ((fun seq => remaining text (Sequence.pos seq)) <$> seqs).

(** A sequence whose next node is not the endmarker goes on to the next
    round. *)
Definition unfinished (seq : Sequence.t) : Prop := Sequence.next seq <> ENDMARKER.

#[global] Instance unfinished_dec seq : Decision (unfinished seq).
Proof. unfold unfinished. apply _. Defined.

(** A sequence that differs from another in the offset at most. *)
Definition moved (seq seq' : Sequence.t) : Prop :=
  exists offset, seq' = Sequence.set_offset seq offset.

(** What identifies a sequence in the text: its identifier and position. *)
Definition place (seq : Sequence.t) : Z * Z := (Sequence.id seq, Sequence.pos seq).
Definition next_place (seq : Sequence.t) : Z * Z := (Sequence.id seq, Sequence.pos seq + 1).

(** A sequence that has taken its next symbol from the text. *)
Definition advanced (text : text_type) (seq seq' : Sequence.t) : Prop :=
  exists n, at_index text (Sequence.pos seq) = Some n /\ seq' = Sequence.advance seq n.

(** The index that [insert] hands to the loop for the text [3 5 0] on an
    empty index, and the batch of that text. *)
Definition index_for_3_5 : t :=
  mk (GBWTHeader.mk GBWTHeader.TAG GBWTHeader.VERSION 1 0 2 6 0)
     (replicate 4 DynamicRecord.empty).

Definition batch_3_5 : list Sequence.t := [Sequence.mk 0 ENDMARKER 3 0 0].

(** The index that [insert] builds from the text [2 3 0] on an empty index:
    offset 1, and records for the endmarker and the nodes 2 and 3. *)
Definition index_2_3 : t :=
  mk (GBWTHeader.mk GBWTHeader.TAG GBWTHeader.VERSION 1 3 1 4 0)
     [ DynamicRecord.mk 1 [] [(2, 0)] [(0, 1)];
       DynamicRecord.mk 1 [(0, 1)] [(3, 0)] [(0, 1)];
       DynamicRecord.mk 1 [(2, 1)] [(0, 0)] [(0, 1)] ].

(** What [load] makes of the bytes that [serialize] writes for it. *)
Definition index_2_3_reloaded : t :=
  mk (GBWTHeader.mk GBWTHeader.TAG GBWTHeader.VERSION 1 3 1 4 0)
     [ DynamicRecord.mk 1 [] [(2, 0)] [(0, 1)];
       DynamicRecord.mk 1 [(0, 1)] [(3, 0)] [(0, 1)];
       DynamicRecord.mk 1 [(1, 1)] [(0, 0)] [(0, 1)] ].

(** ** Notions for serialization *)

(** A run that the codec of an alphabet of [sigma] letters can write. *)
Definition valid_run (sigma : size_type) (run : run_type) : Prop :=
  0 <= run.1 < sigma /\ 1 <= run.2 < 2 ^ 64.

(** A record whose numbers are values of [size_type], whose runs name
    outgoing edges and are not empty. *)
Definition encodable (r : DynamicRecord.t) : Prop :=
  DynamicRecord.outdegree r < 2 ^ 64
  /\ Forall (fun e : edge_type => u64 e.1 /\ u64 e.2) (DynamicRecord.outgoing r)
  /\ Forall (valid_run (DynamicRecord.outdegree r)) (DynamicRecord.body r).

(** The bytes of the edges and of the runs of a record. *)
Definition edge_bytes (e : edge_type) : list byte_type :=
  ByteCode.write (ByteCode.write [] e.1) e.2.

Definition record_bytes (r : DynamicRecord.t) : list byte_type := write_record [] r.

(** The offsets at which records start, the first one at [base]. *)
Fixpoint starts (base : Z) (records : list DynamicRecord.t) : list Z :=
  match records with
  | [] => []
  | r :: rest => base :: starts (base + vsize (record_bytes r)) rest
  end.

(** A record as [load] reads it back, before the incoming edges are
    rebuilt. *)
Definition reread (r : DynamicRecord.t) : DynamicRecord.t :=
  DynamicRecord.mk (wrap64 (DynamicRecord.body_total r)) []
                   (DynamicRecord.outgoing r) (DynamicRecord.body r).

Definition edges_bytes (edges : list edge_type) : list byte_type :=
  concat (edge_bytes <$> edges).

Definition runs_bytes (sigma : size_type) (runs : list run_type) : list byte_type :=
  concat (Run.write (Run.make sigma) [] <$> runs).

(** The invariant of the header on the offset (section 3): the offset is 0,
    or it is positive and below the size of the alphabet. *)
Definition valid_header (h : GBWTHeader.t) : Prop :=
  0 <= GBWTHeader.offset h /\ 0 <= GBWTHeader.alphabet_size h < 2 ^ 64
  /\ (GBWTHeader.offset h = 0 \/ GBWTHeader.offset h < GBWTHeader.alphabet_size h).

(** ** Notions for the nodes of an index *)

(** A node that has a record: the endmarker or a node above the offset,
    within the alphabet. *)
Definition has_record (g : t) (node : node_type) : Prop :=
  0 <= node < sigma g /\ (node = ENDMARKER \/ GBWTHeader.offset (header g) < node).

(** ** Notions for the round trip through the byte stream *)

(** Every outgoing edge leads to the endmarker or to a node that has a
    record. *)
Definition edges_have_records (g : t) : Prop :=
  Forall (fun r =>
            Forall (fun e : edge_type => e.1 = ENDMARKER \/ is_Some (record g e.1))
                   (DynamicRecord.outgoing r))
         (bwt g).

(** What the byte stream holds of a record: the size of its body, its
    outgoing edges and its body. *)
Definition stored (r : DynamicRecord.t) : Z * list edge_type * list run_type :=
  (DynamicRecord.body_size r, DynamicRecord.outgoing r, DynamicRecord.body r).

(** ** Notions for what an insertion adds *)

(** The symbols that the sequences of a batch have still to write, each
    with its endmarker. *)
Definition symbols_left (text : text_type) (seqs : list Sequence.t) : Z :=
  sumZ ((fun seq => Z.of_nat (remaining text (Sequence.pos seq)) + 1) <$> seqs).

(** The endmarkers of a text, one for each of its sequences. *)
Definition endmarkers (text : text_type) : Z :=
  vsize (filter (fun symbol => symbol = ENDMARKER) text).

(** The stream that [serialize] writes for [index_2_3]. *)
Definition stream_2_3 : stream :=
  mk_stream (header index_2_3) (sd_vector.mk 12 [0; 4; 8])
            [1; 2; 0; 0; 1; 3; 0; 0; 1; 0; 0; 0].

(** ** Notions for an index as the source of sequences *)

(** The symbols of a rank in the runs of a body. *)
Definition count_rank (b : list run_type) (k : rank_type) : Z :=
  sumZ ((fun run : run_type => if run.1 =? k then run.2 else 0) <$> b).

(** A record whose body can be walked: its runs name outgoing edges and are
    not empty, and the column is shorter than [2 ^ 64]. *)
Definition walkable (r : DynamicRecord.t) : Prop :=
  Forall (valid_run (DynamicRecord.outdegree r)) (DynamicRecord.body r)
  /\ DynamicRecord.body_total r < 2 ^ 64.

(** The sequences that share a node, as far as they follow one another, are
    in the order of their positions. *)
Fixpoint ascending (key : Sequence.t -> node_type) (seqs : list Sequence.t) : Prop :=
  match seqs with
  | [] => True
  | a :: rest =>
      match rest with
      | [] => True
      | b :: _ => key a = key b -> Sequence.pos a <= Sequence.pos b
      end
      /\ ascending key rest
  end.

(** A sequence at a position of the column of a node of the source. *)
Definition placed (source : t) (key : Sequence.t -> node_type) (seq : Sequence.t) : Prop :=
  exists r,
    record source (key seq) = Some r /\ 0 <= key seq < sigma source /\ walkable r
    /\ 0 <= Sequence.pos seq < DynamicRecord.body_total r.

(** The state of a walk over the body of a record: the runs passed, the run
    under the iterator and the runs to come make up the body, [offset] is
    the number of positions up to the end of the run under the iterator,
    and, when the walk counts, the offset of each edge in [result] has
    grown by the symbols of its rank up to there (a sum of [size_type]). *)
Definition walking (counting : bool) (r : DynamicRecord.t) (before : list run_type)
    (run : run_type) (rest : list run_type) (offset : size_type) (result : list edge_type)
  : Prop :=
  DynamicRecord.body r = before ++ run :: rest
  /\ offset = run_lengths before + run.2
  /\ (counting = true ->
      length result = length (DynamicRecord.outgoing r)
      /\ forall k e, DynamicRecord.outgoing r !! k = Some e ->
           exists v,
             result !! k = Some (e.1, v)
             /\ wrap64 v = wrap64 (e.2 + count_rank (before ++ [run]) (Z.of_nat k))).

(** The state that [nextPosition] and [advancePosition] keep between two
    sequences is such a walk over the record of its node. *)
Definition walk_ok (counting : bool) (source : t) (w : option walk) : Prop :=
  match w with
  | None => True
  | Some w' =>
      exists before,
        record source (w_node w') = Some (w_record w')
        /\ walking counting (w_record w') before (w_run w') (w_rest w') (w_offset w')
                   (w_result w')
  end.

(** ** Notions for the incoming edges that load rebuilds *)

(** For each outgoing edge of a record the number of its symbols in the
    body, as a value of [size_type]. *)
Definition rank_counts (r : DynamicRecord.t) : list size_type :=
  (fun k => wrap64 (count_rank (DynamicRecord.body r) k))
    <$> seqZ 0 (DynamicRecord.outdegree r).

(** The incoming edges that the record at compacted index [comp] hands to
    the record at compacted index [v]: one for each of [edges], an outgoing
    edge with its count, that leads to the node of [v] and not to the
    endmarker, with [comp] as the predecessor. *)
Definition given_to (g : t) (v : nat) (comp : Z) (edges : list (edge_type * size_type))
  : list edge_type :=
  (fun p : edge_type * size_type => (comp, p.2))
    <$> filter (fun p : edge_type * size_type =>
                  p.1.1 <> ENDMARKER /\ toComp g p.1.1 = Z.of_nat v) edges.

Definition given_by (g : t) (v : nat) (comp : Z) (r : DynamicRecord.t) : list edge_type :=
  given_to g v comp (zip (DynamicRecord.outgoing r) (rank_counts r)).

(** The incoming edges of the record at compacted index [v] as the bodies
    of the records of an index give them, the records taken in the order
    of their compacted indices and the edges of a record in the order of
    their ranks. *)
Definition rebuilt_incoming (g : t) (v : nat) : list edge_type :=
  concat (imap (fun comp r => given_by g v (Z.of_nat comp) r) (bwt g)).

(** ** Notions for the column that an insertion rewrites *)

(** The symbols of a body: each run spelt out, rank by rank. *)
Definition expand (b : list run_type) : list rank_type :=
  concat ((fun run : run_type => replicate (Z.to_nat run.2) run.1) <$> b).

(** The symbols a builder holds, the pending run last. *)
Definition built (m : RunMerger.t) : list rank_type :=
  expand (RunMerger.runs m ++ [RunMerger.accumulator m]).

(** The column while a record is rewritten: the symbols of the new body
    and those of the old runs still to come. *)
Definition column (sp : splice) : list rank_type :=
  built (sp_new_body sp) ++ expand (sp_iter sp).

(** The number of symbols of a rank in a column. *)
Definition occurrences (k : rank_type) (l : list rank_type) : Z :=
  vsize (filter (fun x => x = k) l).

(** A builder that is what its symbols say: the size is their number, each
    count is the number of symbols of its rank, and every symbol has a
    count. *)
Definition merger_ok (m : RunMerger.t) : Prop :=
  RunMerger.total_size m = vsize (built m)
  /\ 0 <= (RunMerger.accumulator m).2
  /\ Forall (fun run : run_type => 0 <= run.2) (RunMerger.runs m)
  /\ (forall k c, RunMerger.counts m !! k = Some c -> c = occurrences (Z.of_nat k) (built m))
  /\ Forall (fun x => 0 <= x < vsize (RunMerger.counts m)) (built m).

(** Runs that a builder with [n] counts can take. *)
Definition takable (n : Z) (iter : list run_type) : Prop :=
  Forall (fun run : run_type => 0 <= run.1 < n /\ 0 <= run.2) iter.

(** The state of the rewriting of a record that the loop keeps: the builder
    is what its symbols say, it has a count for each outgoing edge of the
    record, and the old runs still to come name outgoing edges. *)
Definition splice_ok (g : t) (sp : splice) : Prop :=
  exists current,
    record g (sp_curr sp) = Some current
    /\ vsize (RunMerger.counts (sp_new_body sp)) = DynamicRecord.outdegree current
    /\ merger_ok (sp_new_body sp)
    /\ takable (DynamicRecord.outdegree current) (sp_iter sp).

(** * Properties *)

(** ** Arithmetic of [wrap64] and of vectors *)

Lemma wrap64_small x : u64 x -> wrap64 x = x.
Proof. intros Hx. apply Z.mod_small. exact Hx. Qed.

Lemma wrap64_u64 x : u64 (wrap64 x).
Proof. apply Z.mod_pos_bound. lia. Qed.

Lemma wrap64_add_l a b : wrap64 (wrap64 a + b) = wrap64 (a + b).
Proof. unfold wrap64. apply Zplus_mod_idemp_l. Qed.

Lemma wrap64_add_r a b : wrap64 (a + wrap64 b) = wrap64 (a + b).
Proof. unfold wrap64. apply Zplus_mod_idemp_r. Qed.

Lemma wrap64_idem a : wrap64 (wrap64 a) = wrap64 a.
Proof. unfold wrap64. apply Zmod_mod. Qed.

Lemma at_index_Some {A} (v : list A) i x :
  at_index v i = Some x <-> 0 <= i /\ v !! Z.to_nat i = Some x.
Proof.
  unfold at_index. destruct (Z.leb_spec 0 i); split; try tauto; try lia.
  discriminate.
Qed.

Lemma at_index_lt {A} (v : list A) i x : at_index v i = Some x -> 0 <= i < vsize v.
Proof.
  intros [Hi Hl]%at_index_Some. apply lookup_lt_Some in Hl. unfold vsize. lia.
Qed.

Lemma at_index_is_Some {A} (v : list A) i : 0 <= i < vsize v -> is_Some (at_index v i).
Proof.
  intros Hi. unfold at_index. destruct (Z.leb_spec 0 i); [|lia].
  apply lookup_lt_is_Some. unfold vsize in Hi. lia.
Qed.

Lemma set_index_Some {A} (v : list A) i x v' :
  set_index v i x = Some v' <-> (0 <= i < vsize v /\ v' = <[Z.to_nat i := x]> v).
Proof.
  unfold set_index.
  destruct (Z.leb_spec 0 i), (Z.ltb_spec i (vsize v)); simpl; split;
    try (intros [? ?]; lia); try discriminate.
  - intros [= <-]. split; [lia | reflexivity].
  - intros [_ ->]. reflexivity.
Qed.

Lemma set_index_length {A} (v : list A) i x v' :
  set_index v i x = Some v' -> vsize v' = vsize v.
Proof. intros [_ ->]%set_index_Some. unfold vsize. now rewrite length_insert. Qed.

(** ** resize *)

Lemma resize_unfold g new_offset new_sigma :
  resize g new_offset new_sigma =
  let o := settled_offset g new_offset new_sigma in
  let s := settled_sigma g new_sigma in
  if (0 <? o) && (s <=? o) then Exit (CannotSetOffset o s) g
  else if negb (o =? GBWTHeader.offset (header g)) || negb (s =? sigma g) then
    if vsize (bwt g) <? effective g then Undefined
    else
      let new_bwt := replicate (Z.to_nat (wrap64 (s - o))) DynamicRecord.empty in
      match take (Z.to_nat (effective g)) (bwt g) with
      | [] => Ok (mk (GBWTHeader.set_alphabet (header g) o s) new_bwt)
      | endmarker :: others =>
          do with_endmarker <- defined (set_index new_bwt 0 endmarker);
          do moved <- defined (relocate others 1 (GBWTHeader.offset (header g)) o
                                        with_endmarker);
          Ok (mk (GBWTHeader.set_alphabet (header g) o s) moved)
      end
  else Ok g.
Proof.
  unfold resize, settled_offset, settled_sigma.
  replace (if new_sigma <? sigma g then sigma g else new_sigma)
    with (Z.max (sigma g) new_sigma); [reflexivity |].
  destruct (Z.ltb_spec new_sigma (sigma g)); lia.
Qed.

Lemma relocate_spec records : forall comp old_offset new_offset new_bwt,
  0 <= comp -> 0 <= new_offset <= old_offset ->
  comp + old_offset + vsize records <= 2 ^ 64 ->
  comp + old_offset - new_offset + vsize records <= vsize new_bwt ->
  exists moved,
    relocate records comp old_offset new_offset new_bwt = Some moved
    /\ vsize moved = vsize new_bwt
    /\ (forall k current, records !! k = Some current ->
          at_index moved (comp + Z.of_nat k + old_offset - new_offset) = Some current)
    /\ (forall j, 0 <= j < comp + old_offset - new_offset ->
          at_index moved j = at_index new_bwt j).
Proof.
  induction records as [|current rest IH]; intros comp oo no nb Hc Hno Hmax Hfit.
  - exists nb. simpl. repeat split; try done.
  - unfold vsize in Hmax, Hfit. simpl length in Hmax, Hfit.
    assert (Hw : wrap64 (wrap64 (comp + oo) - no) = comp + oo - no).
    { rewrite (wrap64_small (comp + oo)) by (unfold u64; lia).
      apply wrap64_small. unfold u64. lia. }
    simpl. rewrite Hw.
    destruct (set_index nb (comp + oo - no) current) as [nb1|] eqn:Hset.
    2:{ exfalso. unfold set_index in Hset.
        destruct (Z.leb_spec 0 (comp + oo - no)), (Z.ltb_spec (comp + oo - no) (vsize nb));
          simpl in Hset; try discriminate; unfold vsize in *; lia. }
    simpl. apply set_index_Some in Hset as [Hin ->].
    destruct (IH (comp + 1) oo no (<[Z.to_nat (comp + oo - no) := current]> nb))
      as (moved & Hrel & Hlen & Hget & Hkeep).
    + lia.
    + lia.
    + unfold vsize. lia.
    + unfold vsize. rewrite length_insert. lia.
    + exists moved. split; [exact Hrel |]. split.
      { rewrite Hlen. unfold vsize. now rewrite length_insert. }
      split.
      * intros [|k] cur Hk.
        -- simpl in Hk. injection Hk as <-.
           rewrite Hkeep by lia. apply at_index_Some. split; [lia |].
           replace (comp + Z.of_nat 0 + oo - no) with (comp + oo - no) by lia.
           apply list_lookup_insert_eq. unfold vsize in Hin. lia.
        -- simpl in Hk. specialize (Hget k cur Hk).
           replace (comp + Z.of_nat (S k) + oo - no)
             with (comp + 1 + Z.of_nat k + oo - no) by lia.
           exact Hget.
      * intros j Hj. rewrite Hkeep by lia. unfold at_index.
        destruct (Z.leb_spec 0 j); [|reflexivity].
        apply list_lookup_insert_ne. lia.
Qed.

Lemma index_3_5_built : insert 4 empty_index [3; 5; 0] = Ok index_3_5.
Proof. vm_compute. reflexivity. Qed.

Lemma resize_fatal_only_settled g new_offset new_sigma :
  fails_fatally (resize g new_offset new_sigma) ->
  0 < settled_offset g new_offset new_sigma
  /\ settled_sigma g new_sigma <= settled_offset g new_offset new_sigma.
Proof.
  rewrite resize_unfold. cbv zeta.
  destruct (Z.ltb_spec 0 (settled_offset g new_offset new_sigma));
    destruct (Z.leb_spec (settled_sigma g new_sigma) (settled_offset g new_offset new_sigma));
    simpl; try (intros _; lia).
  all: intros (d & s & Hex); exfalso; revert Hex.
  all: destruct (negb _ || negb _); try discriminate.
  all: destruct (vsize (bwt g) <? effective g); try discriminate.
  all: destruct (take _ _) as [|e others]; try discriminate.
  all: destruct (set_index _ 0 e) as [w|]; simpl; try discriminate.
  all: destruct (relocate _ _ _ _ _); simpl; discriminate.
Qed.

Lemma resize_rejects_settled_offset_aux g new_offset new_sigma :
  0 < settled_offset g new_offset new_sigma ->
  settled_sigma g new_sigma <= settled_offset g new_offset new_sigma ->
  resize g new_offset new_sigma =
    Exit (CannotSetOffset (settled_offset g new_offset new_sigma)
                          (settled_sigma g new_sigma)) g.
Proof.
  intros Hpos Hle. rewrite resize_unfold. cbv zeta.
  destruct (Z.ltb_spec 0 (settled_offset g new_offset new_sigma)); [|lia].
  destruct (Z.leb_spec (settled_sigma g new_sigma) (settled_offset g new_offset new_sigma));
    [reflexivity | lia].
Qed.

Lemma consistent_effective g :
  consistent g ->
  effective g = GBWTHeader.alphabet_size (header g) - GBWTHeader.offset (header g).
Proof.
  intros (Ho & Hs & _). unfold effective. apply wrap64_small. unfold u64. lia.
Qed.

(** ** Outcomes *)

Lemma defined_not_exit {A} (o : option A) d s : defined o <> Exit d s.
Proof. destruct o; discriminate. Qed.

Lemma bind_Ok {A B} (m : outcome A) (k : A -> outcome B) b :
  bind m k = Ok b -> exists a, m = Ok a /\ k a = Ok b.
Proof. destruct m; simpl; try discriminate. eauto. Qed.

Lemma bind_Exit {A B} (m : outcome A) (k : A -> outcome B) d s :
  bind m k = Exit d s -> m = Exit d s \/ exists a, m = Ok a /\ k a = Exit d s.
Proof. destruct m; simpl; try discriminate; eauto. intros [= -> ->]. auto. Qed.

Lemma defined_Ok {A} (o : option A) a : defined o = Ok a -> o = Some a.
Proof. destruct o; simpl; congruence. Qed.

Lemma recode_not_exit g d s : recode g <> Exit d s.
Proof. unfold recode. destruct (_ <? _); discriminate. Qed.

Lemma resize_exit_diagnostic g new_offset new_sigma d s :
  resize g new_offset new_sigma = Exit d s ->
  d = CannotSetOffset (settled_offset g new_offset new_sigma) (settled_sigma g new_sigma)
  /\ s = g.
Proof.
  intros H.
  destruct (resize_fatal_only_settled g new_offset new_sigma) as [H1 H2].
  { eexists _, _. exact H. }
  rewrite resize_rejects_settled_offset_aux in H by assumption.
  injection H as <- <-. auto.
Qed.

Ltac exit_cases H :=
  repeat match type of H with
  | bind (defined _) _ = Exit _ _ =>
      apply bind_Exit in H as [H | (? & _ & H)];
      [exfalso; exact (defined_not_exit _ _ _ H) |]
  | (let '(_, _) := ?p in _) = Exit _ _ => destruct p
  | match ?l with [] => _ | _ :: _ => _ end = Exit _ _ => destruct l; [discriminate H |]
  end.

Lemma batch_round_not_exit {Src} `{Source Src} g seqs (source : Src) d s :
  batch_round g seqs source <> Exit d s.
Proof.
  intros Hex. unfold batch_round in Hex. exit_cases Hex. discriminate.
Qed.

Lemma insert_batch_not_exit {Src} `{Source Src} fuel : forall iterations g seqs (source : Src) d s,
  insert_batch fuel iterations g seqs source <> Exit d s.
Proof.
  induction fuel as [|fuel IH]; intros iterations g seqs source d s Hex.
  - discriminate.
  - cbn [insert_batch] in Hex.
    apply bind_Exit in Hex as [Hex | ([g' [seqs'|]] & _ & Hex)].
    + exact (batch_round_not_exit _ _ _ _ _ Hex).
    + exact (IH _ _ _ _ _ _ Hex).
    + discriminate.
Qed.

Lemma merge_batches_not_exit fuel : forall g source batch_size endmarker iter ro so d s,
  merge_batches fuel g source batch_size endmarker iter ro so <> Exit d s.
Proof.
  induction fuel as [|fuel IH]; intros g source bs em iter ro so d s Hex;
    cbn [merge_batches] in Hex; destruct (so <? sequences source); try discriminate.
  apply bind_Exit in Hex as [Hex | ([[[[g1 it] ro'] so'] seqs] & _ & Hex)].
  { exact (defined_not_exit _ _ _ Hex). }
  apply bind_Exit in Hex as [Hex | ([n g2] & _ & Hex)].
  { exact (insert_batch_not_exit _ _ _ _ _ _ _ Hex). }
  exact (IH _ _ _ _ _ _ _ _ _ Hex).
Qed.

(** ** compare *)

Lemma DynamicRecord_equal_refl r : DynamicRecord.equal r r = true.
Proof. unfold DynamicRecord.equal. apply bool_decide_eq_true. reflexivity. Qed.

Lemma compare_records_refl n : forall a, (n <= length a)%nat -> compare_records n a a = Ok true.
Proof.
  induction n as [|n IH]; intros a Hn; [reflexivity |].
  destruct a as [|x a]; simpl in Hn; [lia |].
  simpl. rewrite DynamicRecord_equal_refl. apply IH. lia.
Qed.

Lemma compare_refl g : effective g <= vsize (bwt g) -> compare g g = Ok true.
Proof.
  intros Hn. unfold compare, GBWTHeader.equal.
  rewrite bool_decide_eq_true_2 by reflexivity. simpl.
  apply compare_records_refl. unfold vsize in Hn. lia.
Qed.

Lemma compare_true g another :
  compare g another = Ok true ->
  header g = header another
  /\ take (Z.to_nat (effective g)) (bwt g) = take (Z.to_nat (effective g)) (bwt another).
Proof.
  unfold compare, GBWTHeader.equal. intros H.
  destruct (bool_decide_reflect (header g = header another)) as [Hh|Hh];
    simpl in H; [|discriminate].
  split; [exact Hh |].
  revert H. generalize (Z.to_nat (effective g)) as n, (bwt g) as a, (bwt another) as b.
  induction n as [|n IH]; intros a b H; [reflexivity |].
  destruct a as [|x a], b as [|y b]; simpl in H; try discriminate.
  unfold DynamicRecord.equal in H.
  destruct (bool_decide_reflect (x = y)) as [->|Hxy]; [|discriminate].
  simpl. f_equal. apply IH. exact H.
Qed.

(** ** Linear searches *)

Lemma first_index_range {A} (p : A -> bool) l : 0 <= first_index p l <= vsize l.
Proof.
  unfold vsize. induction l as [|x l IH]; simpl; [lia |].
  destruct (p x); lia.
Qed.

Lemma first_index_found {A} (p : A -> bool) l :
  first_index p l < vsize l ->
  exists x, at_index l (first_index p l) = Some x /\ p x = true.
Proof.
  unfold vsize. induction l as [|x l IH]; simpl; [lia |].
  destruct (p x) eqn:Hp.
  - intros _. exists x. split; [reflexivity | exact Hp].
  - intros Hlt. destruct IH as (y & Hy & Hpy); [lia |].
    exists y. split; [|exact Hpy].
    apply at_index_Some in Hy as [H0 Hy]. apply at_index_Some.
    split; [lia |].
    replace (Z.to_nat (1 + first_index p l)) with (S (Z.to_nat (first_index p l))) by lia.
    exact Hy.
Qed.


Lemma first_index_none {A} (p : A -> bool) l :
  vsize l <= first_index p l -> forall x, x ∈ l -> p x = false.
Proof.
  unfold vsize. induction l as [|y l IH]; intros Hge x Hx.
  - inversion Hx.
  - simpl in Hge. destruct (p y) eqn:Hp; [simpl in Hge; lia |].
    apply elem_of_cons in Hx as [-> | Hx]; [exact Hp |].
    apply IH; [simpl in Hge; lia | exact Hx].
Qed.

Lemma first_index_some {A} (p : A -> bool) l x :
  x ∈ l -> p x = true -> first_index p l < vsize l.
Proof.
  intros Hx Hp. pose proof (first_index_range p l).
  destruct (Z.lt_ge_cases (first_index p l) (vsize l)) as [|Hge]; [assumption |].
  rewrite (first_index_none p l Hge x Hx) in Hp. discriminate.
Qed.



(** ** Sums *)

Lemma sumZ_app l l' : sumZ (l ++ l') = sumZ l + sumZ l'.
Proof. induction l as [|x l IH]; simpl; lia. Qed.

Lemma sumZ_insert (l : list Z) k x y :
  l !! k = Some x -> sumZ (<[k := y]> l) = sumZ l - x + y.
Proof.
  revert k. induction l as [|z l IH]; intros [|k] Hk; simpl in *; try discriminate.
  - injection Hk as ->. lia.
  - rewrite (IH k Hk). lia.
Qed.

Lemma sumZ_replicate_zero n : sumZ (replicate n 0) = 0.
Proof. induction n; simpl; lia. Qed.

Lemma wrap64_sum_wrapped (l : list Z) : wrap64 (sumZ (wrap64 <$> l)) = wrap64 (sumZ l).
Proof.
  induction l as [|x l IH]; [reflexivity |].
  rewrite fmap_cons. cbn [sumZ].
  rewrite wrap64_add_l, <- wrap64_add_r, IH, wrap64_add_r. reflexivity.
Qed.

Lemma wrap64_eq_add a b c : wrap64 a = wrap64 b -> wrap64 (a + c) = wrap64 (b + c).
Proof. intros H. rewrite <- wrap64_add_l, H, wrap64_add_l. reflexivity. Qed.

(** ** RunMerger *)

Lemma flush_merged m : merged (RunMerger.flush m) = merged m.
Proof.
  unfold merged, RunMerger.flush.
  destruct (Z.eqb_spec (RunMerger.accumulator m).2 0); [reflexivity |].
  simpl. rewrite fmap_app, sumZ_app. simpl. lia.
Qed.

Lemma flush_total m : RunMerger.total_size (RunMerger.flush m) = RunMerger.total_size m.
Proof. unfold RunMerger.flush. destruct (_ =? _); reflexivity. Qed.

Lemma flush_pending m : (RunMerger.accumulator (RunMerger.flush m)).2 = 0.
Proof.
  unfold RunMerger.flush.
  destruct (Z.eqb_spec (RunMerger.accumulator m).2 0); [assumption | reflexivity].
Qed.

Lemma flush_runs m : sumZ (snd <$> RunMerger.runs (RunMerger.flush m)) = merged m.
Proof.
  rewrite <- (flush_merged m). unfold merged. rewrite flush_pending. lia.
Qed.

Lemma insert_merged m run m' :
  RunMerger.insert m run = Some m' ->
  wrap64 (merged m') = wrap64 (merged m + run.2)
  /\ RunMerger.total_size m' = wrap64 (RunMerger.total_size m + run.2).
Proof.
  unfold RunMerger.insert. intros H.
  destruct (at_index (RunMerger.counts m) run.1) as [c|]; simpl in H; [|discriminate].
  destruct (set_index (RunMerger.counts m) run.1 _) as [counts'|]; simpl in H;
    [|discriminate].
  destruct (run.1 =? (RunMerger.accumulator m).1); injection H as <-.
  - unfold merged. simpl. split; [|reflexivity].
    rewrite wrap64_add_r. f_equal. lia.
  - split.
    + unfold merged at 1. simpl.
      set (m1 := RunMerger.mk _ _ _ _).
      rewrite (flush_runs m1). unfold merged, m1. simpl. reflexivity.
    + simpl. rewrite flush_total. reflexivity.
Qed.

Lemma insert_keeps_total m run m' :
  RunMerger.insert m run = Some m' ->
  RunMerger.total_size m = wrap64 (merged m) ->
  RunMerger.total_size m' = wrap64 (merged m').
Proof.
  intros H Hm. destruct (insert_merged _ _ _ H) as [H1 H2].
  rewrite H1, H2, Hm. apply wrap64_add_l.
Qed.

(** Equalities modulo 2^64 by linear arithmetic. *)
Ltac wrap_lia :=
  unfold wrap64 in *;
  change (2 ^ 64) with 18446744073709551616 in *;
  Z.div_mod_to_equations; lia.

Lemma run_lengths_cons (run : Z * Z) rest :
  run_lengths (run :: rest) = run.2 + run_lengths rest.
Proof. reflexivity. Qed.

Lemma pull_merged iter : forall new_body offset iter' new_body',
  pull iter new_body offset = Some (iter', new_body') ->
  RunMerger.total_size new_body = wrap64 (merged new_body) ->
  RunMerger.total_size new_body' = wrap64 (merged new_body')
  /\ wrap64 (merged new_body' + run_lengths iter')
     = wrap64 (merged new_body + run_lengths iter).
Proof.
  induction iter as [|run rest IH]; intros nb offset iter' nb' Hpull Hok;
    cbn [pull] in Hpull.
  - destruct (_ <? _); [discriminate |]. injection Hpull as <- <-. auto.
  - destruct (RunMerger.size nb <? offset).
    2:{ injection Hpull as <- <-. auto. }
    destruct (run.2 <=? wrap64 (offset - RunMerger.size nb)).
    + destruct (RunMerger.insert nb run) as [nb1|] eqn:Hins; simpl in Hpull;
        [|discriminate].
      destruct (IH _ _ _ _ Hpull (insert_keeps_total _ _ _ Hins Hok)) as [H1 H2].
      split; [exact H1 |].
      destruct (insert_merged _ _ _ Hins) as [H3 _].
      rewrite run_lengths_cons. wrap_lia.
    + destruct (RunMerger.insert nb _) as [nb1|] eqn:Hins; simpl in Hpull;
        [|discriminate].
      injection Hpull as <- <-.
      split; [exact (insert_keeps_total _ _ _ Hins Hok) |].
      destruct (insert_merged _ _ _ Hins) as [H3 _]. simpl in H3.
      rewrite !run_lengths_cons. simpl. wrap_lia.
Qed.

Lemma pull_rest_merged iter : forall new_body new_body',
  pull_rest iter new_body = Some new_body' ->
  RunMerger.total_size new_body = wrap64 (merged new_body) ->
  RunMerger.total_size new_body' = wrap64 (merged new_body')
  /\ wrap64 (merged new_body') = wrap64 (merged new_body + run_lengths iter).
Proof.
  induction iter as [|run rest IH]; intros nb nb' Hpull Hok; cbn [pull_rest] in Hpull.
  - injection Hpull as <-. split; [exact Hok |]. unfold run_lengths. simpl. f_equal. lia.
  - destruct (RunMerger.insert nb run) as [nb1|] eqn:Hins; simpl in Hpull; [|discriminate].
    destruct (IH _ _ Hpull (insert_keeps_total _ _ _ Hins Hok)) as [H1 H2].
    split; [exact H1 |].
    destruct (insert_merged _ _ _ Hins) as [H3 _].
    rewrite run_lengths_cons. wrap_lia.
Qed.

(** ** Records of an index *)

Lemma record_Some g node r :
  record g node = Some r ->
  0 <= toComp g node /\ bwt g !! Z.to_nat (toComp g node) = Some r.
Proof. unfold record. apply at_index_Some. Qed.

Lemma set_record_Some g node r g' :
  set_record g node r = Some g' ->
  0 <= toComp g node < vsize (bwt g)
  /\ g' = mk (header g) (<[Z.to_nat (toComp g node) := r]> (bwt g)).
Proof.
  unfold set_record. intros H.
  apply bind_Some in H as (bwt' & Hset & H). injection H as <-.
  apply set_index_Some in Hset as [Hin ->]. auto.
Qed.

Lemma toComp_header g g' node : header g' = header g -> toComp g' node = toComp g node.
Proof. unfold toComp. intros ->. reflexivity. Qed.

Lemma record_header_bwt g g' node :
  header g' = header g -> bwt g' = bwt g -> record g' node = record g node.
Proof. unfold record, toComp. intros -> ->. reflexivity. Qed.

Lemma bodies_lookup g k r :
  bwt g !! k = Some r ->
  bodies g !! k = Some (DynamicRecord.body_size r, DynamicRecord.body r).
Proof. intros H. unfold bodies. rewrite list_lookup_fmap, H. reflexivity. Qed.

Lemma set_record_bodies g node r g' :
  set_record g node r = Some g' ->
  header g' = header g
  /\ bodies g' = <[Z.to_nat (toComp g node) :=
                    (DynamicRecord.body_size r, DynamicRecord.body r)]> (bodies g).
Proof.
  intros [_ ->]%set_record_Some. split; [reflexivity |].
  unfold bodies. simpl.
  apply (list_fmap_insert (fun r => (DynamicRecord.body_size r, DynamicRecord.body r))).
Qed.

Lemma set_record_same_body g node old r g' :
  record g node = Some old ->
  set_record g node r = Some g' ->
  DynamicRecord.body_size r = DynamicRecord.body_size old ->
  DynamicRecord.body r = DynamicRecord.body old ->
  header g' = header g /\ bodies g' = bodies g.
Proof.
  intros [_ Hold]%record_Some Hset Hs Hb.
  apply set_record_bodies in Hset as [Hh ->]. split; [exact Hh |].
  apply list_insert_id. rewrite Hs, Hb. apply bodies_lookup, Hold.
Qed.

Lemma bodies_length g g' : bodies g' = bodies g -> length (bwt g') = length (bwt g).
Proof.
  intros H. apply (f_equal length) in H. unfold bodies in H.
  now rewrite !length_fmap in H.
Qed.

Lemma set_record_length g node r g' :
  set_record g node r = Some g' -> length (bwt g') = length (bwt g).
Proof. intros [_ ->]%set_record_Some. simpl. apply length_insert. Qed.

Lemma symbols_insert l k old p :
  l !! k = Some old ->
  symbols (<[k := p]> l) = symbols l - run_lengths old.2 + run_lengths p.2.
Proof.
  intros Hk. unfold symbols. rewrite list_fmap_insert.
  apply (sumZ_insert _ k (run_lengths old.2)).
  rewrite list_lookup_fmap, Hk. reflexivity.
Qed.

(** ** The splice sweep keeps the count of symbols *)

Lemma splice_open_splicing g curr sp total :
  splice_open g curr = Some sp ->
  spliced g None total ->
  splicing g sp total /\ sp_curr sp = curr.
Proof.
  unfold splice_open. intros H [Hsized Htotal].
  apply bind_Some in H as (current & Hrec & H). injection H as <-.
  split; [|reflexivity].
  apply record_Some in Hrec as [H0 Hrec].
  exists (DynamicRecord.body_size current, DynamicRecord.body current). simpl.
  split; [exact H0 |]. split; [apply bodies_lookup, Hrec |]. split.
  - intros j p Hj _. exact (proj1 (Forall_lookup _ _) Hsized j p Hj).
  - split; [reflexivity |].
    rewrite <- Htotal. f_equal. unfold merged. simpl. lia.
Qed.

Lemma splice_close_spliced g sp total g' :
  splice_close g sp = Some g' ->
  spliced g sp total ->
  spliced g' None total /\ header g' = header g /\ length (bwt g') = length (bwt g).
Proof.
  destruct sp as [sp|]; simpl.
  2:{ intros [= <-] H. auto. }
  intros H (old & H0 & Hold & Hothers & Hok & Htotal).
  apply bind_Some in H as (nb & Hpull & H).
  apply bind_Some in H as (current & Hrec & H).
  pose proof (set_record_length _ _ _ _ H) as Hlen.
  apply set_record_bodies in H as [Hh Hb].
  destruct (pull_rest_merged _ _ _ Hpull Hok) as [Hok' Hsum].
  split; [|split; [exact Hh | exact Hlen]]. rewrite Hb. simpl. split.
  - apply Forall_lookup. intros j p Hj.
    destruct (decide (j = Z.to_nat (toComp g (sp_curr sp)))) as [->|Hne].
    + rewrite list_lookup_insert_eq in Hj by (eapply lookup_lt_Some; exact Hold).
      injection Hj as <-. unfold sized. simpl.
      rewrite flush_total, Hok'. f_equal. unfold run_lengths. apply eq_sym, flush_runs.
    + rewrite list_lookup_insert_ne in Hj by congruence. exact (Hothers j p Hj Hne).
  - rewrite (symbols_insert _ _ old) by exact Hold. simpl.
    unfold run_lengths at 2. rewrite flush_runs. rewrite <- Htotal. wrap_lia.
Qed.

Lemma splice_step_splicing g sp seq g' sp' seq' total :
  splice_step g sp seq = Some (g', sp', seq') ->
  splicing g sp total ->
  splicing g' sp' (total + 1) /\ header g' = header g /\ sp_curr sp' = sp_curr sp
  /\ length (bwt g') = length (bwt g).
Proof.
  unfold splice_step. intros H (old & H0 & Hold & Hothers & Hok & Htotal).
  apply bind_Some in H as (current & Hrec & H).
  apply bind_Some in H as ([g1 nb1] & Hedge & H).
  apply bind_Some in H as ([iter nb2] & Hpull & H).
  apply bind_Some in H as (rank & _ & H).
  apply bind_Some in H as (nb3 & Hins & H).
  apply bind_Some in H as (g2 & Hinc & H).
  injection H as <- <- <-.
  assert (Hg1 : header g1 = header g /\ bodies g1 = bodies g
                /\ RunMerger.total_size nb1 = wrap64 (merged nb1)
                /\ merged nb1 = merged (sp_new_body sp)).
  { destruct (_ <=? _).
    - apply bind_Some in Hedge as (g0 & Hset & Hedge). injection Hedge as <- <-.
      destruct (set_record_same_body _ _ _ _ _ Hrec Hset eq_refl eq_refl) as [? ?].
      repeat split; assumption.
    - injection Hedge as <- <-. repeat split; assumption. }
  destruct Hg1 as (Hh1 & Hb1 & Hok1 & Hm1).
  assert (Hg2 : header g2 = header g /\ bodies g2 = bodies g).
  { destruct (negb _).
    - apply bind_Some in Hinc as (next_node & Hnext & Hset).
      destruct (set_record_same_body _ _ _ _ _ Hnext Hset eq_refl eq_refl) as [? ?].
      split; congruence.
    - injection Hinc as <-. auto. }
  destruct Hg2 as [Hh2 Hb2].
  destruct (pull_merged _ _ _ _ _ Hpull Hok1) as [Hok2 Hsum2].
  unfold RunMerger.insert_rank in Hins.
  destruct (insert_merged _ _ _ Hins) as [Hsum3 _]. simpl in Hsum3.
  pose proof (insert_keeps_total _ _ _ Hins Hok2) as Hok3.
  split; [|split; [exact Hh2 | split; [reflexivity | exact (bodies_length _ _ Hb2)]]].
  exists old. simpl. rewrite (toComp_header _ _ _ Hh2), Hb2.
  split; [exact H0 |]. split; [exact Hold |]. split; [exact Hothers |].
  split; [exact Hok3 |].
  rewrite Hm1 in Hsum2. wrap_lia.
Qed.

Lemma splice_all_spliced seqs : forall g sp total g' seqs',
  splice_all g sp seqs = Some (g', seqs') ->
  spliced g sp total ->
  spliced g' None (total + vsize seqs)
  /\ header g' = header g /\ length seqs' = length seqs
  /\ length (bwt g') = length (bwt g).
Proof.
  unfold vsize.
  induction seqs as [|seq rest IH]; intros g sp total g' seqs' H Hsp; cbn [splice_all] in H.
  - apply bind_Some in H as (g1 & Hclose & H). injection H as <- <-.
    destruct (splice_close_spliced _ _ _ _ Hclose Hsp) as (H1 & H2 & H3).
    replace (total + Z.of_nat (length (@nil Sequence.t))) with total by (simpl; lia). auto.
  - apply bind_Some in H as ([g1 sp1] & Hopen & H).
    apply bind_Some in H as ([[g2 sp2] seq'] & Hstep & H).
    apply bind_Some in H as ([g3 rest'] & Hall & H). injection H as <- <-.
    assert (H1 : splicing g1 sp1 total /\ header g1 = header g
                 /\ length (bwt g1) = length (bwt g)).
    { destruct sp as [sp0|].
      - destruct (sp_curr sp0 =? Sequence.curr seq).
        + injection Hopen as <- <-. auto.
        + apply bind_Some in Hopen as (g0 & Hclose & Hopen).
          apply bind_Some in Hopen as (sp0' & Hopen' & Hopen). injection Hopen as <- <-.
          destruct (splice_close_spliced _ _ _ _ Hclose Hsp) as (Hc & Hh & Hl).
          split; [|split; [exact Hh | exact Hl]].
          exact (proj1 (splice_open_splicing _ _ _ _ Hopen' Hc)).
      - apply bind_Some in Hopen as (sp0' & Hopen' & Hopen). injection Hopen as <- <-.
        split; [|split; reflexivity].
        exact (proj1 (splice_open_splicing _ _ _ _ Hopen' Hsp)). }
    destruct H1 as (H1 & Hh1 & Hl1).
    destruct (splice_step_splicing _ _ _ _ _ _ _ Hstep H1) as (H2 & Hh2 & _ & Hl2).
    destruct (IH _ _ _ _ _ Hall H2) as (H3 & Hh3 & Hlen & Hl3).
    split; [|split; [|split]]; [| | |congruence].
    + replace (total + Z.of_nat (length (seq :: rest)))
        with (total + 1 + Z.of_nat (length rest)) by (simpl length; lia).
      exact H3.
    + congruence.
    + simpl. congruence.
Qed.

Lemma symbols_bodies g :
  symbols (bodies g) = sumZ (DynamicRecord.body_total <$> bwt g).
Proof.
  unfold symbols, bodies. rewrite <- list_fmap_compose. reflexivity.
Qed.

Lemma I7_counted g : I7 g <-> counted g.
Proof.
  unfold I7, counted. rewrite symbols_bodies.
  assert (Hs : Forall sized (bodies g)
               <-> Forall (fun r => DynamicRecord.body_size r
                                    = wrap64 (DynamicRecord.body_total r)) (bwt g)).
  { unfold bodies. rewrite Forall_fmap. reflexivity. }
  rewrite Hs. split.
  - intros (H1 & _ & H3). auto.
  - intros [H1 H3]. split; [exact H1 |]. split; [|exact H3].
    rewrite H3. rewrite <- wrap64_sum_wrapped. f_equal. f_equal.
    rewrite <- list_fmap_compose.
    apply Forall_fmap_ext. eapply Forall_impl; [exact H1 |].
    intros r Hr. simpl. symmetry. exact Hr.
Qed.

Lemma same_frame_refl g : same_frame g g.
Proof. split; reflexivity. Qed.

Lemma same_frame_trans g1 g2 g3 : same_frame g1 g2 -> same_frame g2 g3 -> same_frame g1 g3.
Proof. intros [H1 H2] [H3 H4]. split; congruence. Qed.

Lemma same_frame_header g g' :
  header g' = header g -> length (bwt g') = length (bwt g) -> same_frame g g'.
Proof. intros H1 H2. split; [rewrite H1; reflexivity | exact H2]. Qed.

Lemma same_frame_consistent g g' : same_frame g g' -> consistent g -> consistent g'.
Proof.
  intros [Hh Hl] (H1 & H2 & H3).
  assert (Ho : GBWTHeader.offset (header g') = GBWTHeader.offset (header g)).
  { apply (f_equal GBWTHeader.offset) in Hh. exact Hh. }
  assert (Ha : GBWTHeader.alphabet_size (header g') = GBWTHeader.alphabet_size (header g)).
  { apply (f_equal GBWTHeader.alphabet_size) in Hh. exact Hh. }
  unfold consistent, effective, vsize in *. rewrite Ho, Ha, Hl. auto.
Qed.

(** ** The offsets of the edges are rebuilt without a change to a body *)

Lemma set_offset_body r outrank v r' :
  DynamicRecord.set_offset r outrank v = Some r' ->
  DynamicRecord.body_size r' = DynamicRecord.body_size r
  /\ DynamicRecord.body r' = DynamicRecord.body r.
Proof.
  unfold DynamicRecord.set_offset. destruct (at_index _ _); [|discriminate].
  intros [= <-]. auto.
Qed.

Lemma edge_offsets_bodies inedges : forall g next offset g',
  edge_offsets g next inedges offset = Some g' ->
  header g' = header g /\ bodies g' = bodies g.
Proof.
  induction inedges as [|inedge rest IH]; intros g next offset g' H; cbn [edge_offsets] in H.
  - injection H as <-. auto.
  - apply bind_Some in H as (p & Hrec & H).
    apply bind_Some in H as (p' & Hoff & H).
    apply bind_Some in H as (g1 & Hset & H).
    destruct (set_offset_body _ _ _ _ Hoff) as [Hs Hb].
    destruct (set_record_same_body _ _ _ _ _ Hrec Hset Hs Hb) as [Hh1 Hb1].
    destruct (IH _ _ _ _ H) as [Hh2 Hb2]. split; congruence.
Qed.

Lemma rebuild_offsets_bodies seqs : forall g next g',
  rebuild_offsets g next seqs = Some g' ->
  header g' = header g /\ bodies g' = bodies g.
Proof.
  induction seqs as [|seq rest IH]; intros g next g' H; cbn [rebuild_offsets] in H.
  - injection H as <-. auto.
  - destruct (_ =? _); [exact (IH _ _ _ H) |].
    apply bind_Some in H as (next_node & _ & H).
    apply bind_Some in H as (g1 & Hoff & H).
    destruct (edge_offsets_bodies _ _ _ _ _ Hoff) as [Hh1 Hb1].
    destruct (IH _ _ _ H) as [Hh2 Hb2]. split; congruence.
Qed.

(** ** A batch keeps I7 *)

Lemma batch_round_counted {Src} `{Source Src} g seqs (source : Src) g' next_round :
  batch_round g seqs source = Ok (g', next_round) ->
  counted g -> counted g' /\ same_frame g g'.
Proof.
  intros Hrun Hc. unfold batch_round in Hrun.
  apply bind_Ok in Hrun as ([g1 seqs1] & Hsplice & Hrun).
  apply defined_Ok in Hsplice.
  destruct Hc as [Hsized Hsize].
  destruct (splice_all_spliced seqs g None (symbols (bodies g)) g1 seqs1 Hsplice)
    as ((Hsized1 & Hsum1) & Hh1 & Hlen1 & Hl1).
  { split; [exact Hsized | reflexivity]. }
  assert (Hc2 : counted (add_size g1 (vsize seqs1)) /\ same_frame g (add_size g1 (vsize seqs1))).
  { split.
    - split; [exact Hsized1 |]. unfold add_size, size. simpl.
      change (bodies {| header := _; bwt := bwt g1 |}) with (bodies g1).
      rewrite Hh1. fold (size g). rewrite Hsize, Hsum1. unfold vsize. rewrite Hlen1.
      apply wrap64_add_l.
    - split; [|exact Hl1]. unfold add_size. simpl. rewrite Hh1.
      destruct (header g). reflexivity. }
  destruct Hc2 as [Hc2 Hf2].
  apply bind_Ok in Hrun as (seqs2 & _ & Hrun).
  destruct (drop _ _) as [|seq4 rest4].
  - injection Hrun as <- <-. auto.
  - apply bind_Ok in Hrun as (g3 & Hreb & Hrun). apply defined_Ok in Hreb.
    apply bind_Ok in Hrun as (seqs5 & _ & Hrun).
    apply bind_Ok in Hrun as (seqs6 & _ & Hrun). injection Hrun as <- <-.
    destruct (rebuild_offsets_bodies _ _ _ _ Hreb) as [Hh3 Hb3].
    split.
    + destruct Hc2 as [Hs2 Hz2]. unfold counted, size. rewrite Hb3, Hh3. auto.
    + eapply same_frame_trans; [exact Hf2 |].
      apply same_frame_header; [exact Hh3 | exact (bodies_length _ _ Hb3)].
Qed.

Lemma insert_batch_counted {Src} `{Source Src} fuel :
  forall iterations g seqs (source : Src) n g',
  insert_batch fuel iterations g seqs source = Ok (n, g') ->
  counted g -> counted g' /\ same_frame g g'.
Proof.
  induction fuel as [|fuel IH]; intros iterations g seqs source n g' Hrun Hc;
    cbn [insert_batch] in Hrun; [discriminate |].
  apply bind_Ok in Hrun as ([g1 [seqs1|]] & Hround & Hrun).
  - destruct (batch_round_counted _ _ _ _ _ Hround Hc) as [Hc1 Hf1].
    destruct (IH _ _ _ _ _ _ Hrun Hc1) as [Hc' Hf'].
    split; [exact Hc' |]. eapply same_frame_trans; eassumption.
  - injection Hrun as <- <-. exact (batch_round_counted _ _ _ _ _ Hround Hc).
Qed.

(** ** resize moves the records and adds empty ones *)

Lemma settled_offset_cases g new_offset new_sigma :
  settled_offset g new_offset new_sigma = GBWTHeader.offset (header g)
  \/ settled_offset g new_offset new_sigma = new_offset.
Proof. unfold settled_offset. destruct (_ || _); auto. Qed.

Lemma settled_offset_shrinks g new_offset new_sigma :
  1 < sigma g -> settled_offset g new_offset new_sigma <= GBWTHeader.offset (header g).
Proof.
  intros H1. unfold settled_offset.
  destruct (Z.ltb_spec 1 (sigma g)); [|lia].
  destruct (Z.ltb_spec (GBWTHeader.offset (header g)) new_offset); simpl; [lia |].
  destruct (new_sigma <=? 1); lia.
Qed.

Lemma relocate_shape records : forall comp old_offset new_offset pre fill post,
  length fill = length records ->
  Z.of_nat (length pre) = comp + old_offset - new_offset ->
  0 <= comp -> 0 <= old_offset -> 0 <= new_offset ->
  comp + old_offset + vsize records <= 2 ^ 64 ->
  relocate records comp old_offset new_offset (pre ++ fill ++ post)
  = Some (pre ++ records ++ post).
Proof.
  induction records as [|current rest IH]; intros comp oo no pre fill post Hfill Hpre Hc Hoo Hno Hmax.
  - destruct fill; [reflexivity | discriminate].
  - destruct fill as [|x fill]; [discriminate |]. simpl in Hfill.
    unfold vsize in Hmax. simpl length in Hmax.
    assert (Hw : wrap64 (wrap64 (comp + oo) - no) = comp + oo - no).
    { rewrite (wrap64_small (comp + oo)) by (unfold u64; lia).
      apply wrap64_small. unfold u64. lia. }
    cbn [relocate]. rewrite Hw.
    assert (Hset : set_index (pre ++ x :: fill ++ post) (comp + oo - no) current
                   = Some ((pre ++ [current]) ++ fill ++ post)).
    { apply set_index_Some. split.
      - unfold vsize. rewrite length_app. simpl. lia.
      - rewrite <- Hpre, Nat2Z.id.
        replace (length pre) with (length pre + 0)%nat at 1 by lia.
        rewrite insert_app_r. simpl. rewrite <- app_assoc. reflexivity. }
    simpl app at 1. rewrite Hset. simpl.
    rewrite (IH (comp + 1) oo no (pre ++ [current]) fill post).
    + rewrite <- app_assoc. reflexivity.
    + lia.
    + rewrite length_app. simpl. lia.
    + lia.
    + lia.
    + lia.
    + unfold vsize. lia.
Qed.

Lemma resize_shape g new_offset new_sigma g' :
  consistent g -> u64 new_offset -> u64 new_sigma ->
  resize g new_offset new_sigma = Ok g' ->
  exists pad1 pad2,
    header g' = GBWTHeader.set_alphabet (header g) (GBWTHeader.offset (header g'))
                                        (GBWTHeader.alphabet_size (header g'))
    /\ bwt g' = take 1 (bwt g) ++ replicate pad1 DynamicRecord.empty
                ++ drop 1 (bwt g) ++ replicate pad2 DynamicRecord.empty
    /\ consistent g'.
Proof.
  intros Hcons Hno Hns Hres.
  pose proof (consistent_effective g Hcons) as Heff.
  pose proof Hcons as (Hoff & Hsig & Hlen).
  rewrite resize_unfold in Hres. cbv zeta in Hres.
  set (o := settled_offset g new_offset new_sigma) in *.
  set (s := settled_sigma g new_sigma) in *.
  pose proof (settled_offset_shrinks g new_offset new_sigma) as Hshrink.
  pose proof (settled_offset_cases g new_offset new_sigma) as Ho.
  fold o in Hshrink, Ho.
  assert (Hs : s = Z.max (sigma g) new_sigma) by reflexivity.
  destruct ((0 <? o) && (s <=? o)) eqn:Hfail; [discriminate |].
  assert (Hrange : 0 <= o /\ o <= s /\ (0 < o -> o < s) /\ s < 2 ^ 64).
  { apply andb_false_iff in Hfail. unfold u64, sigma in *.
    destruct Hfail as [H|H]; [apply Z.ltb_ge in H | apply Z.leb_gt in H]; lia. }
  destruct (negb (o =? GBWTHeader.offset (header g)) || negb (s =? sigma g)) eqn:Hchange.
  2:{ injection Hres as <-. exists 0%nat, 0%nat.
      split; [destruct g as [[] ?]; reflexivity |]. split; [|exact Hcons].
      simpl. rewrite app_nil_r. symmetry. apply take_drop. }
  destruct (Z.ltb_spec (vsize (bwt g)) (effective g)); [lia |].
  rewrite take_ge in Hres by (unfold vsize in Hlen; lia).
  assert (Hw : wrap64 (s - o) = s - o) by (apply wrap64_small; unfold u64; lia).
  rewrite Hw in Hres.
  assert (Hcons' : forall moved, vsize moved = s - o ->
            consistent (mk (GBWTHeader.set_alphabet (header g) o s) moved)).
  { intros moved Hm. unfold consistent, effective. simpl. rewrite Hw. lia. }
  destruct (bwt g) as [|endmarker others] eqn:Hbwt.
  - injection Hres as <-. exists (Z.to_nat (s - o)), 0%nat. simpl.
    split; [reflexivity |]. split; [now rewrite app_nil_r |].
    apply Hcons'. unfold vsize. rewrite length_replicate. lia.
  - unfold vsize in Hlen. simpl length in Hlen. unfold sigma in *.
    destruct (Z.to_nat (s - o)) as [|m] eqn:Hm; [lia |].
    change (set_index (replicate (S m) DynamicRecord.empty) 0 endmarker)
      with (Some (endmarker :: replicate m DynamicRecord.empty)) in Hres.
    cbn [bind defined] in Hres.
    destruct others as [|r rest] eqn:Hothers.
    + cbn [relocate bind defined] in Hres. injection Hres as <-.
      exists m, 0%nat. simpl. split; [reflexivity |].
      split; [now rewrite app_nil_r |].
      apply Hcons'. unfold vsize. simpl. rewrite length_replicate. lia.
    + rewrite <- Hothers in *.
      assert (Hlen2 : (2 <= length others)%nat \/ length others = 1%nat).
      { rewrite Hothers. simpl. lia. }
      assert (H1 : 1 < GBWTHeader.alphabet_size (header g)) by lia.
      specialize (Hshrink H1).
      set (d := Z.to_nat (GBWTHeader.offset (header g) - o)).
      set (rest_pad := (m - d - length others)%nat).
      assert (Hsplit : replicate m DynamicRecord.empty
                       = replicate d DynamicRecord.empty
                         ++ replicate (length others) DynamicRecord.empty
                         ++ replicate rest_pad DynamicRecord.empty).
      { rewrite <- !replicate_add. f_equal. unfold rest_pad, d. lia. }
      rewrite Hsplit in Hres.
      pose proof (relocate_shape others 1 (GBWTHeader.offset (header g)) o
                 (endmarker :: replicate d DynamicRecord.empty)
                 (replicate (length others) DynamicRecord.empty)
                 (replicate rest_pad DynamicRecord.empty)) as Hrel.
      cbn [app] in Hrel. rewrite Hrel in Hres.
      * cbn [bind defined] in Hres. injection Hres as <-.
        exists d, rest_pad. simpl. split; [reflexivity |]. split; [reflexivity |].
        apply Hcons'. unfold vsize. simpl.
        rewrite !length_app, !length_replicate. unfold rest_pad, d. lia.
      * apply length_replicate.
      * simpl. rewrite length_replicate. unfold d. lia.
      * lia.
      * lia.
      * lia.
      * unfold vsize. lia.
Qed.

Lemma symbols_app l l' : symbols (l ++ l') = symbols l + symbols l'.
Proof. unfold symbols. rewrite fmap_app. apply sumZ_app. Qed.

Lemma symbols_replicate_empty n : symbols (replicate n (0, [])) = 0.
Proof. induction n as [|n IH]; [reflexivity |]. unfold symbols in *. simpl. exact IH. Qed.

Lemma sized_replicate_empty n : Forall sized (replicate n (0, [])).
Proof. apply Forall_replicate. reflexivity. Qed.

Lemma resize_counted g new_offset new_sigma g' :
  consistent g -> u64 new_offset -> u64 new_sigma ->
  resize g new_offset new_sigma = Ok g' ->
  counted g -> counted g' /\ consistent g'.
Proof.
  intros Hcons Hno Hns Hres [Hsized Hsize].
  destruct (resize_shape _ _ _ _ Hcons Hno Hns Hres) as (pad1 & pad2 & Hh & Hb & Hc').
  split; [|exact Hc'].
  assert (Hbodies : bodies g' = take 1 (bodies g) ++ replicate pad1 (0, [])
                                ++ drop 1 (bodies g) ++ replicate pad2 (0, [])).
  { unfold bodies. rewrite Hb, !fmap_app, fmap_take, fmap_drop, !fmap_replicate.
    reflexivity. }
  unfold counted. rewrite Hbodies. split.
  - rewrite <- (take_drop 1 (bodies g)) in Hsized. apply Forall_app in Hsized as [H1 H2].
    repeat (apply Forall_app; split); auto using sized_replicate_empty.
  - unfold size. rewrite Hh. simpl. fold (size g). rewrite Hsize. f_equal.
    rewrite !symbols_app, !symbols_replicate_empty.
    rewrite <- (take_drop 1 (bodies g)) at 1. rewrite symbols_app. lia.
Qed.

(** ** recode keeps the number of symbols of a body *)

Lemma coalesce_lengths b : wrap64 (run_lengths (DynamicRecord.coalesce b)) = wrap64 (run_lengths b).
Proof.
  induction b as [|run rest IH]; [reflexivity |].
  cbn [DynamicRecord.coalesce]. rewrite run_lengths_cons.
  destruct (DynamicRecord.coalesce rest) as [|run' rest'].
  - rewrite run_lengths_cons. change (run_lengths []) with 0 in *. wrap_lia.
  - destruct (run.1 =? run'.1); rewrite !run_lengths_cons in *; cbn [fst snd]; wrap_lia.
Qed.

Lemma recode_body r :
  DynamicRecord.body_size (DynamicRecord.recode r) = DynamicRecord.body_size r
  /\ wrap64 (run_lengths (DynamicRecord.body (DynamicRecord.recode r)))
     = wrap64 (run_lengths (DynamicRecord.body r)).
Proof.
  split; [reflexivity |]. unfold DynamicRecord.recode. simpl.
  rewrite coalesce_lengths. f_equal. unfold run_lengths. f_equal.
  rewrite <- list_fmap_compose. reflexivity.
Qed.

Lemma same_count_counted l l' :
  Forall2 same_count l l' ->
  (Forall sized l -> Forall sized l') /\ wrap64 (symbols l') = wrap64 (symbols l).
Proof.
  induction 1 as [|p q l l' [H1 H2] _ [IH1 IH2]].
  - split; [auto | reflexivity].
  - split.
    + intros Hs. apply Forall_cons in Hs as [Hp Hl]. apply Forall_cons. split; [|auto].
      unfold sized in *. rewrite H1, H2. exact Hp.
    + change (symbols (q :: l')) with (run_lengths q.2 + symbols l').
      change (symbols (p :: l)) with (run_lengths p.2 + symbols l).
      wrap_lia.
Qed.

Lemma recode_counted g g' :
  recode g = Ok g' -> counted g -> counted g' /\ same_frame g g'.
Proof.
  unfold recode. destruct (_ <? _); [discriminate |]. intros [= <-] [Hsized Hsize].
  set (n := Z.to_nat (effective g)).
  assert (H2 : Forall2 same_count (bodies g)
                 (bodies (mk (header g)
                    ((DynamicRecord.recode <$> take n (bwt g)) ++ drop n (bwt g))))).
  { unfold bodies. simpl. rewrite <- (take_drop n (bwt g)) at 1.
    rewrite !fmap_app. apply Forall2_app.
    - rewrite <- list_fmap_compose. apply Forall2_fmap, Forall_Forall2_diag, Forall_forall.
      intros r _. split; apply recode_body.
    - apply Forall_Forall2_diag, Forall_forall. intros p _. split; reflexivity. }
  destruct (same_count_counted _ _ H2) as [H3 H4].
  split.
  - split; [exact (H3 Hsized) |]. unfold size in *. simpl. rewrite Hsize.
    symmetry. exact H4.
  - apply same_frame_header; [reflexivity |]. simpl.
    rewrite length_app, length_fmap, <- length_app, take_drop. reflexivity.
Qed.

(** ** insert and merge keep I7 *)

Lemma same_but_sequences_refl g : same_but_sequences g g.
Proof. split; reflexivity. Qed.

Lemma same_but_sequences_trans g1 g2 g3 :
  same_but_sequences g1 g2 -> same_but_sequences g2 g3 -> same_but_sequences g1 g3.
Proof. intros [H1 H2] [H3 H4]. split; congruence. Qed.

Lemma add_sequence_same g : same_but_sequences g (add_sequence g).
Proof. split; [reflexivity |]. unfold add_sequence. simpl. destruct (header g). reflexivity. Qed.

Lemma same_but_sequences_keeps g g' :
  same_but_sequences g g' ->
  (consistent g -> consistent g') /\ (counted g -> counted g').
Proof.
  intros [Hb Hh].
  assert (Ho : GBWTHeader.offset (header g') = GBWTHeader.offset (header g)).
  { apply (f_equal GBWTHeader.offset) in Hh. exact Hh. }
  assert (Ha : GBWTHeader.alphabet_size (header g') = GBWTHeader.alphabet_size (header g)).
  { apply (f_equal GBWTHeader.alphabet_size) in Hh. exact Hh. }
  assert (Hs : GBWTHeader.size (header g') = GBWTHeader.size (header g)).
  { apply (f_equal GBWTHeader.size) in Hh. exact Hh. }
  split.
  - unfold consistent, effective. rewrite Hb, Ho, Ha. auto.
  - unfold counted, size, bodies. rewrite Hb, Hs. auto.
Qed.

Lemma scan_text_same text symbols : forall i st st',
  scan_text text symbols i st = Some st' ->
  same_but_sequences (sc_index st) (sc_index st').
Proof.
  induction symbols as [|symbol rest IH]; intros i st st' H; cbn [scan_text] in H.
  - injection H as <-. apply same_but_sequences_refl.
  - apply bind_Some in H as (st1 & Hstep & H).
    eapply same_but_sequences_trans; [|exact (IH _ _ _ H)].
    unfold scan_symbol in Hstep.
    apply bind_Some in Hstep as ([g1 seqs] & Hg & Hstep). injection Hstep as <-. simpl.
    destruct (sc_seq_start st).
    + apply bind_Some in Hg as (seq & _ & Hg). injection Hg as <- <-.
      apply add_sequence_same.
    + injection Hg as <- <-. apply same_but_sequences_refl.
Qed.

Lemma insert_counted fuel g text g' :
  consistent g -> counted g -> insert fuel g text = Ok g' ->
  counted g' /\ consistent g'.
Proof.
  intros Hcons Hc Hins. unfold insert in Hins.
  destruct (last text) as [symbol|]; [|injection Hins as <-; auto].
  destruct (negb (symbol =? ENDMARKER)); [discriminate |].
  apply bind_Ok in Hins as (st & Hscan & Hins). apply defined_Ok in Hscan.
  apply scan_text_same in Hscan. simpl in Hscan.
  destruct (same_but_sequences_keeps _ _ Hscan) as [Hk1 Hk2].
  apply bind_Ok in Hins as (g1 & Hres & Hins).
  apply bind_Ok in Hins as ([n g2] & Hbatch & Hins).
  destruct (resize_counted _ _ _ _ (Hk1 Hcons) (wrap64_u64 _) (wrap64_u64 _) Hres (Hk2 Hc))
    as [Hc1 Hcons1].
  destruct (insert_batch_counted _ _ _ _ _ _ _ Hbatch Hc1) as [Hc2 Hf2].
  destruct (recode_counted _ _ Hins Hc2) as [Hc3 Hf3].
  split; [exact Hc3 |].
  eapply same_frame_consistent; [exact Hf3 |].
  eapply same_frame_consistent; [exact Hf2 | exact Hcons1].
Qed.

Lemma batch_of_same rounds : forall g endmarker iter ro so limit seqs g' iter' ro' so' seqs',
  batch_of rounds g endmarker iter ro so limit seqs = Some (g', iter', ro', so', seqs') ->
  same_but_sequences g g'.
Proof.
  induction rounds as [|rounds IH]; intros g em iter ro so limit seqs g' iter' ro' so' seqs' H;
    cbn [batch_of] in H; destruct (so <? limit); try discriminate;
    try (injection H as <- <- <- <- <-; apply same_but_sequences_refl).
  destruct iter as [|run rest]; [discriminate |].
  destruct (run.2 <=? ro).
  - exact (IH _ _ _ _ _ _ _ _ _ _ _ _ H).
  - apply bind_Some in H as (node & _ & H).
    eapply same_but_sequences_trans; [apply add_sequence_same |].
    exact (IH _ _ _ _ _ _ _ _ _ _ _ _ H).
Qed.

Lemma merge_batches_counted fuel : forall g source batch_size endmarker iter ro so g',
  merge_batches fuel g source batch_size endmarker iter ro so = Ok g' ->
  consistent g -> counted g -> counted g' /\ consistent g'.
Proof.
  induction fuel as [|fuel IH]; intros g source bs em iter ro so g' H Hcons Hc;
    cbn [merge_batches] in H; destruct (so <? sequences source); try discriminate;
    try (injection H as <-; auto).
  apply bind_Ok in H as ([[[[g1 iter1] ro1] so1] seqs] & Hbatch & H).
  apply defined_Ok in Hbatch. apply batch_of_same in Hbatch.
  destruct (same_but_sequences_keeps _ _ Hbatch) as [Hk1 Hk2].
  apply bind_Ok in H as ([n g2] & Hrun & H).
  destruct (insert_batch_counted _ _ _ _ _ _ _ Hrun (Hk2 Hc)) as [Hc2 Hf2].
  apply (IH _ _ _ _ _ _ _ _ H); [|exact Hc2].
  eapply same_frame_consistent; [exact Hf2 | exact (Hk1 Hcons)].
Qed.

Lemma merge_counted fuel g source batch_size g' :
  consistent g -> counted g -> consistent source -> counted source ->
  merge fuel g source batch_size = Ok g' ->
  counted g' /\ consistent g'.
Proof.
  intros Hcons Hc Hcons_s Hc_s H. unfold merge in H.
  destruct (empty source); [injection H as <-; auto |].
  destruct (empty g).
  { injection H as <-. unfold copy. destruct source. auto. }
  apply bind_Ok in H as (g1 & Hres & H).
  apply bind_Ok in H as (em & _ & H).
  apply bind_Ok in H as (g2 & Hbatches & H).
  assert (Ho : u64 (GBWTHeader.offset (header source))).
  { destruct Hcons_s as (? & ? & _). unfold u64. lia. }
  assert (Hs : u64 (sigma source)).
  { destruct Hcons_s as (? & ? & _). unfold u64, sigma. lia. }
  destruct (resize_counted _ _ _ _ Hcons Ho Hs Hres Hc) as [Hc1 Hcons1].
  destruct (merge_batches_counted _ _ _ _ _ _ _ _ _ Hbatches Hcons1 Hc1) as [Hc2 Hcons2].
  destruct (recode_counted _ _ H Hc2) as [Hc3 Hf3].
  split; [exact Hc3 |]. eapply same_frame_consistent; [exact Hf3 | exact Hcons2].
Qed.

(** ** The sort between rounds *)

Lemma sorted_insert_perm {A} (lt : A -> A -> bool) x l : sorted_insert lt x l ≡ₚ x :: l.
Proof.
  induction l as [|y l IH]; simpl; [reflexivity |].
  destruct (lt y x); [|reflexivity].
  rewrite IH. apply Permutation_swap.
Qed.

Lemma stable_sort_perm {A} (lt : A -> A -> bool) l : stable_sort lt l ≡ₚ l.
Proof.
  induction l as [|x l IH]; simpl; [reflexivity |].
  rewrite sorted_insert_perm, IH. reflexivity.
Qed.

Lemma drop_finished_done seq rest :
  Sequence.next seq = ENDMARKER ->
  drop (finished (seq :: rest)) (seq :: rest) = drop (finished rest) rest.
Proof. intros H. simpl. rewrite H. reflexivity. Qed.

Lemma drop_finished_going seq rest :
  Sequence.next seq <> ENDMARKER ->
  drop (finished (seq :: rest)) (seq :: rest) = seq :: rest.
Proof. intros H. simpl. destruct (Z.eqb_spec (Sequence.next seq) ENDMARKER); [contradiction | reflexivity]. Qed.

Lemma lt_done_going y seq :
  Sequence.next y = ENDMARKER -> Sequence.next seq <> ENDMARKER -> 0 <= Sequence.next seq ->
  Sequence.lt y seq = true.
Proof.
  unfold Sequence.lt, ENDMARKER. intros Hy Hs H0.
  destruct (Z.eqb_spec (Sequence.next y) (Sequence.next seq)); [lia |]. simpl.
  apply Z.ltb_lt. lia.
Qed.

Lemma lt_going_done y seq :
  Sequence.next y <> ENDMARKER -> 0 <= Sequence.next y -> Sequence.next seq = ENDMARKER ->
  Sequence.lt y seq = false.
Proof.
  unfold Sequence.lt, ENDMARKER. intros Hy H0 Hs.
  destruct (Z.eqb_spec (Sequence.next y) (Sequence.next seq)); [lia |]. simpl.
  apply Z.ltb_ge. lia.
Qed.

Lemma drop_finished_insert seq l :
  0 <= Sequence.next seq -> Forall (fun s => 0 <= Sequence.next s) l ->
  drop (finished (sorted_insert Sequence.lt seq l)) (sorted_insert Sequence.lt seq l)
  = if Sequence.next seq =? ENDMARKER then drop (finished l) l
    else sorted_insert Sequence.lt seq (drop (finished l) l).
Proof.
  intros Hseq Hl. induction l as [|y l IH].
  - simpl. destruct (_ =? _); reflexivity.
  - apply Forall_cons in Hl as [Hy Hl]. specialize (IH Hl).
    cbn [sorted_insert].
    destruct (Z.eqb_spec (Sequence.next seq) ENDMARKER) as [Hs|Hs];
      destruct (Z.eq_dec (Sequence.next y) ENDMARKER) as [Hy0|Hy0].
    + destruct (Sequence.lt y seq).
      * rewrite !(drop_finished_done y) by exact Hy0. exact IH.
      * rewrite (drop_finished_done seq) by exact Hs. reflexivity.
    + rewrite (lt_going_done y seq Hy0 Hy Hs).
      rewrite (drop_finished_done seq) by exact Hs. reflexivity.
    + rewrite (lt_done_going y seq Hy0 Hs Hseq).
      rewrite !(drop_finished_done y) by exact Hy0. exact IH.
    + rewrite (drop_finished_going y l) by exact Hy0. cbn [sorted_insert].
      destruct (Sequence.lt y seq).
      * apply drop_finished_going. exact Hy0.
      * apply drop_finished_going. exact Hs.
Qed.

Lemma drop_finished_sort l :
  Forall (fun s => 0 <= Sequence.next s) l ->
  drop (finished (chooseBestSort l)) (chooseBestSort l)
  = chooseBestSort (filter unfinished l).
Proof.
  unfold chooseBestSort. induction l as [|seq l IH]; intros Hl; [reflexivity |].
  apply Forall_cons in Hl as [Hseq Hl]. specialize (IH Hl).
  cbn [stable_sort]. rewrite drop_finished_insert.
  - rewrite filter_cons. unfold unfinished at 1, ENDMARKER.
    destruct (Z.eqb_spec (Sequence.next seq) 0) as [Hs|Hs].
    + destruct (decide (Sequence.next seq <> 0)); [contradiction | exact IH].
    + destruct (decide (Sequence.next seq <> 0)); [|contradiction].
      cbn [stable_sort]. rewrite IH. reflexivity.
  - exact Hseq.
  - rewrite stable_sort_perm. exact Hl.
Qed.

(** ** A round on a text *)

Lemma splice_all_moved seqs : forall g sp g' seqs',
  splice_all g sp seqs = Some (g', seqs') -> Forall2 moved seqs seqs'.
Proof.
  induction seqs as [|seq rest IH]; intros g sp g' seqs' H; cbn [splice_all] in H.
  - apply bind_Some in H as (g1 & _ & H). injection H as <- <-. constructor.
  - apply bind_Some in H as ([g1 sp1] & _ & H).
    apply bind_Some in H as ([[g2 sp2] seq'] & Hstep & H).
    apply bind_Some in H as ([g3 rest'] & Hall & H). injection H as <- <-.
    constructor; [|exact (IH _ _ _ _ Hall)].
    unfold splice_step in Hstep.
    apply bind_Some in Hstep as (current & _ & Hstep).
    apply bind_Some in Hstep as ([g1' nb1] & _ & Hstep).
    apply bind_Some in Hstep as ([iter nb2] & _ & Hstep).
    apply bind_Some in Hstep as (rank & _ & Hstep).
    apply bind_Some in Hstep as (nb3 & _ & Hstep).
    apply bind_Some in Hstep as (g2' & _ & Hstep).
    injection Hstep as <- <- <-. exists rank. reflexivity.
Qed.

Lemma to_positions_moved g seqs seqs' :
  to_positions g seqs = Some seqs' -> Forall2 moved seqs seqs'.
Proof.
  unfold to_positions. intros H%mapM_Some_1.
  eapply Forall2_impl; [exact H |]. intros seq seq' Hs. simpl in Hs.
  apply bind_Some in Hs as (current & _ & Hs).
  apply bind_Some in Hs as (base & _ & Hs). injection Hs as <-.
  eexists. reflexivity.
Qed.

Lemma advancePosition_text_advanced text seqs seqs' :
  advancePosition_text seqs text = Some seqs' -> Forall2 (advanced text) seqs seqs'.
Proof.
  unfold advancePosition_text. intros H%mapM_Some_1.
  eapply Forall2_impl; [exact H |]. intros seq seq' Hs. simpl in Hs.
  apply bind_Some in Hs as (n & Hn & Hs). injection Hs as <-.
  exists n. auto.
Qed.

Lemma moved_fmap {B} (h : Sequence.t -> B) l l' :
  (forall seq offset, h (Sequence.set_offset seq offset) = h seq) ->
  Forall2 moved l l' -> h <$> l' = h <$> l.
Proof.
  intros Hh. induction 1 as [|seq seq' l l' [o ->] _ IH]; [reflexivity |].
  rewrite !fmap_cons, Hh, IH. reflexivity.
Qed.

Lemma moved_filter l l' :
  Forall2 moved l l' -> Forall2 moved (filter unfinished l) (filter unfinished l').
Proof.
  induction 1 as [|seq seq' l l' [o ->] _ IH]; [constructor |].
  rewrite !filter_cons.
  change (unfinished (Sequence.set_offset seq o)) with (unfinished seq).
  destruct (decide (unfinished seq)); [|exact IH].
  constructor; [exists o; reflexivity | exact IH].
Qed.

Lemma filter_set_pos (q : Z -> Z) (l : list Sequence.t) :
  filter unfinished ((fun seq => Sequence.set_pos seq (q (Sequence.pos seq))) <$> l)
  = (fun seq => Sequence.set_pos seq (q (Sequence.pos seq))) <$> filter unfinished l.
Proof.
  induction l as [|seq l IH]; [reflexivity |].
  rewrite fmap_cons, !filter_cons.
  change (unfinished (Sequence.set_pos seq (q (Sequence.pos seq)))) with (unfinished seq).
  destruct (decide (unfinished seq)); rewrite IH; reflexivity.
Qed.

Lemma aligned_range text seq :
  aligned text seq -> 0 <= Sequence.pos seq < vsize text.
Proof. apply at_index_lt. Qed.

Lemma remaining_done text seq :
  aligned text seq -> Sequence.next seq = ENDMARKER ->
  remaining text (Sequence.pos seq) = O.
Proof.
  intros Ha Hn. apply at_index_Some in Ha as [_ Ha].
  unfold remaining. rewrite (drop_S _ _ _ Ha). simpl. rewrite Hn. reflexivity.
Qed.

Lemma remaining_going text seq :
  aligned text seq -> Sequence.next seq <> ENDMARKER ->
  remaining text (Sequence.pos seq) = S (remaining text (Sequence.pos seq + 1)).
Proof.
  intros Ha Hn. pose proof (aligned_range _ _ Ha) as Hr.
  apply at_index_Some in Ha as [_ Ha].
  unfold remaining. rewrite (drop_S _ _ _ Ha). simpl.
  destruct (Z.eqb_spec (Sequence.next seq) ENDMARKER); [contradiction |].
  do 2 f_equal. f_equal. lia.
Qed.

Lemma longest_cons text seq seqs :
  longest text (seq :: seqs)
  = Nat.max (remaining text (Sequence.pos seq)) (longest text seqs).
Proof. reflexivity. Qed.

Lemma longest_done text seqs :
  Forall (aligned text) seqs -> filter unfinished seqs = [] -> longest text seqs = O.
Proof.
  induction 1 as [|seq seqs Ha _ IH]; [reflexivity |].
  rewrite filter_cons. destruct (decide (unfinished seq)) as [|Hd]; [discriminate |].
  intros Hf. rewrite longest_cons, (IH Hf).
  rewrite (remaining_done _ _ Ha); [reflexivity |].
  unfold unfinished in Hd. destruct (Z.eq_dec (Sequence.next seq) ENDMARKER); tauto.
Qed.

(** The most that the sequences at the given places have to write. *)
Lemma longest_going text seqs :
  Forall (aligned text) seqs -> filter unfinished seqs <> [] ->
  longest text seqs
  = S (max_list_with (fun p : Z * Z => remaining text p.2)
                     (next_place <$> filter unfinished seqs)).
Proof.
  induction 1 as [|seq seqs Ha Hall IH]; [intros H; contradiction |].
  rewrite filter_cons, longest_cons.
  destruct (decide (unfinished seq)) as [Hu|Hd]; intros Hf.
  - rewrite fmap_cons. cbn [max_list_with next_place snd].
    rewrite (remaining_going _ _ Ha Hu).
    destruct (filter unfinished seqs) as [|s' rest'] eqn:Hrest.
    + rewrite (longest_done text seqs Hall Hrest). simpl. lia.
    + rewrite IH by discriminate. lia.
  - rewrite (IH Hf).
    rewrite (remaining_done _ _ Ha); [reflexivity |].
    unfold unfinished in Hd. destruct (Z.eq_dec (Sequence.next seq) ENDMARKER); tauto.
Qed.

Lemma longest_places text seqs :
  longest text seqs = max_list_with (fun p : Z * Z => remaining text p.2) (place <$> seqs).
Proof.
  unfold longest. induction seqs as [|seq seqs IH]; [reflexivity |].
  rewrite !fmap_cons. cbn [max_list_with]. rewrite IH. reflexivity.
Qed.

Lemma defined_not_out_of_fuel {A} (o : option A) : defined o <> OutOfFuel.
Proof. destruct o; discriminate. Qed.

Lemma bind_OutOfFuel {A B} (m : outcome A) (k : A -> outcome B) :
  bind m k = OutOfFuel -> m = OutOfFuel \/ exists a, m = Ok a /\ k a = OutOfFuel.
Proof. destruct m; simpl; try discriminate; eauto. Qed.

Lemma batch_round_not_out_of_fuel {Src} `{Source Src} g seqs (source : Src) :
  batch_round g seqs source <> OutOfFuel.
Proof.
  intros Hex. unfold batch_round in Hex.
  repeat match type of Hex with
  | bind (defined _) _ = OutOfFuel =>
      apply bind_OutOfFuel in Hex as [Hex | (? & _ & Hex)];
      [exfalso; exact (defined_not_out_of_fuel _ Hex) |]
  | (let '(_, _) := ?p in _) = OutOfFuel => destruct p
  | match ?l with [] => _ | _ :: _ => _ end = OutOfFuel => destruct l; [discriminate Hex |]
  end.
  discriminate.
Qed.

Lemma batch_round_text g text seqs g' next_round :
  Forall (fun x => 0 <= x) text -> vsize text < 2 ^ 64 ->
  Forall (aligned text) seqs ->
  batch_round g seqs text = Ok (g', next_round) ->
  match next_round with
  | None => filter unfinished seqs = []
  | Some seqs' =>
      filter unfinished seqs <> []
      /\ Forall (aligned text) seqs'
      /\ place <$> seqs' ≡ₚ next_place <$> filter unfinished seqs
  end.
Proof.
  intros Htext Hsize Hal Hrun. unfold batch_round in Hrun.
  apply bind_Ok in Hrun as ([g1 seqs1] & Hsplice & Hrun). apply defined_Ok in Hsplice.
  apply splice_all_moved in Hsplice.
  apply bind_Ok in Hrun as (seqs2 & Hnext & Hrun). apply defined_Ok in Hnext.
  cbn [nextPosition text_source] in Hnext. unfold nextPosition_text in Hnext.
  injection Hnext as <-.
  set (step := fun seq => Sequence.set_pos seq (wrap64 (Sequence.pos seq + 1))) in *.
  assert (Hnonneg : Forall (fun s => 0 <= Sequence.next s) (step <$> seqs1)).
  { apply Forall_fmap. clear -Hsplice Hal Htext.
    induction Hsplice as [|seq seq' l l' [o ->] _ IH]; [constructor |].
    apply Forall_cons in Hal as [Hseq Hal]. constructor; [|exact (IH Hal)].
    simpl. apply at_index_Some in Hseq as [_ Hseq].
    exact (proj1 (Forall_lookup _ _) Htext _ _ Hseq). }
  rewrite (drop_finished_sort _ Hnonneg) in Hrun.
  assert (Hstep : filter unfinished (step <$> seqs1) = step <$> filter unfinished seqs1).
  { apply (filter_set_pos (fun p => wrap64 (p + 1))). }
  assert (Hplaces : place <$> (step <$> filter unfinished seqs1)
                    = next_place <$> filter unfinished seqs).
  { rewrite <- list_fmap_compose.
    rewrite (moved_fmap (place ∘ step) _ _ (fun _ _ => eq_refl) (moved_filter _ _ Hsplice)).
    apply Forall_fmap_ext. apply Forall_forall. intros seq Hseq.
    apply list_elem_of_filter in Hseq as [_ Hseq].
    pose proof (aligned_range _ _ (proj1 (Forall_forall _ _) Hal _ Hseq)) as Hr.
    unfold compose, place, next_place, step. simpl. f_equal.
    apply wrap64_small. unfold u64. lia. }
  assert (Hfilter : filter unfinished seqs = [] <-> filter unfinished (step <$> seqs1) = []).
  { rewrite Hstep. split; intros H.
    - apply (f_equal (fmap next_place)) in H. rewrite <- Hplaces in H.
      apply fmap_nil_inv in H. exact H.
    - rewrite H in Hplaces. symmetry in Hplaces. apply fmap_nil_inv in Hplaces.
      exact Hplaces. }
  destruct (chooseBestSort (filter unfinished (step <$> seqs1))) as [|seq4 rest4] eqn:Hsort.
  - injection Hrun as <- <-. apply Hfilter.
    apply Permutation_nil_r. rewrite <- Hsort. unfold chooseBestSort.
    symmetry. apply stable_sort_perm.
  - apply bind_Ok in Hrun as (g3 & _ & Hrun).
    apply bind_Ok in Hrun as (seqs5 & Hpos & Hrun). apply defined_Ok in Hpos.
    apply bind_Ok in Hrun as (seqs6 & Hadv & Hrun). apply defined_Ok in Hadv.
    injection Hrun as <- <-.
    apply to_positions_moved in Hpos.
    cbn [advancePosition text_source] in Hadv.
    apply advancePosition_text_advanced in Hadv.
    split; [|split].
    + intros Hnil. apply Hfilter in Hnil. rewrite Hnil in Hsort. discriminate.
    + clear -Hadv. induction Hadv as [|s s' l l' (n & Hn & ->) _ IH]; constructor; auto.
    + assert (H6 : place <$> seqs6 = place <$> seqs5).
      { clear -Hadv. induction Hadv as [|s s' l l' (n & Hn & ->) _ IH]; [reflexivity |].
        rewrite !fmap_cons, IH. reflexivity. }
      rewrite H6, (moved_fmap place _ _ (fun _ _ => eq_refl) Hpos), <- Hsort.
      unfold chooseBestSort. rewrite stable_sort_perm, Hstep, Hplaces. reflexivity.
Qed.


Lemma insert_batch_text fuel (text : list Z) : forall iterations g seqs,
  Forall (fun x => 0 <= x) text -> vsize text < 2 ^ 64 ->
  Forall (aligned text) seqs -> (longest text seqs < fuel)%nat ->
  insert_batch fuel iterations g seqs text <> OutOfFuel
  /\ (forall n g', insert_batch fuel iterations g seqs text = Ok (n, g') ->
        n = wrap64 (iterations + Z.of_nat (S (longest text seqs)))).
Proof.
  induction fuel as [|fuel IH]; intros iterations g seqs Htext Hsize Hal Hfuel; [lia |].
  cbn [insert_batch].
  destruct (batch_round g seqs text) as [[g' next_round]| | |] eqn:Hround;
    cbn [bind]; try (split; [discriminate | intros ? ?; discriminate]).
  2:{ exfalso. exact (batch_round_not_out_of_fuel _ _ _ Hround). }
  pose proof (batch_round_text _ _ _ _ _ Htext Hsize Hal Hround) as Hnext.
  destruct next_round as [seqs'|].
  - destruct Hnext as (Hne & Hal' & Hperm).
    pose proof (longest_going _ _ Hal Hne) as Hlong.
    assert (Hlong' : longest text seqs = S (longest text seqs')).
    { rewrite Hlong, longest_places. f_equal. rewrite Hperm. reflexivity. }
    destruct (IH (wrap64 (iterations + 1)) g' seqs' Htext Hsize Hal' ltac:(lia)) as [H1 H2].
    split; [exact H1 |]. intros n g'' Hrun. rewrite (H2 _ _ Hrun), Hlong'.
    rewrite wrap64_add_l. f_equal. lia.
  - split; [discriminate |]. intros n g'' [= <- <-].
    rewrite (longest_done _ _ Hal Hnext). f_equal.
Qed.

(** ** The batch that insert makes of a text *)

Lemma scan_text_aligned text symbols : forall i st st',
  scan_text text symbols i st = Some st' ->
  Forall (aligned text) (sc_seqs st) -> Forall (aligned text) (sc_seqs st').
Proof.
  induction symbols as [|symbol rest IH]; intros i st st' H Hal; cbn [scan_text] in H.
  - injection H as <-. exact Hal.
  - apply bind_Some in H as (st1 & Hstep & H). apply (IH _ _ _ H).
    unfold scan_symbol in Hstep.
    apply bind_Some in Hstep as ([g1 seqs] & Hg & Hstep). injection Hstep as <-. simpl.
    destruct (sc_seq_start st).
    + apply bind_Some in Hg as (seq & Hseq & Hg). injection Hg as <- <-.
      apply Forall_app. split; [exact Hal |]. constructor; [|constructor].
      unfold Sequence.from_text in Hseq.
      apply bind_Some in Hseq as (first & Hfirst & Hseq). injection Hseq as <-.
      exact Hfirst.
    + injection Hg as <- <-. exact Hal.
Qed.

Lemma to_endmarker_le symbols : (to_endmarker symbols <= length symbols)%nat.
Proof.
  induction symbols as [|x l IH]; simpl; [lia |]. destruct (_ =? _); lia.
Qed.

Lemma longest_le text seqs : (longest text seqs <= length text)%nat.
Proof.
  induction seqs as [|seq seqs IH]; [unfold longest; simpl; lia |].
  rewrite longest_cons.
  assert (remaining text (Sequence.pos seq) <= length text)%nat; [|lia].
  unfold remaining. etransitivity; [apply to_endmarker_le |].
  rewrite length_drop. lia.
Qed.

Lemma resize_not_out_of_fuel g new_offset new_sigma :
  resize g new_offset new_sigma <> OutOfFuel.
Proof.
  unfold resize.
  repeat match goal with
  | |- (if ?b then _ else _) <> _ => destruct b
  | |- match ?l with [] => _ | _ :: _ => _ end <> _ => destruct l
  | |- bind (defined ?o) _ <> _ => destruct o; cbn [bind defined]
  end; discriminate.
Qed.

Lemma recode_not_out_of_fuel g : recode g <> OutOfFuel.
Proof. unfold recode. destruct (_ <? _); discriminate. Qed.

Lemma insert_terminates fuel g text :
  Forall (fun x => 0 <= x) text -> vsize text < 2 ^ 64 -> (length text < fuel)%nat ->
  insert fuel g text <> OutOfFuel.
Proof.
  intros Htext Hsize Hfuel. unfold insert.
  destruct (last text); [|discriminate].
  destruct (negb _); [discriminate |].
  intros H.
  apply bind_OutOfFuel in H as [H | (st & Hscan & H)].
  { exact (defined_not_out_of_fuel _ H). }
  apply defined_Ok in Hscan.
  apply bind_OutOfFuel in H as [H | (g1 & _ & H)].
  { exact (resize_not_out_of_fuel _ _ _ H). }
  apply bind_OutOfFuel in H as [H | ([n g2] & _ & H)].
  - apply scan_text_aligned in Hscan; [|constructor].
    refine (proj1 (insert_batch_text fuel text 0 g1 (sc_seqs st) Htext Hsize Hscan _) H).
    pose proof (longest_le text (sc_seqs st)). lia.
  - exact (recode_not_out_of_fuel _ H).
Qed.

(** ** ByteCode: what is written is read back *)

Lemma byte_facts x :
  0 <= x < 128 ->
  Z.land x 128 = 0 /\ Z.land x 127 = x
  /\ Z.land (Z.lor x 128) 128 = 128 /\ Z.land (Z.lor x 128) 127 = x.
Proof.
  intros Hx.
  assert (Hall : forallb (fun x => (Z.land x 128 =? 0) && (Z.land x 127 =? x)
                   && (Z.land (Z.lor x 128) 128 =? 128)
                   && (Z.land (Z.lor x 128) 127 =? x)) (seqZ 0 128) = true)
    by (vm_compute; reflexivity).
  rewrite forallb_forall in Hall. specialize (Hall x).
  rewrite <- list_elem_of_In, elem_of_seqZ in Hall. specialize (Hall ltac:(lia)).
  rewrite !andb_true_iff, !Z.eqb_eq in Hall. tauto.
Qed.

Lemma encode_length n v : (1 <= length (ByteCode.encode n v))%nat.
Proof. destruct n; simpl; [lia |]. destruct (_ <? _); simpl; lia. Qed.

Lemma decode_encode n : forall v rest shift,
  0 <= v -> 0 <= shift -> Z.log2 v <= Z.of_nat n ->
  ByteCode.decode (ByteCode.encode n v ++ rest) shift
  = Some (Z.shiftl v shift, Z.of_nat (length (ByteCode.encode n v))).
Proof.
  unfold ByteCode.DATA_MASK, ByteCode.NEXT_BYTE, ByteCode.DATA_BITS.
  induction n as [|n IH]; intros v rest shift Hv Hshift Hlog.
  - assert (Hsmall : 0 <= v < 128).
    { destruct (Z.eq_dec v 0) as [->|]; [lia |].
      pose proof (Z.log2_spec v ltac:(lia)) as Hs.
      assert (Z.log2 v = 0) by (pose proof (Z.log2_nonneg v); lia).
      replace (Z.log2 v) with 0 in Hs by lia. simpl in Hs. lia. }
    destruct (byte_facts v Hsmall) as (H1 & H2 & _).
    cbn [ByteCode.encode app ByteCode.decode].
    unfold ByteCode.DATA_MASK, ByteCode.NEXT_BYTE.
    rewrite H1, H2. reflexivity.
  - cbn [ByteCode.encode]. unfold ByteCode.DATA_MASK, ByteCode.NEXT_BYTE, ByteCode.DATA_BITS.
    destruct (Z.ltb_spec 127 v) as [Hbig|Hsmall].
    + assert (Hx : 0 <= Z.land v 127 < 128).
      { change 127 with (Z.ones 7). rewrite Z.land_ones by lia.
        apply Z.mod_pos_bound. lia. }
      destruct (byte_facts _ Hx) as (_ & _ & H3 & H4).
      cbn [app ByteCode.decode]. unfold ByteCode.DATA_MASK, ByteCode.NEXT_BYTE, ByteCode.DATA_BITS.
      rewrite H3, H4. simpl (128 =? 0).
      rewrite IH.
      * f_equal. f_equal; [|simpl length; lia].
        rewrite !Z.shiftl_mul_pow2 by lia. rewrite Z.shiftr_div_pow2 by lia.
        change 127 with (Z.ones 7). rewrite Z.land_ones by lia.
        rewrite Z.pow_add_r by lia.
        pose proof (Z.div_mod v (2 ^ 7) ltac:(lia)) as Hdm. nia.
      * apply Z.shiftr_nonneg. exact Hv.
      * lia.
      * rewrite Z.log2_shiftr by lia. lia.
    + destruct (byte_facts v ltac:(lia)) as (H1 & H2 & _).
      cbn [app ByteCode.decode]. unfold ByteCode.DATA_MASK, ByteCode.NEXT_BYTE.
      rewrite H1, H2. reflexivity.
Qed.

(** The bytes of a number. *)
Lemma write_app pre v :
  ByteCode.write pre v = pre ++ ByteCode.write [] v.
Proof. reflexivity. Qed.

Lemma write_longer v : 1 <= vsize (ByteCode.write [] v).
Proof. unfold vsize, ByteCode.write. simpl. pose proof (encode_length (Z.to_nat (Z.log2 v)) v). lia. Qed.

Lemma read_write pre v rest :
  u64 v ->
  ByteCode.read (pre ++ ByteCode.write [] v ++ rest) (vsize pre)
  = Some (v, vsize pre + vsize (ByteCode.write [] v)).
Proof.
  intros Hv. unfold ByteCode.read, ByteCode.write, vsize. simpl app.
  rewrite Nat2Z.id, drop_app_length.
  rewrite decode_encode.
  - rewrite Z.shiftl_0_r, (wrap64_small v Hv). reflexivity.
  - unfold u64 in Hv. lia.
  - lia.
  - pose proof (Z.log2_nonneg v). lia.
Qed.

(** ** Run: what is written is read back *)

Lemma run_write_app c pre run : Run.write c pre run = pre ++ Run.write c [] run.
Proof.
  unfold Run.write.
  destruct (Run.sigma c =? 1); [apply write_app |].
  destruct (Run.run_continues c =? 0).
  { rewrite (write_app (ByteCode.write pre _)), (write_app pre),
      (write_app (ByteCode.write [] _)), <- app_assoc. reflexivity. }
  destruct (run.2 <? Run.run_continues c); [reflexivity |].
  rewrite (write_app (pre ++ _)), (write_app ([] ++ _)), <- app_assoc. reflexivity.
Qed.

Lemma packed_byte sigma rank k :
  0 <= rank < sigma -> 0 <= k ->
  (rank + sigma * k) mod sigma = rank /\ (rank + sigma * k) / sigma = k.
Proof.
  intros Hr Hk. rewrite (Z.mul_comm sigma k). split.
  - rewrite Z_mod_plus_full. apply Z.mod_small. exact Hr.
  - rewrite Z_div_plus_full by lia. rewrite Z.div_small by exact Hr. lia.
Qed.

Lemma at_index_middle {A} (pre : list A) x rest :
  at_index (pre ++ x :: rest) (vsize pre) = Some x.
Proof.
  apply at_index_Some. unfold vsize. split; [lia |].
  rewrite Nat2Z.id. apply list_lookup_middle. reflexivity.
Qed.

Lemma vsize_app {A} (l l' : list A) : vsize (l ++ l') = vsize l + vsize l'.
Proof. unfold vsize. rewrite length_app. lia. Qed.

Lemma run_read_write sigma pre run rest :
  1 <= sigma < 2 ^ 64 -> valid_run sigma run ->
  Run.read (Run.make sigma) (pre ++ Run.write (Run.make sigma) [] run ++ rest) (vsize pre)
  = Some (run, vsize pre + vsize (Run.write (Run.make sigma) [] run))
  /\ 1 <= vsize (Run.write (Run.make sigma) [] run).
Proof.
  intros Hsigma [Hrank Hlen]. destruct run as [rank len]. cbn [fst snd] in Hrank, Hlen.
  unfold Run.read, Run.write, Run.make. cbn [Run.sigma Run.run_continues fst snd].
  assert (Hpred : wrap64 (len - 1) = len - 1) by (apply wrap64_small; unfold u64; lia).
  assert (Hsucc : wrap64 (len - 1 + 1) = len).
  { replace (len - 1 + 1) with len by lia. apply wrap64_small. unfold u64. lia. }
  destruct (Z.eqb_spec sigma 1) as [->|Hne].
  { assert (rank = 0) as -> by lia.
    rewrite Hpred, read_write by (unfold u64; lia). rewrite Hsucc.
    split; [reflexivity | apply write_longer]. }
  destruct (Z.ltb_spec sigma 255) as [Hsmall|Hbig].
  2:{ cbn [Z.eqb]. rewrite Hpred.
      rewrite (write_app (ByteCode.write [] rank)), <- app_assoc.
      rewrite read_write by (unfold u64; lia).
      rewrite (app_assoc pre).
      replace (vsize pre + vsize (ByteCode.write [] rank))
        with (vsize (pre ++ ByteCode.write [] rank)) by apply vsize_app.
      rewrite read_write by (unfold u64; lia). rewrite Hsucc.
      split.
      - do 2 f_equal. rewrite !vsize_app. lia.
      - rewrite vsize_app. pose proof (write_longer rank).
        pose proof (write_longer (len - 1)). lia. }
  assert (Hrc : 1 <= 256 / sigma).
  { apply Z.div_le_lower_bound; lia. }
  destruct (Z.eqb_spec (256 / sigma) 0) as [|_]; [lia |].
  destruct (Z.ltb_spec len (256 / sigma)) as [Hshort|Hlong].
  - rewrite Hpred. cbn [app]. rewrite at_index_middle.
    destruct (packed_byte sigma rank (len - 1) Hrank ltac:(lia)) as [Hm Hd].
    rewrite Hm, Hd.
    destruct (Z.leb_spec (256 / sigma) (len - 1 + 1)); [lia |].
    split; [|reflexivity]. replace (len - 1 + 1) with len by lia. reflexivity.
  - rewrite (write_app ([] ++ _)). cbn [app]. rewrite at_index_middle.
    destruct (packed_byte sigma rank (256 / sigma - 1) Hrank ltac:(lia)) as [Hm Hd].
    rewrite Hm, Hd.
    destruct (Z.leb_spec (256 / sigma) (256 / sigma - 1 + 1)); [|lia].
    replace (pre ++ (rank + sigma * (256 / sigma - 1)) :: ByteCode.write [] (len - 256 / sigma) ++ rest)
      with ((pre ++ [rank + sigma * (256 / sigma - 1)])
            ++ ByteCode.write [] (len - 256 / sigma) ++ rest)
      by (rewrite <- app_assoc; reflexivity).
    replace (vsize pre + 1) with (vsize (pre ++ [rank + sigma * (256 / sigma - 1)]))
      by (rewrite vsize_app; reflexivity).
    rewrite read_write by (unfold u64; lia).
    split.
    + replace (256 / sigma - 1 + 1 + (len - 256 / sigma)) with len by lia.
      rewrite (wrap64_small len) by (unfold u64; lia).
      f_equal. f_equal. rewrite vsize_app. unfold vsize. simpl length. lia.
    + unfold vsize. simpl length. lia.
Qed.

(** ** A record: what is written is read back *)

Lemma write_edges_app edges : forall buf,
  fold_left (fun buf (outedge : Z * Z) =>
               ByteCode.write (ByteCode.write buf outedge.1) outedge.2) edges buf
  = buf ++ edges_bytes edges.
Proof.
  unfold edges_bytes.
  induction edges as [|e edges IH]; intros buf; simpl; [now rewrite app_nil_r |].
  rewrite IH. unfold edge_bytes.
  rewrite (write_app (ByteCode.write buf _)), (write_app buf),
    (write_app (ByteCode.write [] _)), <- !app_assoc. reflexivity.
Qed.

Lemma write_runs_app sigma runs : forall buf,
  fold_left (Run.write (Run.make sigma)) runs buf = buf ++ runs_bytes sigma runs.
Proof.
  unfold runs_bytes.
  induction runs as [|run runs IH]; intros buf; simpl; [now rewrite app_nil_r |].
  rewrite IH, (run_write_app _ buf), <- app_assoc. reflexivity.
Qed.

Lemma record_bytes_eq r :
  record_bytes r
  = ByteCode.write [] (DynamicRecord.outdegree r)
    ++ edges_bytes (DynamicRecord.outgoing r)
    ++ (if 0 <? DynamicRecord.outdegree r
        then runs_bytes (DynamicRecord.outdegree r) (DynamicRecord.body r) else []).
Proof.
  unfold record_bytes, write_record. rewrite write_edges_app.
  destruct (0 <? _); [rewrite write_runs_app, <- app_assoc | rewrite app_nil_r]; reflexivity.
Qed.

Lemma write_record_app buf r : write_record buf r = buf ++ record_bytes r.
Proof.
  unfold record_bytes, write_record. rewrite !write_edges_app.
  destruct (0 <? _).
  - rewrite !write_runs_app, (write_app buf), <- !app_assoc. reflexivity.
  - rewrite (write_app buf), <- !app_assoc. reflexivity.
Qed.

Lemma read_edges_written edges : forall pre rest,
  Forall (fun e : Z * Z => u64 e.1 /\ u64 e.2) edges ->
  read_edges (length edges) (pre ++ edges_bytes edges ++ rest) (vsize pre)
  = Some (edges, vsize pre + vsize (edges_bytes edges)).
Proof.
  unfold edges_bytes.
  induction edges as [|[a b] edges IH]; intros pre rest Hall.
  - simpl. f_equal. f_equal. unfold vsize. simpl. lia.
  - apply Forall_cons in Hall as [[Ha Hb] Hall]. simpl in Ha, Hb.
    assert (He : edge_bytes (a, b) = ByteCode.write [] a ++ ByteCode.write [] b).
    { unfold edge_bytes. cbn [fst snd]. apply write_app. }
    cbn [length read_edges fmap list_fmap concat]. rewrite !He, <- !app_assoc.
    rewrite read_write by exact Ha. cbn [mbind option_bind].
    rewrite (app_assoc pre).
    replace (vsize pre + vsize (ByteCode.write [] a))
      with (vsize (pre ++ ByteCode.write [] a)) by apply vsize_app.
    rewrite read_write by exact Hb. cbn [mbind option_bind].
    rewrite (app_assoc (pre ++ _)).
    replace (vsize (pre ++ ByteCode.write [] a) + vsize (ByteCode.write [] b))
      with (vsize ((pre ++ ByteCode.write [] a) ++ ByteCode.write [] b)) by apply vsize_app.
    rewrite (IH _ rest Hall). cbn [mbind option_bind].
    f_equal. f_equal. rewrite !vsize_app. lia.
Qed.

Lemma runs_bytes_length sigma runs :
  1 <= sigma < 2 ^ 64 -> Forall (valid_run sigma) runs ->
  vsize runs <= vsize (runs_bytes sigma runs).
Proof.
  intros Hsigma. unfold runs_bytes. induction 1 as [|run runs Hrun _ IH].
  - unfold vsize. simpl. lia.
  - cbn [fmap list_fmap concat]. rewrite vsize_app.
    destruct (run_read_write sigma [] run [] Hsigma Hrun) as [_ H1].
    unfold vsize in *. simpl length. lia.
Qed.

Lemma read_body_written sigma runs : forall rounds pre current,
  1 <= sigma < 2 ^ 64 -> Forall (valid_run sigma) runs ->
  (length runs <= rounds)%nat ->
  read_body rounds (Run.make sigma) (pre ++ runs_bytes sigma runs) (vsize pre) current
  = Some (DynamicRecord.mk
            (if runs is [] then DynamicRecord.body_size current
             else wrap64 (DynamicRecord.body_size current + run_lengths runs))
            (DynamicRecord.incoming current) (DynamicRecord.outgoing current)
            (DynamicRecord.body current ++ runs)).
Proof.
  unfold runs_bytes.
  induction runs as [|run runs IH]; intros rounds pre current Hsigma Hall Hrounds.
  - cbn [fmap list_fmap concat]. rewrite app_nil_r.
    destruct rounds; cbn [read_body]; rewrite Z.ltb_irrefl, app_nil_r;
      destruct current; reflexivity.
  - apply Forall_cons in Hall as [Hrun Hall].
    destruct rounds as [|rounds]; [simpl in Hrounds; lia |].
    destruct (run_read_write sigma pre run (concat (Run.write (Run.make sigma) [] <$> runs))
                Hsigma Hrun) as [Hread Hlen].
    cbn [fmap list_fmap concat read_body].
    destruct (Z.ltb_spec (vsize pre)
                (vsize (pre ++ Run.write (Run.make sigma) [] run
                        ++ concat (Run.write (Run.make sigma) [] <$> runs)))) as [_|Hge].
    2:{ rewrite !vsize_app in Hge. unfold vsize in *. lia. }
    rewrite Hread. cbn [mbind option_bind].
    rewrite (app_assoc pre).
    replace (vsize pre + vsize (Run.write (Run.make sigma) [] run))
      with (vsize (pre ++ Run.write (Run.make sigma) [] run)) by apply vsize_app.
    rewrite IH; [|exact Hsigma | exact Hall | simpl in Hrounds; lia].
    cbn [DynamicRecord.body_size DynamicRecord.incoming DynamicRecord.outgoing
         DynamicRecord.body].
    rewrite <- app_assoc. f_equal. f_equal.
    destruct runs as [|run' runs'].
    + unfold run_lengths. simpl. f_equal. lia.
    + rewrite wrap64_add_l. f_equal. rewrite (run_lengths_cons run). lia.
Qed.

Lemma read_record_written r current :
  encodable r -> read_record (record_bytes r) current = Some (reread r).
Proof.
  intros (Hdeg & Hedges & Hruns). unfold read_record.
  rewrite record_bytes_eq.
  set (deg := DynamicRecord.outdegree r) in *.
  assert (Hdeg0 : 0 <= deg) by (unfold deg, DynamicRecord.outdegree, vsize; lia).
  set (body_bytes := if 0 <? deg then runs_bytes deg (DynamicRecord.body r) else []).
  pose proof (read_write [] deg (edges_bytes (DynamicRecord.outgoing r) ++ body_bytes)
                ltac:(unfold u64; lia)) as Hread.
  change (vsize []) with 0 in Hread. cbn [app] in Hread. rewrite Z.add_0_l in Hread.
  rewrite Hread. cbn [mbind option_bind].
  replace (Z.to_nat deg) with (length (DynamicRecord.outgoing r))
    by (unfold deg, DynamicRecord.outdegree, vsize; lia).
  rewrite read_edges_written by exact Hedges. cbn [mbind option_bind app].
  unfold DynamicRecord.outdegree at 1. cbn [DynamicRecord.outgoing].
  fold (DynamicRecord.outdegree r). fold deg.
  unfold reread, DynamicRecord.body_total. fold (run_lengths (DynamicRecord.body r)).
  unfold body_bytes.
  destruct (Z.ltb_spec 0 deg) as [Hpos|Hzero].
  - rewrite app_assoc, <- vsize_app.
    rewrite read_body_written.
    + cbn [DynamicRecord.body_size DynamicRecord.incoming DynamicRecord.outgoing
           DynamicRecord.body DynamicRecord.clear DynamicRecord.empty app].
      destruct (DynamicRecord.body r); reflexivity.
    + lia.
    + exact Hruns.
    + pose proof (runs_bytes_length deg (DynamicRecord.body r) ltac:(lia) Hruns) as Hl.
      rewrite length_app. unfold vsize in Hl. lia.
  - destruct (DynamicRecord.body r) as [|run rest] eqn:Hbody.
    + reflexivity.
    + exfalso. apply Forall_cons in Hruns as [[Hrank _] _]. lia.
Qed.

(** ** The stream: what serialize writes, load reads back *)

Lemma write_records_eq records : forall buf offsets,
  write_records records buf offsets
  = (buf ++ concat (record_bytes <$> records), offsets ++ starts (vsize buf) records).
Proof.
  induction records as [|r rest IH]; intros buf offsets; cbn [write_records].
  - simpl. now rewrite !app_nil_r.
  - rewrite IH, write_record_app, vsize_app. cbn [fmap list_fmap concat starts].
    rewrite <- !app_assoc. reflexivity.
Qed.

Lemma set_all_ones offsets : forall v,
  fold_left sd_vector.set offsets v = sd_vector.mk (sd_vector.size v) (sd_vector.ones v ++ offsets).
Proof.
  induction offsets as [|o offsets IH]; intros v; simpl.
  - rewrite app_nil_r. destruct v. reflexivity.
  - rewrite IH. simpl. rewrite <- app_assoc. reflexivity.
Qed.

Lemma serialize_consistent g s :
  consistent g -> serialize g = Ok s ->
  s = mk_stream (header g)
        (sd_vector.mk (vsize (concat (record_bytes <$> bwt g))) (starts 0 (bwt g)))
        (concat (record_bytes <$> bwt g)).
Proof.
  intros (_ & _ & Hlen) H. unfold serialize in H.
  destruct (Z.ltb_spec (vsize (bwt g)) (effective g)); [lia |].
  rewrite take_ge in H by (unfold vsize in Hlen; lia).
  rewrite write_records_eq in H. cbn [app] in H.
  replace (length (bwt g) - Z.to_nat (effective g))%nat with O in H
    by (unfold vsize in Hlen; lia).
  cbn [replicate] in H. rewrite app_nil_r, set_all_ones in H.
  injection H as <-. reflexivity.
Qed.

Lemma read_bytes_exact (a b : list Z) : read_bytes (vsize a) (a ++ b) = (a, b).
Proof.
  unfold read_bytes, vsize. rewrite Nat2Z.id, take_app_length, drop_app_length.
  replace (length a - length (a ++ b))%nat with O by (rewrite length_app; lia).
  simpl. now rewrite app_nil_r.
Qed.

Lemma starts_length base records : length (starts base records) = length records.
Proof. revert base. induction records as [|r rest IH]; intros base; simpl; auto. Qed.

Lemma read_records_written e node_index records : forall resized comp base,
  length resized = length records ->
  drop (Z.to_nat comp) (sd_vector.ones node_index) = starts base records ->
  0 <= comp -> 0 <= base ->
  vsize (sd_vector.ones node_index) = e ->
  sd_vector.size node_index = base + vsize (concat (record_bytes <$> records)) ->
  sd_vector.size node_index < 2 ^ 64 ->
  Forall encodable records ->
  read_records e node_index resized comp (concat (record_bytes <$> records))
  = Some (reread <$> records).
Proof.
  induction records as [|r rest IH];
    intros resized comp base Hlen Hdrop Hcomp Hbase He Hsize Hmax Hall.
  - destruct resized; [reflexivity | discriminate].
  - destruct resized as [|current resized]; [discriminate |].
    apply Forall_cons in Hall as [Hr Hall].
    cbn [fmap list_fmap concat starts] in *. rewrite vsize_app in Hsize.
    assert (Hones : length (sd_vector.ones node_index)
                    = (Z.to_nat comp + S (length rest))%nat).
    { apply (f_equal length) in Hdrop. rewrite length_drop in Hdrop.
      simpl in Hdrop. rewrite starts_length in Hdrop. lia. }
    assert (Hstart : sd_vector.select_1 node_index (comp + 1) = Some base).
    { unfold sd_vector.select_1. replace (comp + 1 - 1) with comp by lia.
      apply at_index_Some. split; [exact Hcomp |].
      pose proof (lookup_drop (sd_vector.ones node_index) (Z.to_nat comp) 0) as Hl.
      rewrite Hdrop in Hl. simpl in Hl. rewrite Nat.add_0_r in Hl. symmetry. exact Hl. }
    assert (Hnext : drop (Z.to_nat (comp + 1)) (sd_vector.ones node_index)
                    = starts (base + vsize (record_bytes r)) rest).
    { replace (Z.to_nat (comp + 1)) with (Z.to_nat comp + 1)%nat by lia.
      rewrite <- drop_drop, Hdrop. reflexivity. }
    assert (Hstop : (if comp + 1 <? e then sd_vector.select_1 node_index (comp + 2)
                     else Some (sd_vector.size node_index))
                    = Some (base + vsize (record_bytes r))).
    { unfold vsize in He. destruct (Z.ltb_spec (comp + 1) e) as [Hlt|Hge].
      - destruct rest as [|r2 rest2]; [simpl in Hones; lia |].
        unfold sd_vector.select_1. replace (comp + 2 - 1) with (comp + 1) by lia.
        apply at_index_Some. split; [lia |].
        pose proof (lookup_drop (sd_vector.ones node_index) (Z.to_nat (comp + 1)) 0) as Hl.
        rewrite Hnext in Hl. simpl in Hl. rewrite Nat.add_0_r in Hl. symmetry. exact Hl.
      - destruct rest as [|r2 rest2]; [|simpl in Hones; lia].
        simpl in Hsize. unfold vsize in Hsize at 2. simpl in Hsize.
        f_equal. lia. }
    cbn [read_records].
    rewrite Hstart. cbn [mbind option_bind]. rewrite Hstop. cbn [mbind option_bind].
    replace (base + vsize (record_bytes r) - base) with (vsize (record_bytes r)) by lia.
    assert (Hrb : 0 <= vsize (record_bytes r)) by (unfold vsize; lia).
    assert (Hrest0 : 0 <= vsize (concat (record_bytes <$> rest))) by (unfold vsize; lia).
    rewrite wrap64_small by (unfold u64; lia).
    rewrite read_bytes_exact.
    rewrite (read_record_written r current Hr). cbn [mbind option_bind].
    rewrite (IH resized (comp + 1) (base + vsize (record_bytes r))); try assumption.
    + reflexivity.
    + simpl in Hlen. lia.
    + lia.
    + lia.
    + lia.
Qed.

Lemma rebuild_edges_bodies edges : forall g comp g',
  rebuild_edges g comp edges = Some g' -> header g' = header g /\ bodies g' = bodies g.
Proof.
  induction edges as [|[outedge c] rest IH]; intros g comp g' H; cbn [rebuild_edges] in H.
  - injection H as <-. auto.
  - destruct (negb _); [|exact (IH _ _ _ H)].
    apply bind_Some in H as (successor & Hrec & H).
    apply bind_Some in H as (g1 & Hset & H).
    destruct (set_record_same_body _ _ _ _ _ Hrec Hset eq_refl eq_refl) as [Hh1 Hb1].
    destruct (IH _ _ _ H) as [Hh2 Hb2]. split; congruence.
Qed.

Lemma rebuild_incoming_bodies n : forall comp g g',
  rebuild_incoming n comp g = Some g' -> header g' = header g /\ bodies g' = bodies g.
Proof.
  induction n as [|n IH]; intros comp g g' H; cbn [rebuild_incoming] in H.
  - injection H as <-. auto.
  - apply bind_Some in H as (current & _ & H).
    apply bind_Some in H as (counts & _ & H).
    apply bind_Some in H as (g1 & Hedges & H).
    destruct (rebuild_edges_bodies _ _ _ _ Hedges) as [Hh1 Hb1].
    destruct (IH _ _ _ H) as [Hh2 Hb2]. split; congruence.
Qed.

Lemma load_serialize_bodies g0 g s g' :
  consistent g -> Forall encodable (bwt g) ->
  serialize g = Ok s -> vsize (s_bytes s) < 2 ^ 64 ->
  load g0 s = Ok g' ->
  header g' = header g
  /\ bodies g' = (fun r => (wrap64 (DynamicRecord.body_total r), DynamicRecord.body r))
                 <$> bwt g.
Proof.
  intros Hcons Henc Hser Hmax Hload.
  rewrite (serialize_consistent _ _ Hcons Hser) in Hload, Hmax. simpl in Hmax.
  destruct Hcons as (Hoff & Hsig & Hlen).
  unfold load in Hload. cbn [s_header s_index s_bytes] in Hload.
  fold (effective g) in Hload.
  apply bind_Ok in Hload as (records & Hread & Hload).
  apply defined_Ok in Hread. apply defined_Ok in Hload.
  rewrite (read_records_written (effective g) _ (bwt g) _ 0 0) in Hread.
  - injection Hread as <-.
    destruct (rebuild_incoming_bodies _ _ _ _ Hload) as [Hh Hb].
    split; [exact Hh |]. rewrite Hb. unfold bodies. simpl.
    rewrite <- list_fmap_compose. reflexivity.
  - rewrite length_app, length_take, length_replicate. unfold vsize in Hlen. lia.
  - reflexivity.
  - lia.
  - lia.
  - simpl. unfold vsize. rewrite starts_length. exact Hlen.
  - simpl. lia.
  - simpl. exact Hmax.
  - exact Henc.
Qed.

Lemma load_serialize_counted g0 g s g' :
  consistent g -> counted g -> Forall encodable (bwt g) ->
  serialize g = Ok s -> vsize (s_bytes s) < 2 ^ 64 ->
  load g0 s = Ok g' ->
  counted g' /\ consistent g'.
Proof.
  intros Hcons [Hsized Hsize] Henc Hser Hmax Hload.
  destruct (load_serialize_bodies _ _ _ _ Hcons Henc Hser Hmax Hload) as [Hh Hb].
  assert (Hsame : bodies g' = bodies g).
  { rewrite Hb. unfold bodies in *. apply Forall_fmap_ext.
    rewrite Forall_fmap in Hsized. eapply Forall_impl; [exact Hsized |].
    intros r Hr. unfold sized, compose in Hr. simpl in *. f_equal. symmetry. exact Hr. }
  split.
  - unfold counted, size. rewrite Hsame, Hh. auto.
  - eapply same_frame_consistent; [|exact Hcons].
    apply same_frame_header; [exact Hh | exact (bodies_length _ _ Hsame)].
Qed.

(** ** Sample indices *)

Ltac sample_consistent := unfold consistent; vm_compute; repeat split; discriminate.
Ltac sample_I7 := unfold I7; split; [repeat constructor | split; vm_compute; reflexivity].

Lemma empty_index_consistent : consistent empty_index.
Proof. sample_consistent. Qed.

Lemma empty_index_I7 : I7 empty_index.
Proof. sample_I7. Qed.

Lemma index_3_5_consistent : consistent index_3_5.
Proof. sample_consistent. Qed.

Lemma index_3_5_I7 : I7 index_3_5.
Proof. sample_I7. Qed.

Lemma index_2_3_consistent : consistent index_2_3.
Proof. sample_consistent. Qed.

Lemma index_2_3_I7 : I7 index_2_3.
Proof. sample_I7. Qed.

Lemma index_2_3_encodable : Forall encodable (bwt index_2_3).
Proof.
  repeat constructor; try (vm_compute; reflexivity); try (vm_compute; discriminate).
Qed.

(** ** The request that insert makes to resize *)

Lemma scan_text_bounds text symbols : forall i st st',
  scan_text text symbols i st = Some st' ->
  Forall u64 symbols ->
  u64 (sc_max_node st) -> 1 <= sc_min_node st < 2 ^ 64 ->
  u64 (sc_max_node st') /\ 1 <= sc_min_node st' < 2 ^ 64
  /\ ((sc_min_node st' = sc_min_node st /\ sc_max_node st' = sc_max_node st)
      \/ sc_min_node st' <= sc_max_node st').
Proof.
  induction symbols as [|symbol rest IH]; intros i st st' H Hall Hmax Hmin;
    cbn [scan_text] in H.
  - injection H as <-. auto.
  - apply Forall_cons in Hall as [Hsym Hall].
    apply bind_Some in H as (st1 & Hstep & H).
    assert (Hst1 : u64 (sc_max_node st1) /\ 1 <= sc_min_node st1 < 2 ^ 64
                   /\ ((sc_min_node st1 = sc_min_node st /\ sc_max_node st1 = sc_max_node st)
                       \/ sc_min_node st1 <= sc_max_node st1)).
    { unfold scan_symbol in Hstep.
      apply bind_Some in Hstep as ([g1 seqs] & _ & Hstep). injection Hstep as <-.
      cbn [sc_max_node sc_min_node]. unfold u64, ENDMARKER in *.
      destruct (Z.eqb_spec symbol 0); lia. }
    destruct Hst1 as (Hmax1 & Hmin1 & Hrel1).
    destruct (IH _ _ _ H Hall Hmax1 Hmin1) as (Hmax' & Hmin' & Hrel').
    split; [exact Hmax' |]. split; [exact Hmin' |]. lia.
Qed.

Lemma insert_request_accepted g0 g1 (e : bool) mn mx :
  valid_header (header g0) ->
  GBWTHeader.offset (header g1) = GBWTHeader.offset (header g0) ->
  GBWTHeader.alphabet_size (header g1) = GBWTHeader.alphabet_size (header g0) ->
  u64 mx -> 1 <= mn < 2 ^ 64 ->
  let mn0 := if e then wrap64 (Z.lnot 0) else wrap64 (GBWTHeader.offset (header g0) + 1) in
  let mx0 := if e then 0 else wrap64 (sigma g0 - 1) in
  (mn = mn0 /\ mx = mx0) \/ mn <= mx ->
  ~ fails_fatally (resize g1 (wrap64 ((if mx =? 0 then 1 else mn) - 1)) (wrap64 (mx + 1))).
Proof.
  intros (Hoff & Hsig & Hvalid) Ho Ha Hmx Hmn mn0 mx0 Hrel Hfail.
  apply resize_fatal_only_settled in Hfail as [Hpos Hle].
  unfold settled_offset, settled_sigma, sigma in Hpos, Hle. rewrite Ho, Ha in Hpos, Hle.
  subst mn0 mx0. unfold sigma, u64 in *. change (Z.lnot 0) with (-1) in Hrel.
  set (off := GBWTHeader.offset (header g0)) in *.
  set (sg := GBWTHeader.alphabet_size (header g0)) in *.
  assert (Hsg : 0 <= sg) by lia.
  destruct (Z.eqb_spec mx 0) as [Hmx0|Hmx0].
  - replace (wrap64 (1 - 1)) with 0 in * by reflexivity.
    rewrite Hmx0 in *. replace (wrap64 (0 + 1)) with 1 in * by reflexivity.
    rewrite orb_true_r in *. lia.
  - assert (Hno : wrap64 (mn - 1) = mn - 1) by (apply wrap64_small; unfold u64; lia).
    rewrite Hno in *.
    destruct (Z.eq_dec mx (2 ^ 64 - 1)) as [Hfull|Hfull].
    + rewrite Hfull in *. replace (wrap64 (2 ^ 64 - 1 + 1)) with 0 in * by reflexivity.
      rewrite orb_true_r in *. lia.
    + assert (Hns : wrap64 (mx + 1) = mx + 1) by (apply wrap64_small; unfold u64; lia).
      rewrite Hns in *.
      destruct (Z.leb_spec (mx + 1) 1); [lia |]. rewrite orb_false_r in *.
      destruct (Z.ltb_spec 1 sg), (Z.ltb_spec off (mn - 1)); cbn [andb] in *; try lia.
      all: destruct Hrel as [[Hmn_eq Hmx_eq]|Hrel]; try lia.
      all: destruct e; [change (wrap64 (-1)) with (2 ^ 64 - 1) in *; lia |].
      all: assert (Hw1 : wrap64 (off + 1) = off + 1) by (apply wrap64_small; unfold u64; lia).
      all: destruct (Z.eq_dec sg 0) as [Hsg0|Hsg0];
        [rewrite Hsg0 in *; change (wrap64 (0 - 1)) with (2 ^ 64 - 1) in *; lia |].
      all: assert (Hw2 : wrap64 (sg - 1) = sg - 1) by (apply wrap64_small; unfold u64; lia).
      all: lia.
Qed.

Lemma insert_not_fatal fuel g text :
  last text = Some ENDMARKER -> Forall u64 text -> valid_header (header g) ->
  ~ fails_fatally (insert fuel g text).
Proof.
  intros Hlast Hall Hvalid (d & at_exit & Hex).
  unfold insert in Hex. rewrite Hlast in Hex. cbn [ENDMARKER Z.eqb negb] in Hex.
  apply bind_Exit in Hex as [Hex | (st & Hscan & Hex)].
  { exact (defined_not_exit _ _ _ Hex). }
  apply bind_Exit in Hex as [Hex | (g1 & _ & Hex)].
  - apply defined_Ok in Hscan.
    pose proof (scan_text_same _ _ _ _ _ Hscan) as [_ Hsame].
    cbn [sc_index] in Hsame.
    assert (Hmin : 1 <= (if empty g then wrap64 (Z.lnot 0)
                         else wrap64 (GBWTHeader.offset (header g) + 1)) < 2 ^ 64).
    { destruct Hvalid as (Hoff & Hsig & Hcase).
      destruct (empty g); [change (wrap64 (Z.lnot 0)) with (2 ^ 64 - 1); lia |].
      rewrite wrap64_small by (unfold u64; lia). lia. }
    assert (Hmax : u64 (if empty g then 0 else wrap64 (sigma g - 1))).
    { destruct (empty g); [unfold u64; lia | apply wrap64_u64]. }
    destruct (scan_text_bounds _ _ _ _ _ Hscan Hall Hmax Hmin) as (Hmx & Hmn & Hrel).
    cbn [sc_min_node sc_max_node] in Hrel.
    refine (insert_request_accepted g (sc_index st) (empty g) _ _ Hvalid _ _ Hmx Hmn Hrel _).
    + exact (f_equal GBWTHeader.offset Hsame).
    + exact (f_equal GBWTHeader.alphabet_size Hsame).
    + exists d, at_exit. exact Hex.
  - apply bind_Exit in Hex as [Hex | ([n g2] & _ & Hex)].
    { exact (insert_batch_not_exit _ _ _ _ _ _ _ Hex). }
    exact (recode_not_exit _ _ _ Hex).
Qed.

(** * The claims *)

(** C10.  The two-argument [LF] gives the sentinel edge whenever its node is
    not in the alphabet, whatever the records are (there may be none): no
    record is read. *)
Theorem LF_edge_out_of_alphabet (h : GBWTHeader.t) (records : list DynamicRecord.t)
    (from : node_type) (i : size_type) :
  GBWTHeader.alphabet_size h <= from ->
  LF_edge (mk h records) from i = Ok invalid_edge.
Proof.
  intros Hfrom. unfold LF_edge, sigma. simpl.
  destruct (Z.leb_spec (GBWTHeader.alphabet_size h) from); [reflexivity | lia].
Qed.

Lemma LF_edge_out_of_alphabet_witness :
  GBWTHeader.alphabet_size GBWTHeader.default <= 7
  /\ LF_edge (mk GBWTHeader.default []) 7 0 = Ok invalid_edge.
Proof.
  split; [vm_compute; discriminate |].
  apply (LF_edge_out_of_alphabet GBWTHeader.default [] 7 0). vm_compute. discriminate.
Defined.

(** C9.  Inserting the empty text returns the index as it was: header and
    records are the same value. *)
Theorem insert_empty_text (fuel : nat) (g : t) : insert fuel g [] = Ok g.
Proof. reflexivity. Qed.

(** C3, as stated, fails: on an index of offset 2 and alphabet size 6 the
    call [resize 4 3] asks for an offset that is positive and not below the
    alphabet size asked for, and returns without a change. *)
Lemma resize_request_not_rejected :
  0 < 4 /\ 3 <= 4 /\ resize index_3_5 4 3 = Ok index_3_5
  /\ ~ fails_fatally (resize index_3_5 4 3).
Proof.
  repeat split; try lia.
  intros (d & s & H). vm_compute in H. discriminate.
Qed.

(** C3, amended.  [resize] checks the request after it has settled it: the
    offset is the current one when the alphabet has real nodes and the
    request is larger, or when the alphabet asked for has none, and the
    alphabet size is the larger of the current one and the request.  When
    the settled offset is positive and not below the settled alphabet size,
    the call ends the process with the diagnostic, the index untouched. *)
Theorem resize_rejects_settled_offset (g : t) (new_offset new_sigma : size_type) :
  0 < settled_offset g new_offset new_sigma ->
  settled_sigma g new_sigma <= settled_offset g new_offset new_sigma ->
  resize g new_offset new_sigma =
    Exit (CannotSetOffset (settled_offset g new_offset new_sigma)
                          (settled_sigma g new_sigma)) g.
Proof. apply resize_rejects_settled_offset_aux. Qed.

Lemma resize_rejects_settled_offset_witness :
  resize empty_index 5 3 = Exit (CannotSetOffset 5 3) empty_index.
Proof.
  apply (resize_rejects_settled_offset empty_index 5 3); vm_compute; [reflexivity | discriminate].
Defined.

(** C4, as stated, fails: the offset grows.  On the empty index the call
    [resize 1 3], which [insert] makes for the text [2 0], sets the offset
    to 1. *)
Lemma resize_grows_offset :
  resize empty_index 1 3 =
    Ok (mk (GBWTHeader.mk GBWTHeader.TAG GBWTHeader.VERSION 0 0 1 3 0)
           [DynamicRecord.empty; DynamicRecord.empty])
  /\ GBWTHeader.offset (header empty_index) < 1.
Proof. split; vm_compute; reflexivity. Qed.

(** C4, amended.  On an index whose header is consistent with its records, a
    call of [resize] that does not fail returns an index in which: the
    offset is the settled one, that is the current offset when the alphabet
    has real nodes ([sigma > 1]) and the request is larger, or when the
    alphabet asked for has none, and the requested offset otherwise (so the
    offset does not grow once [sigma > 1]); the alphabet size is the larger
    of the old one and the request; the other fields of the header are
    kept; the endmarker record is at 0 as it was; every other record has
    moved from [comp] to [comp + old_offset - new_offset] as it was. *)
Theorem resize_postcondition (g : t) (new_offset new_sigma : size_type) :
  consistent g -> u64 new_offset -> u64 new_sigma ->
  ~ fails_fatally (resize g new_offset new_sigma) ->
  exists g',
    resize g new_offset new_sigma = Ok g'
    /\ GBWTHeader.offset (header g') = settled_offset g new_offset new_sigma
    /\ (1 < sigma g -> GBWTHeader.offset (header g') <= GBWTHeader.offset (header g))
    /\ GBWTHeader.alphabet_size (header g') = Z.max (sigma g) new_sigma
    /\ header g' = GBWTHeader.set_alphabet (header g) (GBWTHeader.offset (header g'))
                                           (GBWTHeader.alphabet_size (header g'))
    /\ consistent g'
    /\ (forall endmarker, at_index (bwt g) 0 = Some endmarker ->
          at_index (bwt g') 0 = Some endmarker)
    /\ (forall comp current, 1 <= comp -> at_index (bwt g) comp = Some current ->
          at_index (bwt g')
            (comp + GBWTHeader.offset (header g) - GBWTHeader.offset (header g'))
          = Some current).
Proof.
  intros Hcons Hno Hns Hok.
  pose proof (consistent_effective g Hcons) as Heff.
  destruct Hcons as (Hoff & Hsig & Hlen).
  assert (Hnofail : ~ (0 < settled_offset g new_offset new_sigma
                       /\ settled_sigma g new_sigma <= settled_offset g new_offset new_sigma)).
  { intros [H1 H2]. apply Hok. eexists _, _.
    apply resize_rejects_settled_offset_aux; assumption. }
  clear Hok. rewrite resize_unfold. cbv zeta.
  set (o := settled_offset g new_offset new_sigma) in *.
  set (s := settled_sigma g new_sigma) in *.
  assert (Ho : o = GBWTHeader.offset (header g) \/ o = new_offset).
  { subst o. unfold settled_offset. destruct (_ || _); auto. }
  assert (Hshrink : 1 < sigma g -> o <= GBWTHeader.offset (header g)).
  { intros H1. subst o. unfold settled_offset.
    destruct (Z.ltb_spec 1 (sigma g)); [|lia].
    destruct (Z.ltb_spec (GBWTHeader.offset (header g)) new_offset); simpl; [lia |].
    destruct (new_sigma <=? 1); lia. }
  assert (Hs : s = Z.max (sigma g) new_sigma) by reflexivity.
  assert (Hrange : 0 <= o /\ o <= s /\ (0 < o -> o < s) /\ s < 2 ^ 64).
  { unfold u64, sigma in *. lia. }
  destruct ((0 <? o) && (s <=? o)) eqn:Hfail.
  { exfalso. apply andb_true_iff in Hfail as [H1 H2]. apply Hnofail. lia. }
  destruct (negb (o =? GBWTHeader.offset (header g)) || negb (s =? sigma g)) eqn:Hchange.
  2:{ apply orb_false_iff in Hchange as [H1 H2].
      apply negb_false_iff, Z.eqb_eq in H1. apply negb_false_iff, Z.eqb_eq in H2.
      exists g. split; [reflexivity |]. split; [symmetry; exact H1 |].
      split; [lia |]. split; [unfold sigma in *; lia |].
      split; [destruct g as [[] ?]; reflexivity |].
      split; [unfold consistent; tauto |].
      split; [tauto |].
      intros comp current _ Hc.
      replace (comp + GBWTHeader.offset (header g) - GBWTHeader.offset (header g))
        with comp by lia.
      exact Hc. }
  clear Hchange.
  destruct (Z.ltb_spec (vsize (bwt g)) (effective g)); [lia |].
  assert (Htake : take (Z.to_nat (effective g)) (bwt g) = bwt g).
  { apply take_ge. unfold vsize in Hlen. lia. }
  rewrite Htake.
  assert (Hw : wrap64 (s - o) = s - o) by (apply wrap64_small; unfold u64; lia).
  rewrite Hw.
  assert (Hcons' : forall moved, vsize moved = s - o ->
            consistent (mk (GBWTHeader.set_alphabet (header g) o s) moved)).
  { intros moved Hm. unfold consistent, effective. simpl. rewrite Hw. lia. }
  destruct (bwt g) as [|endmarker others] eqn:Hbwt.
  - eexists. split; [reflexivity |]. simpl.
    split; [reflexivity |]. split; [exact Hshrink |]. split; [exact Hs |].
    split; [reflexivity |].
    split; [apply Hcons'; unfold vsize; rewrite length_replicate; lia |].
    split.
    + intros e He. discriminate.
    + intros comp current _ Hc. unfold at_index in Hc.
      destruct (0 <=? comp); [rewrite lookup_nil in Hc|]; discriminate.
  - unfold vsize in Hlen. simpl length in Hlen. unfold sigma in *.
    set (new_bwt := replicate (Z.to_nat (s - o)) DynamicRecord.empty).
    assert (Hnew : vsize new_bwt = s - o).
    { unfold vsize, new_bwt. rewrite length_replicate. lia. }
    destruct (set_index new_bwt 0 endmarker) as [w|] eqn:Hset.
    2:{ exfalso. unfold set_index in Hset.
        destruct (Z.ltb_spec 0 (vsize new_bwt)); simpl in Hset; [discriminate | lia]. }
    pose proof (set_index_length _ _ _ _ Hset) as Hwlen.
    apply set_index_Some in Hset as [Hin Hweq].
    assert (Hmoved : exists moved,
      relocate others 1 (GBWTHeader.offset (header g)) o w = Some moved
      /\ vsize moved = vsize w
      /\ (forall k current, others !! k = Some current ->
            at_index moved (1 + Z.of_nat k + GBWTHeader.offset (header g) - o) = Some current)
      /\ at_index moved 0 = at_index w 0).
    { destruct others as [|r rest] eqn:Hothers.
      - exists w. simpl. repeat split; try done.
      - rewrite <- Hothers in *.
        assert (1 < GBWTHeader.alphabet_size (header g)).
        { rewrite Hothers in Hlen. simpl length in Hlen. lia. }
        destruct (relocate_spec others 1 (GBWTHeader.offset (header g)) o w)
          as (moved & Hrel & Hl & Hget & Hkeep); unfold vsize in *; try lia.
        exists moved. repeat split; try assumption. apply Hkeep. lia. }
    destruct Hmoved as (moved & Hrel & Hl & Hget & Hzero).
    cbn [bind defined]. rewrite Hrel. cbn [bind defined].
    eexists. split; [reflexivity |]. simpl.
    split; [reflexivity |]. split; [exact Hshrink |]. split; [exact Hs |].
    split; [reflexivity |].
    split; [apply Hcons'; lia |].
    split.
    + intros e He. unfold at_index in He. simpl in He. injection He as <-.
      rewrite Hzero, Hweq. apply at_index_Some. split; [lia |].
      apply list_lookup_insert_eq. unfold vsize in Hin. simpl. lia.
    + intros comp current Hcomp Hc.
      apply at_index_Some in Hc as [_ Hc].
      replace (Z.to_nat comp) with (S (Z.to_nat (comp - 1))) in Hc by lia.
      simpl in Hc. specialize (Hget _ _ Hc).
      replace (1 + Z.of_nat (Z.to_nat (comp - 1)) + GBWTHeader.offset (header g) - o)
        with (comp + GBWTHeader.offset (header g) - o) in Hget by lia.
      exact Hget.
Qed.

Lemma resize_postcondition_witness :
  consistent index_3_5 /\ u64 1 /\ u64 8
  /\ ~ fails_fatally (resize index_3_5 1 8)
  /\ exists g', resize index_3_5 1 8 = Ok g'
       /\ GBWTHeader.offset (header g') = 1
       /\ GBWTHeader.alphabet_size (header g') = 8
       /\ at_index (bwt g') 2 = Some (DynamicRecord.mk 1 [(0, 1)] [(5, 0)] [(0, 1)]).
Proof.
  assert (Hc : consistent index_3_5).
  { unfold consistent. vm_compute. repeat split; discriminate. }
  assert (H1 : u64 1) by (unfold u64; lia).
  assert (H8 : u64 8) by (unfold u64; lia).
  assert (Hf : ~ fails_fatally (resize index_3_5 1 8)).
  { intros (d & s & H). vm_compute in H. discriminate. }
  split; [exact Hc |]. split; [exact H1 |]. split; [exact H8 |]. split; [exact Hf |].
  destruct (resize_postcondition index_3_5 1 8 Hc H1 H8 Hf)
    as (g' & Hr & Ho & _ & Hs & _ & _ & _ & Hmove).
  exists g'. split; [exact Hr |]. split; [rewrite Ho; reflexivity |].
  split; [rewrite Hs; reflexivity |].
  specialize (Hmove 1 (DynamicRecord.mk 1 [(0, 1)] [(5, 0)] [(0, 1)])).
  rewrite Ho in Hmove. apply Hmove; [lia | reflexivity].
Defined.

(** C5.  A text that is not empty and does not end with the endmarker makes
    [insert] end the process with its diagnostic, the index being at that
    moment what it was at the call; on a text that ends with the endmarker
    [insert] never ends with that diagnostic, and when the header of the
    index is valid and the symbols are 64-bit values it does not end the
    process at all: the request it makes to [resize] is never rejected. *)
Theorem insert_requires_endmarker (fuel : nat) (g : t) (text : text_type) :
  (forall symbol, last text = Some symbol -> symbol <> ENDMARKER ->
     insert fuel g text = Exit TextWithoutEndmarker g)
  /\ (last text = Some ENDMARKER ->
      forall at_exit, insert fuel g text <> Exit TextWithoutEndmarker at_exit)
  /\ (last text = Some ENDMARKER -> Forall u64 text -> valid_header (header g) ->
      ~ fails_fatally (insert fuel g text)).
Proof.
  split; [|split].
  - intros symbol Hlast Hne. unfold insert. rewrite Hlast.
    destruct (Z.eqb_spec symbol ENDMARKER); [contradiction | reflexivity].
  - intros Hlast at_exit Hex. unfold insert in Hex. rewrite Hlast in Hex.
    simpl in Hex.
    apply bind_Exit in Hex as [Hex | (st & _ & Hex)].
    { exact (defined_not_exit _ _ _ Hex). }
    apply bind_Exit in Hex as [Hex | (g1 & _ & Hex)].
    { apply resize_exit_diagnostic in Hex as [Hd _]. discriminate. }
    apply bind_Exit in Hex as [Hex | ([n g2] & _ & Hex)].
    { exact (insert_batch_not_exit _ _ _ _ _ _ _ Hex). }
    exact (recode_not_exit _ _ _ Hex).
  - apply insert_not_fatal.
Qed.

Lemma insert_requires_endmarker_witness :
  insert 4 index_3_5 [3; 5] = Exit TextWithoutEndmarker index_3_5
  /\ insert 4 empty_index [3; 5; 0] <> Exit TextWithoutEndmarker empty_index
  /\ ~ fails_fatally (insert 4 index_3_5 [4; 7; 0]).
Proof.
  split; [|split].
  - apply (proj1 (insert_requires_endmarker 4 index_3_5 [3; 5]) 5);
      [reflexivity | discriminate].
  - apply (proj1 (proj2 (insert_requires_endmarker 4 empty_index [3; 5; 0]))). reflexivity.
  - apply (proj2 (proj2 (insert_requires_endmarker 4 index_3_5 [4; 7; 0]))).
    + reflexivity.
    + repeat constructor; unfold u64; lia.
    + unfold valid_header. cbn. lia.
Defined.

(** C8.  [merge] with an empty index as its argument returns the receiver
    as it was; [merge] into an empty receiver of an index that is not empty
    returns that index, which [compare] reports equal to it. *)
Theorem merge_early_outs (fuel : nat) (g other : t) (batch_size : size_type) :
  (empty other = true -> merge fuel g other batch_size = Ok g)
  /\ (empty other = false -> empty g = true ->
      merge fuel g other batch_size = Ok other
      /\ (effective other <= vsize (bwt other) -> compare other other = Ok true)).
Proof.
  split.
  - intros He. unfold merge. rewrite He. reflexivity.
  - intros Ho Hg. split.
    + unfold merge. rewrite Ho, Hg. unfold copy. destruct other. reflexivity.
    + apply compare_refl.
Qed.

Lemma merge_early_outs_witness :
  merge 4 index_3_5 empty_index 0 = Ok index_3_5
  /\ merge 4 empty_index index_3_5 0 = Ok index_3_5
  /\ compare index_3_5 index_3_5 = Ok true.
Proof.
  split; [|split].
  - apply (proj1 (merge_early_outs 4 index_3_5 empty_index 0)). reflexivity.
  - apply (proj2 (merge_early_outs 4 empty_index index_3_5 0)); reflexivity.
  - destruct (proj2 (merge_early_outs 4 empty_index index_3_5 0)) as [_ Hcmp];
      [reflexivity | reflexivity |].
    apply Hcmp. vm_compute. discriminate.
Defined.





(** C1 fails on the code.  The index built from the text [2 3 0] has offset
    1, and the record of node 3 holds the incoming edge from node 2.
    [serialize] then [load] gives an index whose record of node 3 holds an
    incoming edge from 1, the compacted index of node 2, and [compare]
    reports the two indices different. *)
Theorem load_rebuilds_incoming_by_comp :
  insert 4 empty_index [2; 3; 0] = Ok index_2_3
  /\ (do s <- serialize index_2_3; load empty_index s) = Ok index_2_3_reloaded
  /\ compare index_2_3_reloaded index_2_3 = Ok false
  /\ (DynamicRecord.incoming <$> record index_2_3 3) = Some [(2, 1)]
  /\ (DynamicRecord.incoming <$> record index_2_3_reloaded 3) = Some [(1, 1)].
Proof. repeat split; vm_compute; reflexivity. Qed.

(** C7.  Invariant I7 holds after [insert], after [merge] and after [load]
    of what [serialize] wrote, when it held before: the size in the header
    is the sum of the sizes of the records, each of which is the sum of
    the lengths of the runs of its body, so the size in the header is the
    sum of the lengths of all runs (sums of [size_type]).  The indices are
    those whose header is consistent with the records; the empty index is
    one, with I7.  For [load] the records are encodable: numbers of
    [size_type], runs that name an edge and are not empty. *)
Theorem sizes_agree_after_mutation :
  (forall fuel g text g',
     consistent g -> I7 g -> insert fuel g text = Ok g' -> I7 g' /\ consistent g')
  /\ (forall fuel g other batch_size g',
        consistent g -> I7 g -> consistent other -> I7 other ->
        merge fuel g other batch_size = Ok g' -> I7 g' /\ consistent g')
  /\ (forall g0 g s g',
        consistent g -> I7 g -> Forall encodable (bwt g) ->
        serialize g = Ok s -> vsize (s_bytes s) < 2 ^ 64 ->
        load g0 s = Ok g' -> I7 g' /\ consistent g').
Proof.
  split; [|split].
  - intros fuel g text g' Hcons HI7 Hins. rewrite I7_counted in *.
    exact (insert_counted _ _ _ _ Hcons HI7 Hins).
  - intros fuel g other batch_size g' Hcons HI7 Hcons_o HI7_o Hmerge.
    rewrite I7_counted in *.
    exact (merge_counted _ _ _ _ _ Hcons HI7 Hcons_o HI7_o Hmerge).
  - intros g0 g s g' Hcons HI7 Henc Hser Hmax Hload. rewrite I7_counted in *.
    exact (load_serialize_counted _ _ _ _ Hcons HI7 Henc Hser Hmax Hload).
Qed.

Lemma sizes_agree_after_mutation_witness :
  I7 index_3_5
  /\ (exists g', merge 5 index_3_5 index_2_3 0 = Ok g' /\ I7 g')
  /\ I7 index_2_3_reloaded.
Proof.
  destruct sizes_agree_after_mutation as (Hinsert & Hmerge & Hload).
  split; [|split].
  - refine (proj1 (Hinsert 4%nat empty_index [3; 5; 0] index_3_5
                     empty_index_consistent empty_index_I7 _)).
    vm_compute. reflexivity.
  - eexists. split; [vm_compute; reflexivity |].
    refine (proj1 (Hmerge 5%nat index_3_5 index_2_3 0 _
                     index_3_5_consistent index_3_5_I7
                     index_2_3_consistent index_2_3_I7 _)).
    vm_compute. reflexivity.
  - refine (proj1 (Hload empty_index index_2_3 _ index_2_3_reloaded
                     index_2_3_consistent index_2_3_I7 index_2_3_encodable _ _ _)).
    + vm_compute. reflexivity.
    + vm_compute. reflexivity.
    + vm_compute. reflexivity.
Defined.

(** * Further properties of the operations *)

(** ** resize *)

Lemma resize_layout g new_offset new_sigma g' :
  consistent g -> u64 new_offset -> u64 new_sigma ->
  resize g new_offset new_sigma = Ok g' ->
  exists pad1 pad2,
    header g' = GBWTHeader.set_alphabet (header g) (settled_offset g new_offset new_sigma)
                                        (settled_sigma g new_sigma)
    /\ bwt g' = take 1 (bwt g) ++ replicate pad1 DynamicRecord.empty
                ++ drop 1 (bwt g) ++ replicate pad2 DynamicRecord.empty
    /\ (drop 1 (bwt g) <> [] ->
        Z.of_nat pad1 = GBWTHeader.offset (header g) - settled_offset g new_offset new_sigma)
    /\ (0 < settled_offset g new_offset new_sigma ->
        settled_offset g new_offset new_sigma < settled_sigma g new_sigma)
    /\ consistent g'.
Proof.
  intros Hcons Hno Hns Hres.
  pose proof (consistent_effective g Hcons) as Heff.
  pose proof Hcons as (Hoff & Hsig & Hlen).
  rewrite resize_unfold in Hres. cbv zeta in Hres.
  set (o := settled_offset g new_offset new_sigma) in *.
  set (s := settled_sigma g new_sigma) in *.
  pose proof (settled_offset_shrinks g new_offset new_sigma) as Hshrink.
  pose proof (settled_offset_cases g new_offset new_sigma) as Ho.
  fold o in Hshrink, Ho.
  assert (Hs : s = Z.max (sigma g) new_sigma) by reflexivity.
  destruct ((0 <? o) && (s <=? o)) eqn:Hfail; [discriminate |].
  assert (Hrange : 0 <= o /\ o <= s /\ (0 < o -> o < s) /\ s < 2 ^ 64).
  { apply andb_false_iff in Hfail. unfold u64, sigma in *.
    destruct Hfail as [H|H]; [apply Z.ltb_ge in H | apply Z.leb_gt in H]; lia. }
  destruct (negb (o =? GBWTHeader.offset (header g)) || negb (s =? sigma g)) eqn:Hchange.
  2:{ apply orb_false_iff in Hchange as [H1 H2].
      apply negb_false_iff, Z.eqb_eq in H1. apply negb_false_iff, Z.eqb_eq in H2.
      injection Hres as <-. exists 0%nat, 0%nat.
      split; [rewrite H1, H2; destruct g as [[] ?]; reflexivity |].
      split; [simpl; rewrite app_nil_r; symmetry; apply take_drop |].
      split; [lia |]. split; [tauto | exact Hcons]. }
  destruct (Z.ltb_spec (vsize (bwt g)) (effective g)); [lia |].
  rewrite take_ge in Hres by (unfold vsize in Hlen; lia).
  assert (Hw : wrap64 (s - o) = s - o) by (apply wrap64_small; unfold u64; lia).
  rewrite Hw in Hres.
  assert (Hcons' : forall moved, vsize moved = s - o ->
            consistent (mk (GBWTHeader.set_alphabet (header g) o s) moved)).
  { intros moved Hm. unfold consistent, effective. simpl. rewrite Hw. lia. }
  destruct (bwt g) as [|endmarker others] eqn:Hbwt.
  - injection Hres as <-. exists (Z.to_nat (s - o)), 0%nat. simpl.
    split; [reflexivity |]. split; [now rewrite app_nil_r |].
    split; [congruence |]. split; [tauto |].
    apply Hcons'. unfold vsize. rewrite length_replicate. lia.
  - unfold vsize in Hlen. simpl length in Hlen. unfold sigma in *.
    destruct (Z.to_nat (s - o)) as [|m] eqn:Hm; [lia |].
    change (set_index (replicate (S m) DynamicRecord.empty) 0 endmarker)
      with (Some (endmarker :: replicate m DynamicRecord.empty)) in Hres.
    cbn [bind defined] in Hres.
    destruct others as [|r rest] eqn:Hothers.
    + cbn [relocate bind defined] in Hres. injection Hres as <-.
      exists m, 0%nat. simpl. split; [reflexivity |].
      split; [now rewrite app_nil_r |]. split; [congruence |]. split; [tauto |].
      apply Hcons'. unfold vsize. simpl. rewrite length_replicate. lia.
    + rewrite <- Hothers in *.
      assert (Hlen2 : (2 <= length others)%nat \/ length others = 1%nat).
      { rewrite Hothers. simpl. lia. }
      assert (H1 : 1 < GBWTHeader.alphabet_size (header g)) by lia.
      specialize (Hshrink H1).
      set (d := Z.to_nat (GBWTHeader.offset (header g) - o)).
      set (rest_pad := (m - d - length others)%nat).
      assert (Hsplit : replicate m DynamicRecord.empty
                       = replicate d DynamicRecord.empty
                         ++ replicate (length others) DynamicRecord.empty
                         ++ replicate rest_pad DynamicRecord.empty).
      { rewrite <- !replicate_add. f_equal. unfold rest_pad, d. lia. }
      rewrite Hsplit in Hres.
      pose proof (relocate_shape others 1 (GBWTHeader.offset (header g)) o
                 (endmarker :: replicate d DynamicRecord.empty)
                 (replicate (length others) DynamicRecord.empty)
                 (replicate rest_pad DynamicRecord.empty)) as Hrel.
      cbn [app] in Hrel. rewrite Hrel in Hres.
      * cbn [bind defined] in Hres. injection Hres as <-.
        exists d, rest_pad. simpl. split; [reflexivity |]. split; [reflexivity |].
        split; [unfold d; lia |]. split; [tauto |].
        apply Hcons'. unfold vsize. simpl.
        rewrite !length_app, !length_replicate. unfold rest_pad, d. lia.
      * apply length_replicate.
      * simpl. rewrite length_replicate. unfold d. lia.
      * lia.
      * lia.
      * lia.
      * unfold vsize. lia.
Qed.

Lemma layout_lookup {A} (x : A) l' a b e j :
  (take 1 (x :: l') ++ replicate a e ++ drop 1 (x :: l') ++ replicate b e) !! j
  = if decide (j = 0)%nat then Some x
    else if decide (j <= a)%nat then Some e
    else if decide (j < 1 + a + length l')%nat then l' !! (j - 1 - a)%nat
    else if decide (j < 1 + a + length l' + b)%nat then Some e else None.
Proof.
  change (take 1 (x :: l')) with [x]. change (drop 1 (x :: l')) with l'.
  destruct j as [|j]; [reflexivity |].
  change (([x] ++ replicate a e ++ l' ++ replicate b e) !! S j)
    with ((replicate a e ++ l' ++ replicate b e) !! j).
  destruct (decide (S j = 0)%nat) as [|_]; [lia |].
  destruct (decide (S j <= a)%nat).
  { rewrite lookup_app_l by (rewrite length_replicate; lia).
    apply lookup_replicate_2. lia. }
  rewrite lookup_app_r by (rewrite length_replicate; lia).
  rewrite length_replicate.
  destruct (decide (S j < 1 + a + length l')%nat).
  { rewrite lookup_app_l by lia. f_equal. lia. }
  rewrite lookup_app_r by lia.
  destruct (decide (S j < 1 + a + length l' + b)%nat).
  - apply lookup_replicate_2. lia.
  - apply lookup_ge_None_2. rewrite length_replicate. lia.
Qed.

(** X1.  [resize] is invisible through [record]: on an index whose header
    is consistent with its records, a call that returns keeps every node
    that had a record, with the record it had, gives an empty record to
    every node that is new, and so answers [LF] on the nodes that had a
    record as before. *)
Theorem resize_keeps_nodes (g : t) (new_offset new_sigma : size_type) (g' : t) :
  consistent g -> u64 new_offset -> u64 new_sigma ->
  resize g new_offset new_sigma = Ok g' ->
  (forall node r, has_record g node -> record g node = Some r ->
     has_record g' node /\ record g' node = Some r)
  /\ (forall node, has_record g' node -> ~ has_record g node ->
        record g' node = Some DynamicRecord.empty)
  /\ (forall from i r, has_record g from -> record g from = Some r ->
        LF_edge g' from i = LF_edge g from i).
Proof.
  intros Hcons Hno Hns Hres.
  destruct (resize_layout _ _ _ _ Hcons Hno Hns Hres)
    as (pad1 & pad2 & Hhead & Hbwt & Hpad & Hvalid & Hcons').
  pose proof (settled_offset_shrinks g new_offset new_sigma) as Hshrink.
  pose proof (consistent_effective _ Hcons) as Heff.
  pose proof (consistent_effective _ Hcons') as Heff'.
  destruct Hcons as (Hoff & Hsig & Hlen). destruct Hcons' as (Hoff' & Hsig' & Hlen').
  set (o := settled_offset g new_offset new_sigma) in *.
  assert (Ho : GBWTHeader.offset (header g') = o) by (rewrite Hhead; reflexivity).
  assert (Hs : sigma g' = Z.max (sigma g) new_sigma) by (unfold sigma; rewrite Hhead; reflexivity).
  unfold settled_sigma in Hvalid.
  unfold sigma in *. rewrite Heff in Hlen. rewrite Heff' in Hlen'. rewrite Ho in *.
  unfold vsize in Hlen, Hlen'.
  assert (Hkeep : forall node r, has_record g node -> record g node = Some r ->
            has_record g' node /\ record g' node = Some r).
  { intros node r [Hrange Hnode] Hrec. unfold has_record, record, toComp, sigma, ENDMARKER in *.
    rewrite Ho.
    destruct (Z.eqb_spec node 0) as [->|Hnz].
    - split; [lia |]. unfold at_index in *. cbn [Z.leb Z.to_nat] in *.
      rewrite Hbwt. destruct (bwt g) as [|x l']; [discriminate |]. exact Hrec.
    - assert (o <= GBWTHeader.offset (header g)) by (apply Hshrink; lia).
      split; [lia |].
      rewrite wrap64_small in Hrec by (unfold u64; lia).
      rewrite wrap64_small by (unfold u64; lia).
      unfold at_index in *.
      destruct (Z.leb_spec 0 (node - GBWTHeader.offset (header g))); [|lia].
      destruct (Z.leb_spec 0 (node - o)); [|lia].
      rewrite Hbwt. destruct (bwt g) as [|x l'] eqn:Hl; [rewrite lookup_nil in Hrec; discriminate |].
      destruct l' as [|y l''] eqn:Hl'.
      { apply lookup_lt_Some in Hrec. simpl in Hrec, Hlen. lia. }
      rewrite <- Hl' in *.
      assert (Hp : Z.of_nat pad1 = GBWTHeader.offset (header g) - o).
      { apply Hpad. rewrite Hl'. discriminate. }
      rewrite layout_lookup.
      destruct (decide _) as [|_]; [lia |].
      destruct (decide _) as [|_]; [lia |].
      pose proof (lookup_lt_Some _ _ _ Hrec) as Hlt. simpl in Hlt.
      destruct (decide _) as [_|]; [|lia].
      rewrite <- Hrec.
      replace (Z.to_nat (node - GBWTHeader.offset (header g)))
        with (S (Z.to_nat (node - o) - 1 - pad1)) by lia.
      reflexivity. }
  split; [exact Hkeep |]. split.
  - intros node [Hrange' Hnode'] Hnew. unfold has_record, record, toComp, sigma, ENDMARKER in *.
    rewrite Ho in *.
    assert (Hall : forall j, (j < length (bwt g'))%nat ->
              (j = 0%nat -> bwt g = []) ->
              (drop 1 (bwt g) <> [] -> (0 < j <= pad1)%nat \/ (pad1 + length (bwt g) <= j)%nat) ->
              bwt g' !! j = Some DynamicRecord.empty).
    { intros j Hj Hzero Hplace. rewrite Hbwt in Hj |- *.
      destruct (bwt g) as [|x l'] eqn:Hl.
      - cbn [take drop app] in *. rewrite <- replicate_add in *.
        rewrite length_replicate in Hj. apply lookup_replicate_2. lia.
      - rewrite layout_lookup.
        rewrite !length_app, !length_replicate, length_take, length_drop in Hj.
        simpl in Hj.
        destruct (decide _) as [Hz|_]; [specialize (Hzero Hz); discriminate |].
        destruct (decide _) as [|Hnot1]; [reflexivity |].
        destruct l' as [|y l''] eqn:Hl'.
        + simpl. destruct (decide _) as [|_]; [lia |].
          destruct (decide _) as [|]; [reflexivity | simpl in *; lia].
        + rewrite <- Hl' in *.
          destruct Hplace as [|Hp]; [rewrite Hl'; discriminate | lia |].
          simpl in Hp.
          destruct (decide _) as [|_]; [lia |].
          destruct (decide _) as [|]; [reflexivity | lia]. }
    destruct (Z.eqb_spec node 0) as [->|Hnz].
    + unfold at_index. cbn [Z.leb Z.to_nat]. apply Hall.
      * lia.
      * intros _. destruct (bwt g); [reflexivity |]. simpl in Hlen. exfalso. apply Hnew. lia.
      * intros Hd. destruct (bwt g) as [|x [|y l'']]; try (exfalso; apply Hd; reflexivity).
        simpl in Hlen. exfalso. apply Hnew. lia.
    + rewrite wrap64_small by (unfold u64; lia).
      unfold at_index. destruct (Z.leb_spec 0 (node - o)); [|lia].
      apply Hall.
      * lia.
      * lia.
      * intros Hd.
        assert (Hp : Z.of_nat pad1 = GBWTHeader.offset (header g) - o) by (apply Hpad; exact Hd).
        assert (2 <= length (bwt g))%nat.
        { destruct (bwt g) as [|x [|y l'']]; simpl; try lia; exfalso; apply Hd; reflexivity. }
        assert (o <= GBWTHeader.offset (header g)) by (apply Hshrink; lia).
        destruct (Z.le_gt_cases node (GBWTHeader.offset (header g))); [left; lia |].
        right. assert (GBWTHeader.alphabet_size (header g) <= node) by lia. lia.
  - intros from i r Hhas Hrec.
    destruct (Hkeep _ _ Hhas Hrec) as [[Hrange' _] Hrec'].
    unfold LF_edge. rewrite Hrec, Hrec'. unfold sigma in *.
    destruct Hhas as [Hrange _]. unfold sigma in *.
    destruct (Z.leb_spec (GBWTHeader.alphabet_size (header g')) from); [lia |].
    destruct (Z.leb_spec (GBWTHeader.alphabet_size (header g)) from); [lia |].
    reflexivity.
Qed.

Lemma resize_keeps_nodes_witness :
  exists g',
    resize index_3_5 1 8 = Ok g'
    /\ record g' 5 = record index_3_5 5
    /\ record g' 2 = Some DynamicRecord.empty
    /\ LF_edge g' 3 0 = LF_edge index_3_5 3 0.
Proof.
  eexists. split; [vm_compute; reflexivity |].
  match goal with
  | |- record ?g' _ = _ /\ _ =>
      destruct (resize_keeps_nodes index_3_5 1 8 g' index_3_5_consistent)
        as (Hkeep & Hnew & HLF)
  end.
  - unfold u64. lia.
  - unfold u64. lia.
  - vm_compute. reflexivity.
  - split; [|split].
    + eapply Hkeep; [|reflexivity]. unfold has_record. vm_compute. intuition discriminate.
    + apply Hnew.
      * unfold has_record. vm_compute. intuition discriminate.
      * unfold has_record. vm_compute. intros [_ [H|H]]; discriminate.
    + eapply HLF; [|reflexivity]. unfold has_record. vm_compute. intuition discriminate.
Defined.

Lemma resize_header g new_offset new_sigma g' :
  resize g new_offset new_sigma = Ok g' ->
  GBWTHeader.offset (header g') = settled_offset g new_offset new_sigma
  /\ GBWTHeader.alphabet_size (header g') = settled_sigma g new_sigma
  /\ GBWTHeader.set_alphabet (header g') 0 0 = GBWTHeader.set_alphabet (header g) 0 0
  /\ ~ (0 < settled_offset g new_offset new_sigma
        /\ settled_sigma g new_sigma <= settled_offset g new_offset new_sigma).
Proof.
  intros Hres. rewrite resize_unfold in Hres. cbv zeta in Hres.
  set (o := settled_offset g new_offset new_sigma) in *.
  set (s := settled_sigma g new_sigma) in *.
  destruct ((0 <? o) && (s <=? o)) eqn:Hfail; [discriminate |].
  assert (Hok : ~ (0 < o /\ s <= o)).
  { apply andb_false_iff in Hfail.
    destruct Hfail as [H|H]; [apply Z.ltb_ge in H | apply Z.leb_gt in H]; lia. }
  destruct (negb (o =? GBWTHeader.offset (header g)) || negb (s =? sigma g)) eqn:Hchange.
  - destruct (vsize (bwt g) <? effective g); [discriminate |].
    destruct (take _ (bwt g)) as [|endmarker others].
    + injection Hres as <-. simpl. auto.
    + apply bind_Ok in Hres as (w & _ & Hres).
      apply bind_Ok in Hres as (moved & _ & Hres).
      injection Hres as <-. simpl. auto.
  - apply orb_false_iff in Hchange as [H1 H2].
    apply negb_false_iff, Z.eqb_eq in H1. apply negb_false_iff, Z.eqb_eq in H2.
    injection Hres as <-. unfold sigma in *. auto.
Qed.

(** X2.  [resize] is idempotent: when a call returns, the same call on the
    index it returned changes nothing. *)
Theorem resize_idempotent (g : t) (new_offset new_sigma : size_type) (g' : t) :
  resize g new_offset new_sigma = Ok g' ->
  resize g' new_offset new_sigma = Ok g'.
Proof.
  intros Hres. destruct (resize_header _ _ _ _ Hres) as (Ho & Hs & _ & Hok).
  rewrite resize_unfold. cbv zeta.
  assert (Ho' : settled_offset g' new_offset new_sigma = GBWTHeader.offset (header g')).
  { rewrite Ho. unfold settled_offset, settled_sigma, sigma in *. rewrite Ho, Hs.
    unfold settled_offset.
    destruct (Z.ltb_spec 1 (GBWTHeader.alphabet_size (header g)));
      destruct (Z.ltb_spec (GBWTHeader.offset (header g)) new_offset);
      destruct (Z.leb_spec new_sigma 1); cbn [andb orb];
      repeat match goal with
             | |- context [Z.ltb ?a ?b] => destruct (Z.ltb_spec a b)
             | |- context [Z.leb ?a ?b] => destruct (Z.leb_spec a b)
             end; cbn [andb orb]; try reflexivity; lia. }
  assert (Hs' : settled_sigma g' new_sigma = sigma g').
  { unfold settled_sigma, sigma in *. rewrite Hs. lia. }
  rewrite Ho', Hs'. unfold sigma in *.
  destruct ((0 <? GBWTHeader.offset (header g'))
            && (GBWTHeader.alphabet_size (header g') <=? GBWTHeader.offset (header g'))) eqn:Hfail.
  { exfalso. apply andb_true_iff in Hfail as [H1 H2].
    apply Z.ltb_lt in H1. apply Z.leb_le in H2. apply Hok. lia. }
  rewrite !Z.eqb_refl. reflexivity.
Qed.

Lemma resize_idempotent_witness :
  exists g', resize index_3_5 1 8 = Ok g' /\ resize g' 1 8 = Ok g'.
Proof.
  eexists. split; [vm_compute; reflexivity |].
  apply (resize_idempotent index_3_5). vm_compute. reflexivity.
Defined.

Lemma resize_returns g new_offset new_sigma :
  consistent g -> u64 new_offset -> u64 new_sigma ->
  ~ fails_fatally (resize g new_offset new_sigma) ->
  exists g', resize g new_offset new_sigma = Ok g'.
Proof.
  intros Hcons Hno Hns Hok.
  pose proof (consistent_effective g Hcons) as Heff.
  destruct Hcons as (Hoff & Hsig & Hlen).
  assert (Hnofail : ~ (0 < settled_offset g new_offset new_sigma
                       /\ settled_sigma g new_sigma <= settled_offset g new_offset new_sigma)).
  { intros [H1 H2]. apply Hok. eexists _, _.
    apply resize_rejects_settled_offset_aux; assumption. }
  clear Hok. rewrite resize_unfold. cbv zeta.
  pose proof (settled_offset_shrinks g new_offset new_sigma) as Hshrink.
  pose proof (settled_offset_cases g new_offset new_sigma) as Ho.
  set (o := settled_offset g new_offset new_sigma) in *.
  set (s := settled_sigma g new_sigma) in *.
  assert (Hs : s = Z.max (sigma g) new_sigma) by reflexivity.
  assert (Hrange : 0 <= o /\ o <= s /\ (0 < o -> o < s) /\ s < 2 ^ 64).
  { unfold u64, sigma in *. lia. }
  destruct ((0 <? o) && (s <=? o)) eqn:Hfail.
  { exfalso. apply andb_true_iff in Hfail as [H1 H2]. apply Hnofail. lia. }
  destruct (negb (o =? GBWTHeader.offset (header g)) || negb (s =? sigma g));
    [|eexists; reflexivity].
  destruct (Z.ltb_spec (vsize (bwt g)) (effective g)); [lia |].
  rewrite take_ge by (unfold vsize in Hlen; lia).
  assert (Hw : wrap64 (s - o) = s - o) by (apply wrap64_small; unfold u64; lia).
  rewrite Hw.
  destruct (bwt g) as [|endmarker others] eqn:Hbwt; [eexists; reflexivity |].
  unfold vsize in Hlen. simpl length in Hlen. unfold sigma in *.
  set (new_bwt := replicate (Z.to_nat (s - o)) DynamicRecord.empty).
  assert (Hnew : vsize new_bwt = s - o).
  { unfold vsize, new_bwt. rewrite length_replicate. lia. }
  destruct (set_index new_bwt 0 endmarker) as [w|] eqn:Hset.
  2:{ exfalso. unfold set_index in Hset.
      destruct (Z.ltb_spec 0 (vsize new_bwt)); simpl in Hset; [discriminate | lia]. }
  pose proof (set_index_length _ _ _ _ Hset) as Hwlen.
  cbn [bind defined].
  destruct others as [|r rest] eqn:Hothers; [eexists; reflexivity |].
  rewrite <- Hothers in *.
  assert (1 < GBWTHeader.alphabet_size (header g)).
  { rewrite Hothers in Hlen. simpl length in Hlen. lia. }
  destruct (relocate_spec others 1 (GBWTHeader.offset (header g)) o w)
    as (moved & Hrel & _); unfold vsize in *; try lia.
  rewrite Hrel. eexists. reflexivity.
Qed.

(** X3.  [resize] accepts every request that is itself a valid pair of
    header values: on an index whose header is valid and consistent with
    its records, a request with [new_offset = 0] or [new_offset <
    new_sigma] returns, and the index it returns has a valid header that is
    consistent with its records. *)
Theorem resize_accepts_valid_request (g : t) (new_offset new_sigma : size_type) :
  consistent g -> valid_header (header g) -> u64 new_offset -> u64 new_sigma ->
  new_offset = 0 \/ new_offset < new_sigma ->
  exists g',
    resize g new_offset new_sigma = Ok g'
    /\ consistent g' /\ valid_header (header g').
Proof.
  intros Hcons Hvalid Hno Hns Hreq.
  assert (Hok : ~ fails_fatally (resize g new_offset new_sigma)).
  { intros Hfail. apply resize_fatal_only_settled in Hfail as [Hpos Hle].
    destruct Hvalid as (Hoff & Hsig & Hcase).
    destruct (settled_offset_cases g new_offset new_sigma) as [Ho|Ho];
      rewrite Ho in *; unfold settled_sigma, sigma in *; lia. }
  destruct (resize_returns g new_offset new_sigma Hcons Hno Hns Hok) as [g' Hres].
  exists g'. split; [exact Hres |].
  destruct (resize_layout _ _ _ _ Hcons Hno Hns Hres)
    as (pad1 & pad2 & Hhead & _ & _ & Hv & Hcons').
  split; [exact Hcons' |].
  destruct Hcons' as (Hoff' & Hsig' & _).
  unfold valid_header. rewrite Hhead in *. cbn [GBWTHeader.set_alphabet
    GBWTHeader.offset GBWTHeader.alphabet_size] in *.
  lia.
Qed.

Lemma resize_accepts_valid_request_witness :
  exists g', resize index_3_5 1 8 = Ok g' /\ consistent g' /\ valid_header (header g').
Proof.
  apply (resize_accepts_valid_request index_3_5 1 8).
  - exact index_3_5_consistent.
  - unfold valid_header. cbn. lia.
  - unfold u64. lia.
  - unfold u64. lia.
  - right. lia.
Defined.

Lemma sumZ_replicate_empty_runs n :
  sumZ (DynamicRecord.runs <$> replicate n DynamicRecord.empty) = 0.
Proof. induction n as [|n IH]; [reflexivity |]. simpl. exact IH. Qed.

(** X4.  [resize] keeps the counts: on an index whose header is consistent
    with its records, a call that returns changes neither the number of
    sequences, nor the size, nor the number of runs that [runs] adds up,
    and only the offset and the alphabet size of the header. *)
Theorem resize_keeps_counts (g : t) (new_offset new_sigma : size_type) (g' : t) :
  consistent g -> u64 new_offset -> u64 new_sigma ->
  resize g new_offset new_sigma = Ok g' ->
  sequences g' = sequences g /\ size g' = size g /\ runs g' = runs g
  /\ header g' = GBWTHeader.set_alphabet (header g) (GBWTHeader.offset (header g'))
                                         (GBWTHeader.alphabet_size (header g')).
Proof.
  intros Hcons Hno Hns Hres.
  destruct (resize_layout _ _ _ _ Hcons Hno Hns Hres)
    as (pad1 & pad2 & Hhead & Hbwt & _ & _ & _).
  unfold sequences, size, runs. rewrite Hhead, Hbwt.
  split; [reflexivity |]. split; [reflexivity |]. split; [|reflexivity].
  f_equal. rewrite !fmap_app, !sumZ_app, !sumZ_replicate_empty_runs.
  rewrite <- (take_drop 1 (bwt g)) at 3. rewrite fmap_app, sumZ_app. lia.
Qed.

Lemma resize_keeps_counts_witness :
  exists g',
    resize index_3_5 1 8 = Ok g'
    /\ sequences g' = sequences index_3_5 /\ size g' = size index_3_5
    /\ runs g' = runs index_3_5.
Proof.
  eexists. split; [vm_compute; reflexivity |].
  match goal with
  | |- sequences ?g' = _ /\ _ =>
      destruct (resize_keeps_counts index_3_5 1 8 g' index_3_5_consistent)
        as (Hseq & Hsize & Hruns & _)
  end.
  - unfold u64. lia.
  - unfold u64. lia.
  - vm_compute. reflexivity.
  - auto.
Defined.

(** ** compare *)

Lemma compare_records_decides n : forall a b,
  (n <= length a)%nat -> (n <= length b)%nat ->
  compare_records n a b = Ok (bool_decide (take n a = take n b)).
Proof.
  induction n as [|n IH]; intros a b Ha Hb.
  - reflexivity.
  - destruct a as [|x a]; [simpl in Ha; lia |]. destruct b as [|y b]; [simpl in Hb; lia |].
    simpl in Ha, Hb. cbn [compare_records take]. unfold DynamicRecord.equal.
    destruct (decide (x = y)) as [->|Hne].
    + rewrite bool_decide_eq_true_2 by reflexivity.
      rewrite IH by lia. f_equal. apply bool_decide_ext. split; intros H; [congruence|].
      injection H as H. exact H.
    + rewrite bool_decide_eq_false_2 by exact Hne.
      f_equal. symmetry. apply bool_decide_eq_false_2. intros H. injection H as H _. auto.
Qed.

Lemma compare_first g1 g2 :
  effective g1 <= vsize (bwt g1) -> effective g1 <= vsize (bwt g2) ->
  compare g1 g2
  = Ok (bool_decide (header g1 = header g2
                     /\ take (Z.to_nat (effective g1)) (bwt g1)
                        = take (Z.to_nat (effective g1)) (bwt g2))).
Proof.
  intros H1 H2. unfold vsize in *. unfold compare, GBWTHeader.equal.
  destruct (decide (header g1 = header g2)) as [Heq|Hne].
  - rewrite bool_decide_eq_true_2 by exact Heq. cbn [negb].
    rewrite compare_records_decides by lia.
    f_equal. apply bool_decide_ext. tauto.
  - rewrite bool_decide_eq_false_2 by exact Hne. cbn [negb].
    f_equal. symmetry. apply bool_decide_eq_false_2. tauto.
Qed.

(** X5.  [compare] decides the equality of two indices up to the records it
    looks at: when both vectors hold the records of the effective alphabet
    of the receiver, it reports true exactly when the headers are equal and
    the records at every compacted index below [effective] are equal;
    records beyond are not looked at, and the answer does not depend on
    which of the two is the receiver. *)
Theorem compare_decides (g another : t) :
  effective g <= vsize (bwt g) -> effective g <= vsize (bwt another) ->
  compare g another
  = Ok (bool_decide (header g = header another
                     /\ take (Z.to_nat (effective g)) (bwt g)
                        = take (Z.to_nat (effective g)) (bwt another)))
  /\ compare another g = compare g another.
Proof.
  intros Hg Ha. unfold vsize in *.
  pose proof compare_first as Hfirst.
  split; [apply Hfirst; unfold vsize; lia |].
  rewrite (Hfirst g another) by (unfold vsize; lia).
  unfold compare at 1. unfold GBWTHeader.equal.
  destruct (decide (header another = header g)) as [Heq|Hne].
  - rewrite bool_decide_eq_true_2 by exact Heq. cbn [negb].
    assert (He : effective another = effective g) by (unfold effective; rewrite Heq; reflexivity).
    rewrite He, compare_records_decides by lia.
    f_equal. apply bool_decide_ext. split; [intros H; split; congruence | intros [_ H]; congruence].
  - rewrite bool_decide_eq_false_2 by exact Hne. cbn [negb].
    f_equal. symmetry. apply bool_decide_eq_false_2. intros [H _]. congruence.
Qed.

Lemma compare_decides_witness :
  compare index_2_3 index_2_3_reloaded = Ok false
  /\ compare index_2_3_reloaded index_2_3 = compare index_2_3 index_2_3_reloaded.
Proof.
  destruct (compare_decides index_2_3 index_2_3_reloaded) as [Hcmp Hsym].
  - vm_compute. discriminate.
  - vm_compute. discriminate.
  - split; [|exact Hsym]. rewrite Hcmp. reflexivity.
Defined.

(** ** serialize and load *)

Lemma starts_lookup records : forall base k r,
  records !! k = Some r ->
  starts base records !! k
  = Some (base + vsize (concat (record_bytes <$> take k records))).
Proof.
  induction records as [|x rest IH]; intros base k r Hk; [discriminate |].
  destruct k as [|k].
  - simpl. f_equal. unfold vsize. simpl. lia.
  - simpl in Hk. cbn [starts take fmap list_fmap concat].
    change ((base :: starts (base + vsize (record_bytes x)) rest) !! S k)
      with (starts (base + vsize (record_bytes x)) rest !! k).
    rewrite (IH _ _ _ Hk). f_equal. rewrite vsize_app. lia.
Qed.

Lemma concat_records_split (records : list DynamicRecord.t) k r :
  records !! k = Some r ->
  concat (record_bytes <$> records)
  = concat (record_bytes <$> take k records) ++ record_bytes r
    ++ concat (record_bytes <$> drop (S k) records).
Proof.
  intros Hk. rewrite <- (take_drop_middle _ _ _ Hk) at 1.
  rewrite fmap_app, concat_app. reflexivity.
Qed.

(** X6.  The node index that [serialize] writes delimits the encodings of
    the records: on an index whose header is consistent with its records
    [serialize] returns, the stream carries the header, the bitvector is as
    long as the bytes, and for the record at every compacted index the
    select query that [load] makes gives the offset at which the bytes of
    that record start, the next query (or the length of the bitvector for
    the last record) gives the offset at which they end, and the encoding
    takes at least one byte, so the offsets handed to the builder are
    strictly increasing. *)
Theorem serialize_delimits_records (g : t) :
  consistent g ->
  exists s,
    serialize g = Ok s
    /\ s_header s = header g
    /\ sd_vector.size (s_index s) = vsize (s_bytes s)
    /\ forall comp r, at_index (bwt g) comp = Some r ->
         exists start,
           sd_vector.select_1 (s_index s) (comp + 1) = Some start
           /\ 0 <= start
           /\ 1 <= vsize (write_record [] r)
           /\ (if comp + 1 <? effective g then sd_vector.select_1 (s_index s) (comp + 2)
               else Some (sd_vector.size (s_index s)))
              = Some (start + vsize (write_record [] r))
           /\ take (length (write_record [] r)) (drop (Z.to_nat start) (s_bytes s))
              = write_record [] r.
Proof.
  intros Hcons.
  assert (Hser : exists s, serialize g = Ok s).
  { destruct Hcons as (_ & _ & Hlen). unfold serialize.
    destruct (Z.ltb_spec (vsize (bwt g)) (effective g)); [lia |].
    destruct (write_records _ _ _). eexists. reflexivity. }
  destruct Hser as [s Hser]. exists s. split; [exact Hser |].
  rewrite (serialize_consistent _ _ Hcons Hser).
  cbn [s_header s_index s_bytes sd_vector.size].
  split; [reflexivity |]. split; [reflexivity |].
  intros comp r Hr. apply at_index_Some in Hr as [Hcomp Hr].
  fold (record_bytes r).
  set (pre := concat (record_bytes <$> take (Z.to_nat comp) (bwt g))).
  exists (vsize pre).
  assert (Hlong : 1 <= vsize (record_bytes r)).
  { rewrite record_bytes_eq, vsize_app.
    pose proof (write_longer (DynamicRecord.outdegree r)). unfold vsize in *. lia. }
  unfold sd_vector.select_1. cbn [sd_vector.ones].
  split.
  { replace (comp + 1 - 1) with comp by lia.
    apply at_index_Some. split; [lia |].
    rewrite (starts_lookup _ _ _ _ Hr). reflexivity. }
  split; [unfold vsize; lia |]. split; [exact Hlong |].
  destruct Hcons as (_ & _ & Hlen).
  pose proof (lookup_lt_Some _ _ _ Hr) as Hlt.
  split.
  - destruct (Z.ltb_spec (comp + 1) (effective g)) as [Hnext|Hlast].
    + replace (comp + 2 - 1) with (comp + 1) by lia.
      apply at_index_Some. split; [lia |].
      destruct (lookup_lt_is_Some_2 (bwt g) (Z.to_nat (comp + 1))) as [r' Hr'].
      { unfold vsize in Hlen. lia. }
      rewrite (starts_lookup _ _ _ _ Hr'). f_equal.
      replace (Z.to_nat (comp + 1)) with (S (Z.to_nat comp)) by lia.
      rewrite (take_S_r _ _ _ Hr), fmap_app, concat_app. cbn [fmap list_fmap concat].
      rewrite app_nil_r, vsize_app. fold pre. lia.
    + f_equal. rewrite (concat_records_split _ _ _ Hr). fold pre.
      rewrite drop_ge by (unfold vsize in Hlen; lia).
      cbn [fmap list_fmap concat]. rewrite app_nil_r, vsize_app. reflexivity.
  - rewrite (concat_records_split _ _ _ Hr). fold pre.
    unfold vsize. rewrite Nat2Z.id, drop_app_length, take_app_length. reflexivity.
Qed.

Lemma serialize_delimits_records_witness :
  exists s,
    serialize index_2_3 = Ok s
    /\ s_header s = header index_2_3
    /\ sd_vector.size (s_index s) = vsize (s_bytes s).
Proof.
  destruct (serialize_delimits_records index_2_3 index_2_3_consistent)
    as (s & Hser & Hhead & Hsize & _).
  exists s. auto.
Defined.

Lemma run_counts_defined b : forall counts,
  Forall (fun run : run_type => 0 <= run.1 < vsize counts) b ->
  is_Some (run_counts b counts).
Proof.
  induction b as [|run rest IH]; intros counts Hall; cbn [run_counts].
  - eexists. reflexivity.
  - apply Forall_cons in Hall as [Hrun Hall].
    destruct (at_index_is_Some counts run.1 Hrun) as [c Hc]. rewrite Hc. cbn.
    destruct (set_index counts run.1 (wrap64 (c + run.2))) as [counts'|] eqn:Hset.
    + cbn. apply IH. rewrite (set_index_length _ _ _ _ Hset). exact Hall.
    + exfalso. unfold set_index in Hset.
      destruct (Z.leb_spec 0 run.1); [|lia].
      destruct (Z.ltb_spec run.1 (vsize counts)); [discriminate | lia].
Qed.

Lemma record_is_Some g g' node :
  header g' = header g -> length (bwt g') = length (bwt g) ->
  is_Some (record g node) -> is_Some (record g' node).
Proof.
  intros Hh Hl [r Hr]. unfold record in *. rewrite (toComp_header g g' node Hh).
  apply at_index_lt in Hr. apply at_index_is_Some. unfold vsize in *. lia.
Qed.

Lemma set_record_stored g node old r g' :
  record g node = Some old ->
  set_record g node r = Some g' ->
  stored r = stored old ->
  header g' = header g /\ stored <$> bwt g' = stored <$> bwt g.
Proof.
  intros Hrec Hset Hst.
  apply record_Some in Hrec as [_ Hold].
  apply set_record_Some in Hset as [_ ->]. split; [reflexivity |]. simpl.
  rewrite list_fmap_insert, Hst. apply list_insert_id.
  rewrite list_lookup_fmap, Hold. reflexivity.
Qed.

Lemma rebuild_edges_stored edges : forall g comp,
  Forall (fun p : edge_type * size_type => p.1.1 = ENDMARKER \/ is_Some (record g p.1.1)) edges ->
  exists g',
    rebuild_edges g comp edges = Some g'
    /\ header g' = header g /\ stored <$> bwt g' = stored <$> bwt g.
Proof.
  induction edges as [|[outedge c] rest IH]; intros g comp Hall; cbn [rebuild_edges].
  - exists g. auto.
  - apply Forall_cons in Hall as [Hedge Hall]. cbn [fst] in Hedge.
    destruct (Z.eqb_spec outedge.1 ENDMARKER) as [Hend|Hreal]; cbn [negb].
    + apply IH. exact Hall.
    + destruct Hedge as [|[successor Hrec]]; [contradiction |].
      rewrite Hrec. cbn.
      destruct (set_record g outedge.1 (DynamicRecord.addIncoming successor (comp, c)))
        as [g1|] eqn:Hset.
      2:{ exfalso. apply record_Some in Hrec as [H0 Hl]. apply lookup_lt_Some in Hl.
          unfold set_record, set_index in Hset.
          destruct (Z.leb_spec 0 (toComp g outedge.1)); [|lia].
          destruct (Z.ltb_spec (toComp g outedge.1) (vsize (bwt g)));
            [discriminate | unfold vsize in *; lia]. }
      cbn.
      destruct (set_record_stored _ _ _ _ _ Hrec Hset eq_refl) as [Hh1 Hs1].
      destruct (IH g1 comp) as (g' & Hreb & Hh2 & Hs2).
      { eapply Forall_impl; [exact Hall |]. intros p [Hp|Hp]; [left; exact Hp | right].
        eapply record_is_Some; [exact Hh1 | | exact Hp].
        apply (f_equal length) in Hs1. rewrite !length_fmap in Hs1. exact Hs1. }
      exists g'. split; [exact Hreb |]. split; congruence.
Qed.

Lemma rebuild_incoming_stored g0 :
  Forall (fun r => Forall (fun run : run_type => 0 <= run.1 < DynamicRecord.outdegree r)
                          (DynamicRecord.body r)) (bwt g0) ->
  edges_have_records g0 ->
  forall n comp g,
    header g = header g0 -> stored <$> bwt g = stored <$> bwt g0 ->
    0 <= comp -> comp + Z.of_nat n <= vsize (bwt g0) ->
    exists g',
      rebuild_incoming n comp g = Some g'
      /\ header g' = header g0 /\ stored <$> bwt g' = stored <$> bwt g0.
Proof.
  intros Hranks Hedges. induction n as [|n IH]; intros comp g Hh Hs Hcomp Hn;
    cbn [rebuild_incoming].
  - exists g. auto.
  - assert (Hlen : length (bwt g) = length (bwt g0)).
    { apply (f_equal length) in Hs. rewrite !length_fmap in Hs. exact Hs. }
    destruct (at_index_is_Some (bwt g) comp) as [current Hcur].
    { unfold vsize in *. lia. }
    rewrite Hcur. cbn.
    apply at_index_Some in Hcur as [_ Hcur].
    destruct (lookup_lt_is_Some_2 (bwt g0) (Z.to_nat comp)) as [r0 Hr0].
    { unfold vsize in *. lia. }
    assert (Hst : stored current = stored r0).
    { pose proof (f_equal (fun l => l !! Z.to_nat comp) Hs) as Hat. cbn beta in Hat.
      rewrite !list_lookup_fmap, Hcur, Hr0 in Hat. apply (inj Some). exact Hat. }
    unfold stored in Hst. injection Hst as _ Hout Hbody.
    destruct (run_counts_defined (DynamicRecord.body current)
                (replicate (length (DynamicRecord.outgoing current)) 0)) as [counts Hcounts].
    { rewrite Hbody, Hout. unfold vsize. rewrite length_replicate.
      exact (proj1 (Forall_lookup _ _) Hranks _ _ Hr0). }
    rewrite Hcounts. cbn.
    destruct (rebuild_edges_stored (zip (DynamicRecord.outgoing current) counts) g comp)
      as (g1 & Hreb & Hh1 & Hs1).
    { apply Forall_forall. intros [e c] Hin. cbn [fst].
      apply elem_of_zip_l in Hin. rewrite Hout in Hin.
      pose proof (proj1 (Forall_lookup _ _) Hedges _ _ Hr0) as He.
      destruct (proj1 (Forall_forall _ _) He _ Hin) as [Hend|Hsome]; [left; exact Hend |].
      right. eapply record_is_Some; [exact Hh | exact Hlen | exact Hsome]. }
    rewrite Hreb. cbn.
    apply IH; [congruence | congruence | lia | lia].
Qed.

Lemma fmap_eq_Forall2 {A B C} (f : A -> C) (h : B -> C) l : forall k,
  h <$> l = f <$> k -> Forall2 (fun x y => f y = h x) l k.
Proof.
  induction l as [|x l IH]; intros [|y k] H; try discriminate; constructor.
  - injection H as H _. symmetry. exact H.
  - apply IH. injection H as _ H. exact H.
Qed.

(** X7.  What comes back from the byte stream: on an index whose header is
    consistent with its records, whose records can be encoded and whose
    outgoing edges lead to nodes with records, [serialize] returns and
    [load] of what it wrote returns an index with the same header in which
    every record has the outgoing edges and the body of the original, the
    size being the number of symbols of the body; the number of runs is
    the same. *)
Theorem load_serialize_restores (g0 g : t) :
  consistent g -> Forall encodable (bwt g) -> edges_have_records g ->
  vsize (concat ((fun r => write_record [] r) <$> bwt g)) < 2 ^ 64 ->
  exists s g',
    serialize g = Ok s
    /\ load g0 s = Ok g'
    /\ header g' = header g
    /\ Forall2 (fun r r' =>
                  DynamicRecord.outgoing r' = DynamicRecord.outgoing r
                  /\ DynamicRecord.body r' = DynamicRecord.body r
                  /\ DynamicRecord.body_size r' = wrap64 (DynamicRecord.body_total r))
               (bwt g) (bwt g')
    /\ runs g' = runs g.
Proof.
  intros Hcons Henc Hedges Hmax.
  assert (Hser : exists s, serialize g = Ok s).
  { destruct Hcons as (_ & _ & Hlen). unfold serialize.
    destruct (Z.ltb_spec (vsize (bwt g)) (effective g)); [lia |].
    destruct (write_records _ _ _). eexists. reflexivity. }
  destruct Hser as [s Hser]. exists s.
  pose proof (serialize_consistent _ _ Hcons Hser) as Hs. subst s.
  pose proof Hcons as (Hoff & Hsig & Hlen).
  unfold load. cbn [s_header s_index s_bytes]. fold (effective g).
  rewrite (read_records_written (effective g) _ (bwt g) _ 0 0).
  2:{ rewrite length_app, length_take, length_replicate. unfold vsize in Hlen. lia. }
  2:{ reflexivity. }
  2:{ lia. }
  2:{ lia. }
  2:{ simpl. unfold vsize. rewrite starts_length. exact Hlen. }
  2:{ simpl. lia. }
  2:{ simpl. exact Hmax. }
  2:{ exact Henc. }
  cbn [bind defined].
  set (g1 := mk (header g) (reread <$> bwt g)).
  destruct (rebuild_incoming_stored g1) with (n := Z.to_nat (effective g)) (comp := 0) (g := g1)
    as (g' & Hreb & Hh & Hst).
  - unfold g1. cbn [bwt]. apply Forall_fmap.
    eapply Forall_impl; [exact Henc |]. intros r (_ & _ & Hruns). cbn.
    eapply Forall_impl; [exact Hruns |]. intros run [Hrank _]. exact Hrank.
  - unfold edges_have_records, g1. cbn [bwt]. apply Forall_fmap.
    eapply Forall_impl; [exact Hedges |]. intros r Hr. cbn.
    eapply Forall_impl; [exact Hr |]. intros e [He|He]; [left; exact He | right].
    eapply record_is_Some; [| | exact He]; [reflexivity |].
    cbn [bwt]. apply length_fmap.
  - reflexivity.
  - reflexivity.
  - lia.
  - unfold g1, vsize. cbn [bwt]. rewrite length_fmap. unfold vsize in Hlen. lia.
  - exists g'. split; [exact Hser |]. rewrite Hreb. split; [reflexivity |].
    split; [exact Hh |].
    unfold g1 in Hst. cbn [bwt] in Hst. rewrite <- list_fmap_compose in Hst.
    assert (Hall : Forall2 (fun r r' => stored r' = (stored ∘ reread) r) (bwt g) (bwt g')).
    { apply fmap_eq_Forall2. symmetry. exact Hst. }
    split.
    + eapply Forall2_impl; [exact Hall |]. intros r r' Hrr.
      unfold stored, compose, reread in Hrr. cbn in Hrr. injection Hrr as H1 H2 H3. auto.
    + unfold runs. f_equal. f_equal.
      clear -Hall. induction Hall as [|r r' l l' Hrr _ IH]; [reflexivity |].
      cbn [fmap list_fmap]. rewrite IH. f_equal.
      unfold stored, compose, reread in Hrr. cbn in Hrr. injection Hrr as _ _ Hb.
      unfold DynamicRecord.runs. rewrite Hb. reflexivity.
Qed.

Lemma load_serialize_restores_witness :
  exists s g',
    serialize index_2_3 = Ok s
    /\ load empty_index s = Ok g'
    /\ header g' = header index_2_3
    /\ runs g' = runs index_2_3.
Proof.
  destruct (load_serialize_restores empty_index index_2_3)
    as (s & g' & Hser & Hload & Hhead & _ & Hruns).
  - exact index_2_3_consistent.
  - exact index_2_3_encodable.
  - unfold edges_have_records.
    repeat first [ apply Forall_nil_2 | apply Forall_cons_2
                 | left; reflexivity | right; eexists; reflexivity ].
  - vm_compute. reflexivity.
  - exists s, g'. auto.
Defined.

Lemma read_records_any e node_index : forall resized resized' comp input,
  length resized = length resized' ->
  read_records e node_index resized comp input
  = read_records e node_index resized' comp input.
Proof.
  induction resized as [|current rest IH]; intros [|current' rest'] comp input Hlen;
    try discriminate; [reflexivity |].
  cbn [read_records].
  destruct (sd_vector.select_1 node_index (comp + 1)) as [start|]; [|reflexivity]. cbn.
  destruct (if comp + 1 <? e then _ else _) as [stop|]; [|reflexivity]. cbn.
  match goal with
  | |- context [read_record ?enc current'] =>
      change (read_record enc current') with (read_record enc current);
      destruct (read_record enc current) as [r|]; [|reflexivity]
  end.
  cbn. rewrite (IH rest') by (simpl in Hlen; lia). reflexivity.
Qed.

Lemma read_records_length e node_index : forall resized comp input records,
  read_records e node_index resized comp input = Some records ->
  length records = length resized.
Proof.
  induction resized as [|current rest IH]; intros comp input records H; cbn [read_records] in H.
  - injection H as <-. reflexivity.
  - apply bind_Some in H as (start & _ & H).
    apply bind_Some in H as (stop & _ & H).
    destruct (read_bytes (wrap64 (stop - start)) input) as [node_encoding input'].
    apply bind_Some in H as (r & _ & H).
    apply bind_Some in H as (rest' & Hrest & H).
    injection H as <-. simpl. f_equal. exact (IH _ _ _ Hrest).
Qed.

(** X8.  [load] replaces the receiver: what it returns does not depend on
    what the receiver held, carries the header of the stream, and has one
    record for each symbol of the effective alphabet of that header. *)
Theorem load_replaces_receiver (g0 g1 : t) (input : stream) :
  load g0 input = load g1 input
  /\ forall g', load g0 input = Ok g' ->
       header g' = s_header input /\ vsize (bwt g') = effective g'.
Proof.
  assert (Hlen : forall g : t,
            length (take (Z.to_nat (wrap64 (GBWTHeader.alphabet_size (s_header input)
                                            - GBWTHeader.offset (s_header input)))) (bwt g)
                    ++ replicate (Z.to_nat (wrap64 (GBWTHeader.alphabet_size (s_header input)
                                                    - GBWTHeader.offset (s_header input)))
                                  - length (bwt g)) DynamicRecord.empty)
            = Z.to_nat (wrap64 (GBWTHeader.alphabet_size (s_header input)
                                - GBWTHeader.offset (s_header input)))).
  { intros g. rewrite length_app, length_take, length_replicate. lia. }
  split.
  - unfold load. cbv zeta. erewrite read_records_any; [reflexivity |].
    rewrite !Hlen. reflexivity.
  - intros g' Hload. unfold load in Hload. cbv zeta in Hload.
    apply bind_Ok in Hload as (records & Hread & Hload).
    apply defined_Ok in Hread. apply defined_Ok in Hload.
    apply read_records_length in Hread. rewrite Hlen in Hread.
    destruct (rebuild_incoming_bodies _ _ _ _ Hload) as [Hh Hb].
    apply bodies_length in Hb. cbn [header bwt] in Hh, Hb.
    split; [exact Hh |]. unfold effective, vsize. rewrite Hh, Hb, Hread.
    pose proof (wrap64_u64 (GBWTHeader.alphabet_size (s_header input)
                            - GBWTHeader.offset (s_header input))) as Hu.
    unfold u64 in Hu. lia.
Qed.

Lemma load_replaces_receiver_witness :
  serialize index_2_3 = Ok stream_2_3
  /\ load empty_index stream_2_3 = load index_3_5 stream_2_3
  /\ header index_2_3_reloaded = s_header stream_2_3
  /\ vsize (bwt index_2_3_reloaded) = effective index_2_3_reloaded.
Proof.
  destruct (load_replaces_receiver empty_index index_3_5 stream_2_3) as [Hany Hhead].
  split; [vm_compute; reflexivity |]. split; [exact Hany |].
  apply Hhead. vm_compute. reflexivity.
Defined.

(** ** The insertion of a batch: what it keeps and what it adds *)

Lemma splice_close_frame g sp g' :
  splice_close g sp = Some g' ->
  header g' = header g /\ length (bwt g') = length (bwt g).
Proof.
  destruct sp as [sp|]; simpl.
  2:{ intros [= <-]. auto. }
  intros H.
  apply bind_Some in H as (nb & _ & H).
  apply bind_Some in H as (current & _ & H).
  split; [|exact (set_record_length _ _ _ _ H)].
  apply set_record_Some in H as [_ ->]. reflexivity.
Qed.

Lemma set_record_frame g node r g' :
  set_record g node r = Some g' ->
  header g' = header g /\ length (bwt g') = length (bwt g).
Proof.
  intros H. split; [|exact (set_record_length _ _ _ _ H)].
  apply set_record_Some in H as [_ ->]. reflexivity.
Qed.

Lemma splice_step_frame g sp seq g' sp' seq' :
  splice_step g sp seq = Some (g', sp', seq') ->
  header g' = header g /\ length (bwt g') = length (bwt g).
Proof.
  unfold splice_step. intros H.
  apply bind_Some in H as (current & Hrec & H).
  apply bind_Some in H as ([g1 nb1] & Hedge & H).
  apply bind_Some in H as ([iter nb2] & Hpull & H).
  apply bind_Some in H as (rank & _ & H).
  apply bind_Some in H as (nb3 & Hins & H).
  apply bind_Some in H as (g2 & Hinc & H).
  injection H as <- <- <-.
  assert (Hg1 : header g1 = header g /\ length (bwt g1) = length (bwt g)).
  { destruct (_ <=? _).
    - apply bind_Some in Hedge as (g0 & Hset & Hedge). injection Hedge as <- <-.
      exact (set_record_frame _ _ _ _ Hset).
    - injection Hedge as <- <-. auto. }
  destruct Hg1 as [Hh1 Hl1].
  destruct (negb _).
  - apply bind_Some in Hinc as (next_node & _ & Hset).
    destruct (set_record_frame _ _ _ _ Hset) as [Hh2 Hl2]. split; congruence.
  - injection Hinc as <-. auto.
Qed.

Lemma splice_all_frame seqs : forall g sp g' seqs',
  splice_all g sp seqs = Some (g', seqs') ->
  header g' = header g /\ length (bwt g') = length (bwt g) /\ length seqs' = length seqs.
Proof.
  induction seqs as [|seq rest IH]; intros g sp g' seqs' H; cbn [splice_all] in H.
  - apply bind_Some in H as (g1 & Hclose & H). injection H as <- <-.
    destruct (splice_close_frame _ _ _ Hclose). auto.
  - apply bind_Some in H as ([g1 sp1] & Hopen & H).
    apply bind_Some in H as ([[g2 sp2] seq'] & Hstep & H).
    apply bind_Some in H as ([g3 rest'] & Hall & H). injection H as <- <-.
    assert (H1 : header g1 = header g /\ length (bwt g1) = length (bwt g)).
    { destruct sp as [sp0|].
      - destruct (sp_curr sp0 =? Sequence.curr seq).
        + injection Hopen as <- <-. auto.
        + apply bind_Some in Hopen as (g0 & Hclose & Hopen).
          apply bind_Some in Hopen as (sp0' & _ & Hopen). injection Hopen as <- <-.
          exact (splice_close_frame _ _ _ Hclose).
      - apply bind_Some in Hopen as (sp0' & _ & Hopen). injection Hopen as <- <-. auto. }
    destruct H1 as [Hh1 Hl1].
    destruct (splice_step_frame _ _ _ _ _ _ Hstep) as [Hh2 Hl2].
    destruct (IH _ _ _ _ Hall) as (Hh3 & Hl3 & Hlen).
    split; [congruence |]. split; [congruence |]. simpl. congruence.
Qed.

Lemma batch_round_frame {Src} `{Source Src} g seqs (source : Src) g' next_round :
  batch_round g seqs source = Ok (g', next_round) ->
  header g' = GBWTHeader.set_size (header g) (wrap64 (size g + vsize seqs))
  /\ length (bwt g') = length (bwt g).
Proof.
  intros Hrun. unfold batch_round in Hrun.
  apply bind_Ok in Hrun as ([g1 seqs1] & Hsplice & Hrun).
  apply defined_Ok in Hsplice.
  destruct (splice_all_frame _ _ _ _ _ Hsplice) as (Hh1 & Hl1 & Hlen1).
  assert (Hadd : header (add_size g1 (vsize seqs1))
                 = GBWTHeader.set_size (header g) (wrap64 (size g + vsize seqs))).
  { unfold add_size, size, vsize. cbn [header]. rewrite Hh1, Hlen1. reflexivity. }
  apply bind_Ok in Hrun as (seqs2 & _ & Hrun).
  destruct (drop _ _) as [|seq4 rest4].
  - injection Hrun as <- <-. auto.
  - apply bind_Ok in Hrun as (g3 & Hoff & Hrun). apply defined_Ok in Hoff.
    apply bind_Ok in Hrun as (seqs5 & _ & Hrun).
    apply bind_Ok in Hrun as (seqs6 & _ & Hrun).
    injection Hrun as <- <-.
    destruct (rebuild_offsets_bodies _ _ _ _ Hoff) as [Hh3 Hb3].
    apply bodies_length in Hb3. split; [congruence |].
    rewrite Hb3. exact Hl1.
Qed.

Lemma sumZ_perm (l l' : list Z) : l ≡ₚ l' -> sumZ l = sumZ l'.
Proof. induction 1; simpl; lia. Qed.

Lemma symbols_left_round text seqs :
  Forall (aligned text) seqs ->
  symbols_left text seqs
  = vsize seqs
    + sumZ ((fun p : Z * Z => Z.of_nat (remaining text p.2) + 1)
              <$> (next_place <$> filter unfinished seqs)).
Proof.
  unfold symbols_left, vsize.
  induction seqs as [|seq rest IH]; intros Hal; [reflexivity |].
  apply Forall_cons in Hal as [Hseq Hal].
  rewrite fmap_cons. cbn [sumZ length]. rewrite (IH Hal).
  destruct (decide (unfinished seq)) as [Hu|Hd].
  - rewrite (filter_cons_True _ _ _ Hu), !fmap_cons. cbn [sumZ].
    rewrite (remaining_going _ _ Hseq Hu). unfold next_place. cbn [snd]. lia.
  - rewrite (filter_cons_False _ _ _ Hd).
    assert (Hend : Sequence.next seq = ENDMARKER).
    { unfold unfinished in Hd. destruct (Z.eq_dec (Sequence.next seq) ENDMARKER); tauto. }
    rewrite (remaining_done _ _ Hseq Hend). lia.
Qed.

Lemma symbols_left_places text seqs :
  symbols_left text seqs
  = sumZ ((fun p : Z * Z => Z.of_nat (remaining text p.2) + 1) <$> (place <$> seqs)).
Proof. unfold symbols_left. rewrite <- list_fmap_compose. reflexivity. Qed.

Lemma insert_batch_size fuel (text : list Z) : forall iterations g seqs n g',
  Forall (fun x => 0 <= x) text -> vsize text < 2 ^ 64 ->
  Forall (aligned text) seqs ->
  insert_batch fuel iterations g seqs text = Ok (n, g') ->
  header g' = GBWTHeader.set_size (header g) (wrap64 (size g + symbols_left text seqs))
  /\ length (bwt g') = length (bwt g).
Proof.
  induction fuel as [|fuel IH]; intros iterations g seqs n g' Htext Hsize Hal Hrun;
    [discriminate |].
  cbn [insert_batch] in Hrun.
  apply bind_Ok in Hrun as ([g1 next_round] & Hround & Hrun).
  pose proof (batch_round_text _ _ _ _ _ Htext Hsize Hal Hround) as Hnext.
  destruct (batch_round_frame _ _ _ _ _ Hround) as [Hh1 Hl1].
  rewrite (symbols_left_round _ _ Hal).
  destruct next_round as [seqs'|].
  - destruct Hnext as (_ & Hal' & Hperm).
    destruct (IH _ _ _ _ _ Htext Hsize Hal' Hrun) as [Hh2 Hl2].
    split; [|congruence].
    rewrite Hh2, symbols_left_places. unfold size. rewrite Hh1.
    rewrite (sumZ_perm _ _ (fmap_Permutation _ _ _ Hperm)).
    unfold GBWTHeader.set_size. cbn [GBWTHeader.tag GBWTHeader.version GBWTHeader.sequences
      GBWTHeader.size GBWTHeader.offset GBWTHeader.alphabet_size GBWTHeader.flags].
    f_equal. rewrite wrap64_add_l. f_equal. unfold size. lia.
  - injection Hrun as _ <-. rewrite Hnext. cbn [fmap list_fmap sumZ].
    rewrite Z.add_0_r. auto.
Qed.

(** X9.  What a batch adds when it reads a text: when the loop returns, the
    size in the header has grown by the number of symbols the sequences of
    the batch had still to write, their endmarkers included; no other field
    of the header has changed, and the index has as many records as
    before. *)
Theorem insert_batch_adds_symbols (fuel : nat) (text : text_type) (iterations : size_type)
    (g : t) (seqs : list Sequence.t) (n : size_type) (g' : t) :
  Forall (fun x => 0 <= x) text -> vsize text < 2 ^ 64 ->
  Forall (aligned text) seqs ->
  insert_batch fuel iterations g seqs text = Ok (n, g') ->
  size g' = wrap64 (size g + symbols_left text seqs)
  /\ header g' = GBWTHeader.set_size (header g) (size g')
  /\ vsize (bwt g') = vsize (bwt g).
Proof.
  intros Htext Hsize Hal Hrun.
  destruct (insert_batch_size _ _ _ _ _ _ _ Htext Hsize Hal Hrun) as [Hh Hl].
  assert (Hs : size g' = wrap64 (size g + symbols_left text seqs)).
  { unfold size at 1. rewrite Hh. reflexivity. }
  split; [exact Hs |]. split; [rewrite Hs; exact Hh |].
  unfold vsize. rewrite Hl. reflexivity.
Qed.

Lemma insert_batch_adds_symbols_witness :
  exists n g',
    insert_batch 4 0 index_for_3_5 batch_3_5 [3; 5; 0] = Ok (n, g')
    /\ size g' = 3.
Proof.
  eexists _, _. split; [vm_compute; reflexivity |].
  match goal with
  | |- size ?g' = _ =>
      destruct (insert_batch_adds_symbols 4 [3; 5; 0] 0 index_for_3_5 batch_3_5 3 g')
        as (Hs & _ & _)
  end.
  - repeat constructor; lia.
  - vm_compute. reflexivity.
  - repeat constructor.
  - vm_compute. reflexivity.
  - rewrite Hs. vm_compute. reflexivity.
Defined.

Lemma insert_batch_frame {Src} `{Source Src} fuel :
  forall iterations g seqs (source : Src) n g',
  insert_batch fuel iterations g seqs source = Ok (n, g') ->
  same_frame g g'.
Proof.
  induction fuel as [|fuel IH]; intros iterations g seqs source n g' Hrun; [discriminate |].
  cbn [insert_batch] in Hrun.
  apply bind_Ok in Hrun as ([g1 next_round] & Hround & Hrun).
  destruct (batch_round_frame _ _ _ _ _ Hround) as [Hh1 Hl1].
  assert (H1 : same_frame g g1).
  { split; [rewrite Hh1; reflexivity | exact Hl1]. }
  destruct next_round as [seqs'|].
  - exact (same_frame_trans _ _ _ H1 (IH _ _ _ _ _ _ Hrun)).
  - injection Hrun as _ <-. exact H1.
Qed.

(** X10.  What a batch keeps, whatever the source: when the loop returns,
    the header differs from the one it started from in the size at most
    (tag, version, number of sequences, offset, alphabet size and flags are
    kept), and the index has as many records as before. *)
Theorem insert_batch_keeps_frame {Src} `{Source Src} (fuel : nat) (iterations : size_type)
    (g : t) (seqs : list Sequence.t) (source : Src) (n : size_type) (g' : t) :
  insert_batch fuel iterations g seqs source = Ok (n, g') ->
  header g' = GBWTHeader.set_size (header g) (size g')
  /\ vsize (bwt g') = vsize (bwt g).
Proof.
  intros Hrun. destruct (insert_batch_frame _ _ _ _ _ _ _ Hrun) as [Hh Hl].
  split; [|unfold vsize; rewrite Hl; reflexivity].
  unfold size. destruct (header g'), (header g).
  unfold GBWTHeader.set_size in *. cbn in *. injection Hh as -> -> -> -> -> ->. reflexivity.
Qed.

Lemma insert_batch_keeps_frame_witness :
  exists n g',
    insert_batch 4 0 index_for_3_5 batch_3_5 [3; 5; 0] = Ok (n, g')
    /\ header g' = GBWTHeader.set_size (header index_for_3_5) (size g').
Proof.
  eexists _, _. split; [vm_compute; reflexivity |].
  match goal with
  | |- header ?g' = _ =>
      destruct (insert_batch_keeps_frame 4 0 index_for_3_5 batch_3_5 [3; 5; 0] 3 g')
        as [Hh _]
  end.
  - vm_compute. reflexivity.
  - exact Hh.
Defined.

(** X11.  A batch without sequences: the loop returns after one iteration
    and leaves the index as it was, for a text and for an index as the
    source. *)
Theorem insert_batch_empty (fuel : nat) (iterations : size_type) (g : t)
    (text : text_type) (source : t) :
  u64 (size g) ->
  insert_batch (S fuel) iterations g [] text = Ok (wrap64 (iterations + 1), g)
  /\ insert_batch (S fuel) iterations g [] source = Ok (wrap64 (iterations + 1), g).
Proof.
  intros Hu.
  assert (Hg : add_size g (vsize (@nil Sequence.t)) = g).
  { unfold add_size, size in *. change (vsize []) with 0. rewrite Z.add_0_r.
    rewrite (wrap64_small _ Hu). destruct g as [[] ?]. reflexivity. }
  split; cbn [insert_batch]; unfold batch_round; cbn [splice_all splice_close];
    cbn [mbind option_bind defined bind]; rewrite Hg; reflexivity.
Qed.

Lemma insert_batch_empty_witness :
  insert_batch 1 0 index_3_5 [] [3; 5; 0] = Ok (1, index_3_5)
  /\ insert_batch 1 0 index_3_5 [] index_2_3 = Ok (1, index_3_5).
Proof.
  apply (insert_batch_empty 0 0 index_3_5 [3; 5; 0] index_2_3).
  unfold u64. cbn. lia.
Defined.

(** ** insert: what the scan of the text finds *)

Lemma scan_symbol_Some text st i symbol st' :
  scan_symbol text st i symbol = Some st' ->
  sc_seq_start st' = (symbol =? ENDMARKER)
  /\ sc_min_node st' = (if symbol =? ENDMARKER then sc_min_node st
                        else Z.min symbol (sc_min_node st))
  /\ sc_max_node st' = Z.max symbol (sc_max_node st)
  /\ (if sc_seq_start st
      then exists first,
             at_index text i = Some first
             /\ sc_index st' = add_sequence (sc_index st)
             /\ sc_seqs st' = sc_seqs st
                              ++ [Sequence.mk (sequences (sc_index st)) ENDMARKER first
                                              (sequences (sc_index st)) i]
      else sc_index st' = sc_index st /\ sc_seqs st' = sc_seqs st).
Proof.
  unfold scan_symbol. intros H.
  apply bind_Some in H as ([g1 seqs] & Hg & H). injection H as <-.
  cbn [sc_seq_start sc_min_node sc_max_node sc_index sc_seqs].
  split; [destruct (symbol =? ENDMARKER); reflexivity |].
  split; [reflexivity |]. split; [reflexivity |].
  destruct (sc_seq_start st).
  - apply bind_Some in Hg as (seq & Hseq & Hg). injection Hg as <- <-.
    unfold Sequence.from_text in Hseq.
    apply bind_Some in Hseq as (first & Hfirst & Hseq). injection Hseq as <-.
    exists first. auto.
  - injection Hg as <- <-. auto.
Qed.

Lemma scan_text_start text symbols : forall i st st' symbol,
  scan_text text symbols i st = Some st' -> last symbols = Some symbol ->
  sc_seq_start st' = (symbol =? ENDMARKER).
Proof.
  induction symbols as [|x rest IH]; intros i st st' symbol H Hlast; [discriminate |].
  cbn [scan_text] in H. apply bind_Some in H as (st1 & Hstep & H).
  destruct rest as [|y rest'].
  - cbn [scan_text] in H. injection H as <-. injection Hlast as <-.
    exact (proj1 (scan_symbol_Some _ _ _ _ _ Hstep)).
  - apply (IH _ _ _ _ H). exact Hlast.
Qed.

Lemma endmarkers_cons symbol rest :
  endmarkers (symbol :: rest) = (if symbol =? ENDMARKER then 1 else 0) + endmarkers rest.
Proof.
  unfold endmarkers, vsize. rewrite filter_cons.
  destruct (decide (symbol = ENDMARKER)); destruct (Z.eqb_spec symbol ENDMARKER);
    try contradiction; simpl length; lia.
Qed.

Lemma scan_text_sequences text symbols : forall i st st',
  scan_text text symbols i st = Some st' ->
  wrap64 (sequences (sc_index st') - (if sc_seq_start st' then 0 else 1))
  = wrap64 (sequences (sc_index st) - (if sc_seq_start st then 0 else 1)
            + endmarkers symbols)
  /\ ((sc_seq_start st = true /\ symbols <> []) \/ u64 (sequences (sc_index st)) ->
      u64 (sequences (sc_index st'))).
Proof.
  induction symbols as [|symbol rest IH]; intros i st st' H; cbn [scan_text] in H.
  - injection H as <-. split; [f_equal; change (endmarkers []) with 0; lia |].
    intros [[_ Hne]|Hu]; [contradiction | exact Hu].
  - apply bind_Some in H as (st1 & Hstep & H).
    destruct (IH _ _ _ H) as [Hseq Hu64].
    destruct (scan_symbol_Some _ _ _ _ _ Hstep) as (Hstart & _ & _ & Hidx).
    rewrite endmarkers_cons.
    assert (H1 : wrap64 (sequences (sc_index st1) - (if sc_seq_start st1 then 0 else 1))
                 = wrap64 (sequences (sc_index st) - (if sc_seq_start st then 0 else 1)
                           + (if symbol =? ENDMARKER then 1 else 0))
                 /\ ((sc_seq_start st = true \/ u64 (sequences (sc_index st))) ->
                     u64 (sequences (sc_index st1)))).
    { rewrite Hstart. destruct (sc_seq_start st).
      - destruct Hidx as (first & _ & -> & _). unfold add_sequence, sequences. cbn.
        split; [|intros _; apply wrap64_u64].
        destruct (symbol =? ENDMARKER); wrap_lia.
      - destruct Hidx as [-> _]. split; [|intros [|]; [discriminate | assumption]].
        destruct (symbol =? ENDMARKER); f_equal; lia. }
    destruct H1 as [H1 Hu1]. split.
    + rewrite Hseq. apply (wrap64_eq_add _ _ (endmarkers rest)) in H1.
      rewrite H1. f_equal. lia.
    + intros Hpre. apply Hu64. right. apply Hu1. tauto.
Qed.

Lemma symbols_left_app text seqs seqs' :
  symbols_left text (seqs ++ seqs') = symbols_left text seqs + symbols_left text seqs'.
Proof. unfold symbols_left. rewrite fmap_app. apply sumZ_app. Qed.

Lemma scan_text_left text symbols : forall i st st',
  0 <= i -> drop (Z.to_nat i) text = symbols ->
  scan_text text symbols i st = Some st' ->
  symbols_left text (sc_seqs st)
  = i + (if sc_seq_start st then 0 else Z.of_nat (to_endmarker symbols) + 1) ->
  symbols_left text (sc_seqs st')
  = i + vsize symbols + (if sc_seq_start st' then 0 else 1).
Proof.
  induction symbols as [|symbol rest IH]; intros i st st' Hi Hdrop H Hleft;
    cbn [scan_text] in H.
  - injection H as <-. rewrite Hleft. change (vsize []) with 0.
    destruct (sc_seq_start st); simpl; lia.
  - apply bind_Some in H as (st1 & Hstep & H).
    destruct (scan_symbol_Some _ _ _ _ _ Hstep) as (Hstart & _ & _ & Hidx).
    assert (Hrest : drop (Z.to_nat (i + 1)) text = rest).
    { replace (Z.to_nat (i + 1)) with (Z.to_nat i + 1)%nat by lia.
      rewrite <- drop_drop, Hdrop. reflexivity. }
    rewrite (IH (i + 1) st1 st' ltac:(lia) Hrest H).
    + unfold vsize. simpl length. lia.
    + rewrite Hstart. cbn [to_endmarker] in Hleft.
      destruct (sc_seq_start st).
      * destruct Hidx as (first & _ & _ & ->). rewrite symbols_left_app, Hleft.
        unfold symbols_left at 1. cbn [fmap list_fmap sumZ Sequence.pos].
        unfold remaining. rewrite Hdrop. cbn [to_endmarker].
        destruct (symbol =? ENDMARKER); lia.
      * destruct Hidx as [_ ->]. rewrite Hleft.
        destruct (symbol =? ENDMARKER); lia.
Qed.

Lemma recode_header g g' : recode g = Ok g' -> header g' = header g.
Proof.
  unfold recode. destruct (_ <? _); [discriminate |]. intros [= <-]. reflexivity.
Qed.

Lemma same_but_sequences_header g g' :
  same_but_sequences g g' ->
  header g' = GBWTHeader.set_sequences (header g) (sequences g').
Proof.
  intros [_ Hh]. unfold sequences. destruct (header g'), (header g).
  unfold GBWTHeader.set_sequences in *. cbn in *. injection Hh as -> -> -> -> -> ->.
  reflexivity.
Qed.

(** X12.  What [insert] adds to the counts of the header: when it returns,
    the size has grown by the length of the text and the number of
    sequences by the number of endmarkers of the text, the sums being those
    of [size_type]; tag, version and flags are kept. *)
Theorem insert_adds_text (fuel : nat) (g : t) (text : text_type) (g' : t) :
  u64 (size g) -> u64 (sequences g) ->
  Forall (fun x => 0 <= x) text -> vsize text < 2 ^ 64 ->
  insert fuel g text = Ok g' ->
  size g' = wrap64 (size g + vsize text)
  /\ sequences g' = wrap64 (sequences g + endmarkers text)
  /\ GBWTHeader.tag (header g') = GBWTHeader.tag (header g)
  /\ GBWTHeader.version (header g') = GBWTHeader.version (header g)
  /\ GBWTHeader.flags (header g') = GBWTHeader.flags (header g).
Proof.
  intros Hsz Hsq Htext Hlen Hins. unfold insert in Hins.
  destruct (last text) as [symbol|] eqn:Hlast.
  2:{ injection Hins as <-. apply last_None in Hlast. subst text.
      change (vsize []) with 0. change (endmarkers []) with 0.
      rewrite !Z.add_0_r, !wrap64_small by assumption. auto. }
  destruct (Z.eqb_spec symbol ENDMARKER) as [->|]; [|discriminate]. cbn [negb] in Hins.
  apply bind_Ok in Hins as (st & Hscan & Hins). apply defined_Ok in Hscan.
  apply bind_Ok in Hins as (g1 & Hres & Hins).
  apply bind_Ok in Hins as ([iterations g2] & Hrun & Hins).
  set (st0 := mk_scan g true _ _ []) in Hscan.
  pose proof (scan_text_same _ _ _ _ _ Hscan) as Hsame. cbn [sc_index st0] in Hsame.
  pose proof (same_but_sequences_header _ _ Hsame) as Hh0.
  pose proof (scan_text_start _ _ _ _ _ _ Hscan Hlast) as Hstart. cbn in Hstart.
  destruct (scan_text_sequences _ _ _ _ _ Hscan) as [Hseq Hu]. rewrite Hstart in Hseq.
  cbn [sc_index sc_seq_start st0] in Hseq, Hu.
  assert (Hne : text <> []) by (intros ->; discriminate).
  specialize (Hu (or_introl (conj eq_refl Hne))).
  rewrite !Z.sub_0_r, (wrap64_small _ Hu) in Hseq.
  pose proof (scan_text_left text text 0 st0 st ltac:(lia) eq_refl Hscan eq_refl) as Hleft.
  rewrite Hstart in Hleft.
  pose proof (scan_text_aligned _ _ _ _ _ Hscan (Forall_nil_2 _)) as Hal.
  destruct (insert_batch_size _ _ _ _ _ _ _ Htext Hlen Hal Hrun) as [Hh2 _].
  destruct (resize_header _ _ _ _ Hres) as (_ & _ & Hh1 & _).
  pose proof (recode_header _ _ Hins) as Hh3.
  assert (Hh1' : GBWTHeader.set_alphabet (header g1) 0 0
                 = GBWTHeader.set_alphabet
                     (GBWTHeader.set_sequences (header g) (sequences (sc_index st))) 0 0).
  { rewrite Hh1, Hh0. reflexivity. }
  unfold size, sequences in *. rewrite Hh3, Hh2. unfold size.
  destruct (header g1), (header g). unfold GBWTHeader.set_alphabet,
    GBWTHeader.set_sequences, GBWTHeader.set_size in *. cbn in *.
  injection Hh1' as -> -> -> -> ->.
  rewrite Hleft, Hseq. replace (0 + vsize text + 0) with (vsize text) by lia. auto.
Qed.

Lemma insert_adds_text_witness :
  exists g',
    insert 4 index_3_5 [4; 0; 7; 0] = Ok g'
    /\ size g' = 7 /\ sequences g' = 3.
Proof.
  eexists. split; [vm_compute; reflexivity |].
  match goal with
  | |- size ?g' = _ /\ _ =>
      destruct (insert_adds_text 4 index_3_5 [4; 0; 7; 0] g') as (Hsz & Hsq & _)
  end.
  - unfold u64. cbn. lia.
  - unfold u64. cbn. lia.
  - repeat constructor; lia.
  - vm_compute. reflexivity.
  - vm_compute. reflexivity.
  - rewrite Hsz, Hsq. split; vm_compute; reflexivity.
Defined.

Lemma scan_text_span text symbols : forall i st st',
  scan_text text symbols i st = Some st' ->
  (sc_max_node st <= sc_max_node st'
   /\ Forall (fun x => x <= sc_max_node st') symbols
   /\ (sc_max_node st' = sc_max_node st \/ sc_max_node st' ∈ symbols))
  /\ (sc_min_node st' <= sc_min_node st
      /\ Forall (fun x => x <> ENDMARKER -> sc_min_node st' <= x) symbols
      /\ (sc_min_node st' = sc_min_node st
          \/ (sc_min_node st' ∈ symbols /\ sc_min_node st' <> ENDMARKER))).
Proof.
  induction symbols as [|symbol rest IH]; intros i st st' H; cbn [scan_text] in H.
  - injection H as <-. repeat split; try lia; try constructor; auto.
  - apply bind_Some in H as (st1 & Hstep & H).
    destruct (scan_symbol_Some _ _ _ _ _ Hstep) as (_ & Hmin & Hmax & _).
    destruct (IH _ _ _ H) as ((Hx1 & Hx2 & Hx3) & (Hn1 & Hn2 & Hn3)).
    split; [split; [|split] | split; [|split]].
    + lia.
    + constructor; [lia | exact Hx2].
    + destruct Hx3 as [Hx3|Hx3]; [|right; apply elem_of_cons; auto].
      rewrite Hx3, Hmax.
      destruct (Z.max_spec symbol (sc_max_node st)) as [[_ ->]|[_ ->]];
        [left; reflexivity | right; apply elem_of_cons; auto].
    + destruct (symbol =? ENDMARKER); lia.
    + constructor; [|exact Hn2].
      intros Hne. destruct (Z.eqb_spec symbol ENDMARKER); [contradiction | lia].
    + destruct Hn3 as [Hn3|[Hn3 Hn4]]; [|right; split; [apply elem_of_cons; auto | exact Hn4]].
      rewrite Hn3, Hmin.
      destruct (Z.eqb_spec symbol ENDMARKER) as [|Hne]; [left; reflexivity |].
      destruct (Z.min_spec symbol (sc_min_node st)) as [[_ ->]|[_ ->]];
        [right; split; [apply elem_of_cons; auto | exact Hne] | left; reflexivity].
Qed.

(** X13.  After [insert] the alphabet covers the text: on an index with a
    valid header (and an alphabet that is not empty when the index is not),
    for a text of symbols below the largest value of [node_type], when
    [insert] returns the header is valid again, the alphabet has not
    shrunk, the offset has not grown once the alphabet had real nodes,
    every symbol of the text is a node with a record, and the alphabet is
    no larger than that takes: its size is the old one or one more than a
    symbol of the text. *)
Theorem insert_covers_text (fuel : nat) (g : t) (text : text_type) (g' : t) :
  valid_header (header g) -> (empty g = false -> 0 < sigma g) ->
  Forall (fun x => 0 <= x < 2 ^ 64 - 1) text ->
  insert fuel g text = Ok g' ->
  valid_header (header g')
  /\ sigma g <= sigma g'
  /\ (1 < sigma g -> GBWTHeader.offset (header g') <= GBWTHeader.offset (header g))
  /\ Forall (has_record g') text
  /\ (sigma g' = sigma g \/ exists symbol, symbol ∈ text /\ sigma g' = symbol + 1).
Proof.
  intros Hvalid Hne Htext Hins. unfold insert in Hins.
  destruct (last text) as [symbol|] eqn:Hlast.
  2:{ injection Hins as <-. apply last_None in Hlast. subst text.
      split; [exact Hvalid |]. split; [lia |]. split; [lia |]. split; [constructor | auto]. }
  destruct (Z.eqb_spec symbol ENDMARKER) as [->|]; [|discriminate]. cbn [negb] in Hins.
  apply bind_Ok in Hins as (st & Hscan & Hins). apply defined_Ok in Hscan.
  apply bind_Ok in Hins as (g1 & Hres & Hins).
  apply bind_Ok in Hins as ([iterations g2] & Hrun & Hins).
  pose proof (scan_text_same _ _ _ _ _ Hscan) as [_ Hsame]. cbn [sc_index] in Hsame.
  destruct (scan_text_span _ _ _ _ _ Hscan) as ((Hx1 & Hx2 & Hx3) & (Hn1 & Hn2 & Hn3)).
  cbn [sc_max_node sc_min_node] in Hx1, Hx3, Hn1, Hn3.
  destruct (resize_header _ _ _ _ Hres) as (Ho & Hs & _ & Hok).
  pose proof (settled_offset_shrinks (sc_index st)
                (wrap64 ((if sc_max_node st =? 0 then 1 else sc_min_node st) - 1))
                (wrap64 (sc_max_node st + 1))) as Hshrink.
  destruct (insert_batch_frame _ _ _ _ _ _ _ Hrun) as [Hh2 _].
  pose proof (recode_header _ _ Hins) as Hh3.
  assert (Hoff' : GBWTHeader.offset (header g') = GBWTHeader.offset (header g1)).
  { rewrite Hh3. exact (f_equal GBWTHeader.offset Hh2). }
  assert (Hsig' : GBWTHeader.alphabet_size (header g')
                  = GBWTHeader.alphabet_size (header g1)).
  { rewrite Hh3. exact (f_equal GBWTHeader.alphabet_size Hh2). }
  assert (Hoff0 : GBWTHeader.offset (header (sc_index st)) = GBWTHeader.offset (header g)).
  { exact (f_equal GBWTHeader.offset Hsame). }
  assert (Hsig0 : GBWTHeader.alphabet_size (header (sc_index st))
                  = GBWTHeader.alphabet_size (header g)).
  { exact (f_equal GBWTHeader.alphabet_size Hsame). }
  destruct Hvalid as (Hoff & Hsig & Hcase).
  assert (Hzero : ENDMARKER ∈ text).
  { rewrite last_lookup in Hlast. exact (list_elem_of_lookup_2 _ _ _ Hlast). }
  set (mx := sc_max_node st) in *. set (mn := sc_min_node st) in *.
  set (off := GBWTHeader.offset (header g)) in *.
  set (sg := GBWTHeader.alphabet_size (header g)) in *.
  assert (Hmx0 : 0 <= (if empty g then 0 else wrap64 (sigma g - 1)) < 2 ^ 64 - 1
                 /\ (empty g = false -> wrap64 (sigma g - 1) = sg - 1)).
  { unfold sigma in *. fold sg in Hne |- *. destruct (empty g); [split; [lia | discriminate] |].
    specialize (Hne eq_refl).
    rewrite wrap64_small by (unfold u64; lia). split; [lia | reflexivity]. }
  assert (Hmn0 : 1 <= (if empty g then wrap64 (Z.lnot 0) else wrap64 (off + 1)) < 2 ^ 64
                 /\ (empty g = false -> wrap64 (off + 1) = off + 1)).
  { destruct (empty g); [change (wrap64 (Z.lnot 0)) with (2 ^ 64 - 1); split; [lia | discriminate] |].
    specialize (Hne eq_refl). unfold sigma in Hne. fold sg in Hne.
    rewrite wrap64_small by (unfold u64; lia). split; [lia | reflexivity]. }
  assert (Hmx : 0 <= mx < 2 ^ 64 - 1).
  { destruct Hx3 as [->|Hin]; [tauto |].
    exact (proj1 (Forall_forall _ _) Htext _ Hin). }
  assert (Hmn : 1 <= mn < 2 ^ 64 /\ (mn <= mx \/ mn = (if empty g then wrap64 (Z.lnot 0)
                                                       else wrap64 (off + 1)))).
  { destruct Hn3 as [->|[Hin Hnz]]; [split; [tauto | right; reflexivity] |].
    pose proof (proj1 (Forall_forall _ _) Htext _ Hin) as Hr.
    pose proof (proj1 (Forall_forall _ _) Hx2 _ Hin) as Hle.
    cbn beta in Hr, Hle. unfold ENDMARKER in Hnz. split; [lia | left; exact Hle]. }
  assert (Hns : wrap64 (mx + 1) = mx + 1) by (apply wrap64_small; unfold u64; lia).
  assert (Hno : wrap64 ((if mx =? 0 then 1 else mn) - 1) = (if mx =? 0 then 1 else mn) - 1).
  { apply wrap64_small. unfold u64. destruct (mx =? 0); lia. }
  rewrite Hns, Hno in *.
  unfold settled_offset, settled_sigma, sigma in *.
  rewrite Hoff0, Hsig0 in *. fold off sg in Ho, Hs, Hok, Hshrink |- *.
  rewrite Hoff', Hsig', Ho, Hs.
  set (o := if ((1 <? sg) && (off <? (if mx =? 0 then 1 else mn) - 1)) || (mx + 1 <=? 1)
            then off else (if mx =? 0 then 1 else mn) - 1) in *.
  assert (Hocases : (o = off /\ ((1 < sg /\ off < (if mx =? 0 then 1 else mn) - 1)
                                 \/ mx + 1 <= 1))
                    \/ (o = (if mx =? 0 then 1 else mn) - 1 /\ 1 < mx + 1)).
  { unfold o. destruct (Z.ltb_spec 1 sg); destruct (Z.ltb_spec off ((if mx =? 0 then 1 else mn) - 1));
      destruct (Z.leb_spec (mx + 1) 1); cbn [andb orb]; lia. }
  assert (Hopos : 0 <= o).
  { destruct Hocases as [[-> _]|[-> _]]; [lia |]. destruct (mx =? 0); lia. }
  split; [unfold valid_header; rewrite Hoff', Hsig', Ho, Hs; fold o; lia |].
  split; [lia |]. split; [exact Hshrink |]. split.
  - apply Forall_forall. intros x Hin.
    pose proof (proj1 (Forall_forall _ _) Htext _ Hin) as Hr.
    pose proof (proj1 (Forall_forall _ _) Hx2 _ Hin) as Hle.
    pose proof (proj1 (Forall_forall _ _) Hn2 _ Hin) as Hge.
    cbn beta in Hr, Hle, Hge. unfold has_record, sigma, ENDMARKER in *. rewrite Hoff', Hsig', Ho, Hs. fold o.
    split; [lia |].
    destruct (Z.eq_dec x 0) as [|Hnz]; [left; assumption | right].
    specialize (Hge Hnz).
    destruct (Z.eqb_spec mx 0) as [|Hmxz]; [lia |].
    destruct Hocases as [[-> Hc]|[-> _]]; lia.
  - destruct Hx3 as [Hkeep|Hin].
    + destruct (empty g) eqn:He.
      * destruct (Z.le_gt_cases 1 sg); [left; lia |].
        right. exists ENDMARKER. split; [exact Hzero |]. unfold ENDMARKER. lia.
      * left. destruct Hmx0 as [_ Hw]. specialize (Hw eq_refl). lia.
    + destruct (Z.le_gt_cases (mx + 1) sg); [left; lia |].
      right. exists mx. split; [exact Hin | lia].
Qed.

Lemma insert_covers_text_witness :
  exists g',
    insert 4 index_3_5 [4; 0; 7; 0] = Ok g'
    /\ valid_header (header g') /\ has_record g' 7 /\ sigma g' = 8.
Proof.
  eexists. split; [vm_compute; reflexivity |].
  match goal with
  | |- valid_header (header ?g') /\ _ =>
      destruct (insert_covers_text 4 index_3_5 [4; 0; 7; 0] g') as (Hv & _ & _ & Hall & _)
  end.
  - unfold valid_header. cbn. lia.
  - intros _. vm_compute. reflexivity.
  - repeat constructor; lia.
  - vm_compute. reflexivity.
  - split; [exact Hv |]. split; [|vm_compute; reflexivity].
    apply (proj1 (Forall_forall _ _) Hall).
    apply (list_elem_of_lookup_2 _ 2%nat). reflexivity.
Defined.

(** ** merge *)

(** X14.  [merge] does not end the process on valid headers: when the
    headers of the receiver and of the source are valid, no call of
    [merge] fails fatally, whatever the size of the batches. *)
Theorem merge_never_fatal (fuel : nat) (g source : t) (batch_size : size_type) :
  valid_header (header g) -> valid_header (header source) ->
  ~ fails_fatally (merge fuel g source batch_size).
Proof.
  intros (Hoff & Hsig & Hcase) (Hoff' & Hsig' & Hcase') (d & at_exit & Hex).
  unfold merge in Hex.
  destruct (empty source); [discriminate |].
  destruct (empty g); [discriminate |].
  apply bind_Exit in Hex as [Hex | (g1 & _ & Hex)].
  - assert (Hfail : fails_fatally (resize g (GBWTHeader.offset (header source)) (sigma source)))
      by (exists d, at_exit; exact Hex).
    apply resize_fatal_only_settled in Hfail as [Hpos Hle].
    destruct (settled_offset_cases g (GBWTHeader.offset (header source)) (sigma source))
      as [Ho|Ho]; rewrite Ho in *; unfold settled_sigma, sigma in *; lia.
  - apply bind_Exit in Hex as [Hex | (endmarker & _ & Hex)].
    { exact (defined_not_exit _ _ _ Hex). }
    apply bind_Exit in Hex as [Hex | (g2 & _ & Hex)].
    + exact (merge_batches_not_exit _ _ _ _ _ _ _ _ _ _ Hex).
    + exact (recode_not_exit _ _ _ Hex).
Qed.

Lemma merge_never_fatal_witness :
  ~ fails_fatally (merge 10 index_3_5 index_2_3 0).
Proof.
  apply merge_never_fatal; unfold valid_header; cbn; lia.
Defined.

Lemma batch_of_sequences rounds :
  forall g endmarker iter ro so limit seqs g' iter' ro' so' seqs',
  batch_of rounds g endmarker iter ro so limit seqs = Some (g', iter', ro', so', seqs') ->
  0 <= so -> limit < 2 ^ 64 ->
  so <= so' /\ (so' <= limit \/ so' = so)
  /\ wrap64 (sequences g' - so') = wrap64 (sequences g - so)
  /\ (u64 (sequences g) -> u64 (sequences g'))
  /\ bwt g' = bwt g
  /\ GBWTHeader.set_sequences (header g') 0 = GBWTHeader.set_sequences (header g) 0.
Proof.
  induction rounds as [|rounds IH];
    intros g endmarker iter ro so limit seqs g' iter' ro' so' seqs' H Hso Hlimit;
    cbn [batch_of] in H.
  - destruct (Z.ltb_spec so limit); [discriminate |]. injection H as <- <- <- <- <-.
    split; [lia |]. split; [right; reflexivity |]. auto.
  - destruct (Z.ltb_spec so limit) as [Hlt|Hge].
    2:{ injection H as <- <- <- <- <-.
        split; [lia |]. split; [right; reflexivity |]. auto. }
    destruct iter as [|run rest]; [discriminate |].
    destruct (run.2 <=? ro).
    + exact (IH _ _ _ _ _ _ _ _ _ _ _ _ H Hso Hlimit).
    + apply bind_Some in H as (node & _ & H).
      assert (Hw : wrap64 (so + 1) = so + 1) by (apply wrap64_small; unfold u64; lia).
      rewrite Hw in H.
      destruct (IH _ _ _ _ _ _ _ _ _ _ _ _ H ltac:(lia) Hlimit)
        as (H1 & H2 & H3 & H4 & H5 & H6).
      split; [lia |]. split; [lia |].
      split; [|split; [|split; [exact H5 | exact H6]]].
      * rewrite H3. unfold add_sequence, sequences. cbn. wrap_lia.
      * intros _. apply H4. unfold add_sequence, sequences. cbn. apply wrap64_u64.
Qed.

Lemma same_frame_sequences g g' : same_frame g g' -> sequences g' = sequences g.
Proof. intros [Hh _]. exact (f_equal GBWTHeader.sequences Hh). Qed.

Lemma merge_batches_sequences fuel :
  forall g source batch_size endmarker iter ro so g',
  merge_batches fuel g source batch_size endmarker iter ro so = Ok g' ->
  0 <= so <= sequences source -> sequences source < 2 ^ 64 ->
  wrap64 (sequences g' - sequences source) = wrap64 (sequences g - so)
  /\ (u64 (sequences g) -> u64 (sequences g'))
  /\ GBWTHeader.set_sequences (GBWTHeader.set_size (header g') 0) 0
     = GBWTHeader.set_sequences (GBWTHeader.set_size (header g) 0) 0
  /\ length (bwt g') = length (bwt g).
Proof.
  induction fuel as [|fuel IH]; intros g source batch_size endmarker iter ro so g' H Hso Hmax;
    cbn [merge_batches] in H.
  - destruct (Z.ltb_spec so (sequences source)); [discriminate |].
    injection H as <-. replace so with (sequences source) by lia. auto.
  - destruct (Z.ltb_spec so (sequences source)) as [Hlt|Hge].
    2:{ injection H as <-. replace so with (sequences source) by lia. auto. }
    apply bind_Ok in H as ([[[[g1 iter'] ro'] so'] seqs] & Hbatch & H).
    apply defined_Ok in Hbatch.
    apply bind_Ok in H as ([iterations g2] & Hrun & H).
    destruct (batch_of_sequences _ _ _ _ _ _ _ _ _ _ _ _ _ Hbatch ltac:(lia) ltac:(lia))
      as (H1 & H2 & H3 & H4 & H5 & H6).
    pose proof (insert_batch_frame _ _ _ _ _ _ _ Hrun) as Hframe.
    pose proof (same_frame_sequences _ _ Hframe) as Hseq2.
    destruct Hframe as [Hh2 Hl2].
    destruct (IH _ _ _ _ _ _ _ _ H ltac:(lia) Hmax) as (H7 & H8 & H9 & H10).
    split; [|split; [|split]].
    + rewrite H7, Hseq2. exact H3.
    + intros Hu. apply H8. rewrite Hseq2. exact (H4 Hu).
    + rewrite H9.
      apply (f_equal (fun h => GBWTHeader.set_sequences h 0)) in Hh2. rewrite Hh2.
      apply (f_equal (fun h => GBWTHeader.set_size h 0)) in H6.
      destruct (header g1), (header g). unfold GBWTHeader.set_sequences,
        GBWTHeader.set_size in *. cbn in *. injection H6 as -> -> -> -> ->. reflexivity.
    + rewrite H10, Hl2, H5. reflexivity.
Qed.

(** X15.  What [merge] makes of the header when neither index is empty:
    when it returns, the number of sequences is the sum of the two numbers
    (a sum of [size_type]), the alphabet size is the larger of the two, the
    offset is the one [resize] settles on for the offset and the alphabet
    of the source, and tag, version and flags are those of the receiver. *)
Theorem merge_adds_sequences (fuel : nat) (g source : t) (batch_size : size_type) (g' : t) :
  empty source = false -> empty g = false ->
  u64 (sequences g) -> u64 (sequences source) ->
  merge fuel g source batch_size = Ok g' ->
  sequences g' = wrap64 (sequences g + sequences source)
  /\ sigma g' = Z.max (sigma g) (sigma source)
  /\ GBWTHeader.offset (header g')
     = settled_offset g (GBWTHeader.offset (header source)) (sigma source)
  /\ GBWTHeader.tag (header g') = GBWTHeader.tag (header g)
  /\ GBWTHeader.version (header g') = GBWTHeader.version (header g)
  /\ GBWTHeader.flags (header g') = GBWTHeader.flags (header g).
Proof.
  intros Hs Hg Hu Hu' Hm. unfold merge in Hm. rewrite Hs, Hg in Hm.
  apply bind_Ok in Hm as (g1 & Hres & Hm).
  apply bind_Ok in Hm as (endmarker & _ & Hm).
  apply bind_Ok in Hm as (g2 & Hbatches & Hm).
  destruct (resize_header _ _ _ _ Hres) as (Ho & Hsig & Hh1 & _).
  destruct (merge_batches_sequences _ _ _ _ _ _ _ _ _ Hbatches)
    as (Hseq & Hu2 & Hh2 & _); [unfold u64 in Hu'; lia | unfold u64 in Hu'; lia |].
  pose proof (recode_header _ _ Hm) as Hh3.
  assert (Hseq1 : sequences g1 = sequences g).
  { exact (f_equal GBWTHeader.sequences Hh1). }
  rewrite Hseq1 in Hseq, Hu2. specialize (Hu2 Hu).
  unfold sequences, sigma, settled_sigma in *. rewrite Hh3.
  split.
  { rewrite <- (wrap64_small _ Hu2). rewrite Z.sub_0_r in Hseq. revert Hseq. clear.
    intros Hseq. wrap_lia. }
  assert (Hmax : sigma g = GBWTHeader.alphabet_size (header g)) by reflexivity.
  destruct (header g2), (header g1), (header g).
  unfold GBWTHeader.set_sequences, GBWTHeader.set_size, GBWTHeader.set_alphabet in *.
  cbn in *. injection Hh2 as -> -> -> -> ->. injection Hh1 as -> -> -> -> ->.
  subst. auto.
Qed.

Lemma merge_adds_sequences_witness :
  exists g',
    merge 10 index_3_5 index_2_3 0 = Ok g'
    /\ sequences g' = 2 /\ sigma g' = 6.
Proof.
  eexists. split; [vm_compute; reflexivity |].
  match goal with
  | |- sequences ?g' = _ /\ _ =>
      destruct (merge_adds_sequences 10 index_3_5 index_2_3 0 g') as (Hseq & Hsig & _)
  end.
  - reflexivity.
  - reflexivity.
  - unfold u64. cbn. lia.
  - unfold u64. cbn. lia.
  - vm_compute. reflexivity.
  - rewrite Hseq, Hsig. split; vm_compute; reflexivity.
Defined.

(** ** The steps of a mutation and I7 *)

(** X16.  Each step the mutations are made of keeps I7: [resize] on an
    index whose header is consistent with its records, the loop of the
    template [insert] for any source of sequences, and [recode]. *)
Theorem steps_keep_I7 :
  (forall g new_offset new_sigma g',
     consistent g -> u64 new_offset -> u64 new_sigma -> I7 g ->
     resize g new_offset new_sigma = Ok g' -> I7 g')
  /\ (forall fuel iterations g seqs (source : text_type) n g',
        I7 g -> insert_batch fuel iterations g seqs source = Ok (n, g') -> I7 g')
  /\ (forall fuel iterations g seqs (source : t) n g',
        I7 g -> insert_batch fuel iterations g seqs source = Ok (n, g') -> I7 g')
  /\ (forall g g', I7 g -> recode g = Ok g' -> I7 g').
Proof.
  split; [|split; [|split]].
  - intros g new_offset new_sigma g' Hcons Hno Hns HI7 Hres. rewrite I7_counted in *.
    exact (proj1 (resize_counted _ _ _ _ Hcons Hno Hns Hres HI7)).
  - intros fuel iterations g seqs source n g' HI7 Hrun. rewrite I7_counted in *.
    exact (proj1 (insert_batch_counted _ _ _ _ _ _ _ Hrun HI7)).
  - intros fuel iterations g seqs source n g' HI7 Hrun. rewrite I7_counted in *.
    exact (proj1 (insert_batch_counted _ _ _ _ _ _ _ Hrun HI7)).
  - intros g g' HI7 Hrec. rewrite I7_counted in *.
    exact (proj1 (recode_counted _ _ Hrec HI7)).
Qed.

Lemma steps_keep_I7_witness :
  exists g1 g2,
    resize index_3_5 1 8 = Ok g1 /\ I7 g1
    /\ recode index_3_5 = Ok g2 /\ I7 g2.
Proof.
  destruct steps_keep_I7 as (Hresize & _ & _ & Hrecode).
  eexists _, _. split; [vm_compute; reflexivity |]. split.
  - eapply (Hresize index_3_5 1 8).
    + exact index_3_5_consistent.
    + unfold u64. lia.
    + unfold u64. lia.
    + exact index_3_5_I7.
    + vm_compute. reflexivity.
  - split; [vm_compute; reflexivity |].
    eapply (Hrecode index_3_5); [exact index_3_5_I7 | vm_compute; reflexivity].
Defined.

(** ** The flags of the header *)

Lemma u64_high_bits x n : u64 x -> 64 <= n -> Z.testbit x n = false.
Proof.
  intros [H0 H1] Hn. destruct (Z.eq_dec x 0) as [->|Hnz]; [apply Z.bits_0 |].
  apply Z.bits_above_log2; [lia |].
  assert (Z.log2 x < 64) by (apply Z.log2_lt_pow2; lia). lia.
Qed.

Lemma wrap64_lnot_bits flag n :
  0 <= n ->
  Z.testbit (wrap64 (Z.lnot flag)) n = (n <? 64) && negb (Z.testbit flag n).
Proof.
  intros Hn. unfold wrap64. destruct (Z.ltb_spec n 64).
  - rewrite Z.mod_pow2_bits_low by lia. rewrite Z.lnot_spec by lia. reflexivity.
  - rewrite Z.mod_pow2_bits_high by lia. reflexivity.
Qed.

(** X17.  The flags of the header, for flags that are 64-bit values: [get]
    after [set] of a flag sees it (when the flag has a bit at all), [get]
    after [unset] does not, and neither changes what [get] answers for a
    flag that shares no bit with it. *)
Theorem header_flags (h : GBWTHeader.t) (flag other : Z) :
  u64 flag -> u64 other ->
  GBWTHeader.get (GBWTHeader.set h flag) flag = negb (flag =? 0)
  /\ GBWTHeader.get (GBWTHeader.unset h flag) flag = false
  /\ (Z.land flag other = 0 ->
      GBWTHeader.get (GBWTHeader.set h flag) other = GBWTHeader.get h other
      /\ GBWTHeader.get (GBWTHeader.unset h flag) other = GBWTHeader.get h other).
Proof.
  intros Hflag Hother.
  unfold GBWTHeader.get, GBWTHeader.set, GBWTHeader.unset. cbn [GBWTHeader.flags].
  assert (H1 : Z.land (Z.lor (GBWTHeader.flags h) flag) flag = flag).
  { apply Z.bits_inj'. intros n Hn. rewrite Z.land_spec, Z.lor_spec.
    destruct (Z.testbit (GBWTHeader.flags h) n), (Z.testbit flag n); reflexivity. }
  assert (H2 : Z.land (Z.land (GBWTHeader.flags h) (wrap64 (Z.lnot flag))) flag = 0).
  { apply Z.bits_inj'. intros n Hn.
    rewrite !Z.land_spec, wrap64_lnot_bits, Z.bits_0 by lia.
    destruct (Z.testbit (GBWTHeader.flags h) n), (n <? 64), (Z.testbit flag n); reflexivity. }
  split; [rewrite H1; reflexivity |]. split; [rewrite H2; reflexivity |].
  intros Hdisjoint.
  assert (Hbits : forall n, 0 <= n -> Z.testbit flag n && Z.testbit other n = false).
  { intros n Hn. rewrite <- Z.land_spec, Hdisjoint. apply Z.bits_0. }
  assert (H3 : Z.land (Z.lor (GBWTHeader.flags h) flag) other
               = Z.land (GBWTHeader.flags h) other).
  { apply Z.bits_inj'. intros n Hn. specialize (Hbits n Hn).
    rewrite !Z.land_spec, Z.lor_spec.
    destruct (Z.testbit (GBWTHeader.flags h) n), (Z.testbit flag n), (Z.testbit other n);
      cbn in *; congruence. }
  assert (H4 : Z.land (Z.land (GBWTHeader.flags h) (wrap64 (Z.lnot flag))) other
               = Z.land (GBWTHeader.flags h) other).
  { apply Z.bits_inj'. intros n Hn. specialize (Hbits n Hn).
    rewrite !Z.land_spec, wrap64_lnot_bits by lia.
    destruct (Z.ltb_spec n 64).
    - destruct (Z.testbit (GBWTHeader.flags h) n), (Z.testbit flag n), (Z.testbit other n);
        cbn in *; congruence.
    - rewrite (u64_high_bits other n Hother) by lia.
      rewrite !andb_false_r. reflexivity. }
  rewrite H3, H4. auto.
Qed.

Lemma header_flags_witness :
  GBWTHeader.get (GBWTHeader.set GBWTHeader.default GBWTHeader.FLAG_BIDIRECTIONAL)
                 GBWTHeader.FLAG_BIDIRECTIONAL = true
  /\ GBWTHeader.get (GBWTHeader.unset GBWTHeader.default GBWTHeader.FLAG_BIDIRECTIONAL)
                    GBWTHeader.FLAG_BIDIRECTIONAL = false.
Proof.
  destruct (header_flags GBWTHeader.default GBWTHeader.FLAG_BIDIRECTIONAL 2) as (H1 & H2 & _).
  - unfold u64, GBWTHeader.FLAG_BIDIRECTIONAL. lia.
  - unfold u64. lia.
  - split; [rewrite H1; reflexivity | exact H2].
Defined.

(** ** An index as the source of sequences *)

Lemma run_lengths_app b b' : run_lengths (b ++ b') = run_lengths b + run_lengths b'.
Proof. unfold run_lengths. rewrite fmap_app. apply sumZ_app. Qed.

Lemma count_rank_app b b' k : count_rank (b ++ b') k = count_rank b k + count_rank b' k.
Proof. unfold count_rank. rewrite fmap_app. apply sumZ_app. Qed.

Lemma count_rank_snoc b (run : Z * Z) k :
  count_rank (b ++ [run]) k = count_rank b k + (if run.1 =? k then run.2 else 0).
Proof. rewrite count_rank_app. unfold count_rank at 2. simpl. lia. Qed.

Lemma run_lengths_nonneg sigma b : Forall (valid_run sigma) b -> 0 <= run_lengths b.
Proof.
  induction 1 as [|run rest [_ Hrun] _ IH]; [reflexivity |].
  rewrite run_lengths_cons. lia.
Qed.

Lemma symbol_at_split sigma before run rest pos :
  Forall (valid_run sigma) before ->
  run_lengths before <= pos < run_lengths before + run.2 ->
  DynamicRecord.symbol_at (before ++ run :: rest) pos = Some run.1.
Proof.
  intros Hall. revert pos. induction Hall as [|x before [_ Hx] Hall IH]; intros pos Hpos.
  - cbn [app DynamicRecord.symbol_at]. change (run_lengths []) with 0 in Hpos.
    destruct (Z.ltb_spec pos run.2); [reflexivity | lia].
  - rewrite run_lengths_cons in Hpos. pose proof (run_lengths_nonneg _ _ Hall).
    cbn [app DynamicRecord.symbol_at].
    destruct (Z.ltb_spec pos x.2); [lia |]. apply IH. lia.
Qed.

Lemma rank_in_split sigma before run rest k pos :
  Forall (valid_run sigma) before ->
  run_lengths before <= pos < run_lengths before + run.2 ->
  DynamicRecord.rank_in (before ++ run :: rest) k pos
  = count_rank before k + (if run.1 =? k then pos - run_lengths before else 0).
Proof.
  intros Hall. revert pos. induction Hall as [|x before [_ Hx] Hall IH]; intros pos Hpos.
  - cbn [app DynamicRecord.rank_in]. change (run_lengths []) with 0 in *.
    change (count_rank [] k) with 0.
    destruct (Z.leb_spec pos 0); [destruct (run.1 =? k); lia |].
    destruct (Z.leb_spec run.2 pos); [lia |]. destruct (run.1 =? k); lia.
  - rewrite run_lengths_cons in Hpos. pose proof (run_lengths_nonneg _ _ Hall).
    cbn [app DynamicRecord.rank_in].
    destruct (Z.leb_spec pos 0); [lia |].
    destruct (Z.leb_spec x.2 pos); [|lia].
    rewrite IH by lia. rewrite run_lengths_cons.
    unfold count_rank. rewrite fmap_cons. cbn [sumZ].
    destruct (run.1 =? k); lia.
Qed.

Lemma add_count_spec result k n :
  0 <= k < vsize result ->
  exists result',
    add_count result k n = Some result'
    /\ length result' = length result
    /\ forall j e, result !! j = Some e ->
         result' !! j = Some (e.1, if Z.of_nat j =? k then wrap64 (e.2 + n) else e.2).
Proof.
  intros Hk. unfold add_count.
  destruct (at_index_is_Some result k Hk) as [e He]. rewrite He. cbn.
  destruct (set_index result k (e.1, wrap64 (e.2 + n))) as [result'|] eqn:Hset.
  2:{ exfalso. unfold set_index in Hset.
      destruct (Z.leb_spec 0 k); [|lia].
      destruct (Z.ltb_spec k (vsize result)); [discriminate | lia]. }
  exists result'. split; [reflexivity |].
  apply set_index_Some in Hset as [_ ->]. split; [apply length_insert |].
  apply at_index_Some in He as [_ He].
  intros j e' Hj. destruct (Z.eqb_spec (Z.of_nat j) k) as [Hjk|Hjk].
  - assert (j = Z.to_nat k) by lia. subst j.
    rewrite list_lookup_insert_eq by (eapply lookup_lt_Some; exact He).
    congruence.
  - rewrite list_lookup_insert_ne by lia. rewrite Hj. destruct e'. reflexivity.
Qed.

Lemma walking_step counting r before run rest' run' offset result :
  walkable r ->
  walking counting r before run (run' :: rest') offset result ->
  exists result',
    (if counting then add_count result run'.1 run'.2 else Some result) = Some result'
    /\ wrap64 (offset + run'.2) = offset + run'.2
    /\ walking counting r (before ++ [run]) run' rest' (offset + run'.2) result'.
Proof.
  intros [Hruns Htotal] (Hbody & Hoff & Hres).
  assert (Hall : Forall (valid_run (DynamicRecord.outdegree r)) (before ++ run :: run' :: rest')).
  { rewrite <- Hbody. exact Hruns. }
  apply Forall_app in Hall as [Hbefore Hall].
  apply Forall_cons in Hall as [[_ Hrun] Hall].
  apply Forall_cons in Hall as [[Hrank' Hrun'] Hrest].
  pose proof (run_lengths_nonneg _ _ Hbefore) as H0.
  pose proof (run_lengths_nonneg _ _ Hrest) as H1.
  assert (Hsum : DynamicRecord.body_total r
                 = run_lengths before + run.2 + run'.2 + run_lengths rest').
  { unfold DynamicRecord.body_total. fold (run_lengths (DynamicRecord.body r)).
    rewrite Hbody, run_lengths_app, !run_lengths_cons. lia. }
  assert (Hw : wrap64 (offset + run'.2) = offset + run'.2).
  { apply wrap64_small. unfold u64. lia. }
  assert (Hwalk : forall result', (counting = true ->
             length result' = length (DynamicRecord.outgoing r)
             /\ forall k e, DynamicRecord.outgoing r !! k = Some e ->
                  exists v,
                    result' !! k = Some (e.1, v)
                    /\ wrap64 v = wrap64 (e.2 + count_rank ((before ++ [run]) ++ [run'])
                                                 (Z.of_nat k))) ->
           walking counting r (before ++ [run]) run' rest' (offset + run'.2) result').
  { intros result' Hres'. split; [rewrite <- app_assoc; exact Hbody |].
    split; [rewrite run_lengths_app, run_lengths_cons; change (run_lengths []) with 0; lia |].
    exact Hres'. }
  destruct counting.
  - destruct (Hres eq_refl) as [Hlen Hget].
    destruct (add_count_spec result run'.1 run'.2) as (result' & Hadd & Hlen' & Hget').
    { unfold vsize, DynamicRecord.outdegree, vsize in *. lia. }
    exists result'. split; [exact Hadd |]. split; [exact Hw |].
    apply Hwalk. intros _. split; [congruence |].
    intros k e Hk. destruct (Hget _ _ Hk) as (v & Hv & Hcount).
    rewrite (Hget' _ _ Hv). cbn [fst snd].
    rewrite (count_rank_snoc (before ++ [run]) run').
    destruct (Z.eqb_spec (Z.of_nat k) run'.1); destruct (Z.eqb_spec run'.1 (Z.of_nat k));
      try lia.
    + eexists. split; [reflexivity |]. rewrite wrap64_idem.
      rewrite (wrap64_eq_add _ _ run'.2 Hcount). f_equal. lia.
    + exists v. split; [reflexivity |]. rewrite Hcount. f_equal. lia.
  - exists result. split; [reflexivity |]. split; [exact Hw |].
    apply Hwalk. discriminate.
Qed.

Lemma walk_to_spec counting r :
  walkable r ->
  forall rest before run offset result pos,
    walking counting r before run rest offset result ->
    run_lengths before <= pos < DynamicRecord.body_total r ->
    exists before' run' rest' offset' result',
      walk_to counting rest run offset result pos = Some (run', rest', offset', result')
      /\ walking counting r before' run' rest' offset' result'
      /\ run_lengths before' <= pos < offset'.
Proof.
  intros Hr. induction rest as [|run' rest' IH]; intros before run offset result pos Hw Hpos.
  - destruct Hw as (Hbody & Hoff & Hres).
    assert (Htotal : DynamicRecord.body_total r = offset).
    { unfold DynamicRecord.body_total. fold (run_lengths (DynamicRecord.body r)).
      rewrite Hbody, run_lengths_app, run_lengths_cons. change (run_lengths []) with 0. lia. }
    cbn [walk_to]. destruct (Z.leb_spec offset pos); [lia |].
    exists before, run, [], offset, result.
    split; [reflexivity |]. split; [split; [exact Hbody | split; [exact Hoff | exact Hres]] | lia].
  - cbn [walk_to]. destruct (Z.leb_spec offset pos) as [Hle|Hgt].
    + destruct (walking_step _ _ _ _ _ _ _ _ Hr Hw) as (result' & Hadd & Hwrap & Hw').
      rewrite Hadd. cbn. rewrite Hwrap.
      apply (IH _ _ _ _ _ Hw').
      destruct Hw as (_ & Hoff & _).
      rewrite run_lengths_app, run_lengths_cons. change (run_lengths []) with 0. lia.
    + exists before, run, (run' :: rest'), offset, result.
      split; [reflexivity |]. split; [exact Hw | lia].
Qed.

Lemma walk_for_spec counting source w node r pos :
  walk_ok counting source w ->
  record source node = Some r -> walkable r ->
  0 <= pos < DynamicRecord.body_total r ->
  (forall w', w = Some w' -> w_node w' = node -> w_offset w' - (w_run w').2 <= pos) ->
  exists w1 before,
    walk_for counting source w node = Some w1
    /\ w_node w1 = node /\ w_record w1 = r
    /\ walking counting r before (w_run w1) (w_rest w1) (w_offset w1) (w_result w1)
    /\ run_lengths before <= pos.
Proof.
  intros Hok Hrec Hr Hpos Hlow.
  assert (Hopen : exists w1 before,
            walk_open counting source node = Some w1
            /\ w_node w1 = node /\ w_record w1 = r
            /\ walking counting r before (w_run w1) (w_rest w1) (w_offset w1) (w_result w1)
            /\ run_lengths before <= pos).
  { unfold walk_open. rewrite Hrec. cbn.
    destruct Hr as [Hruns Htotal].
    destruct (DynamicRecord.body r) as [|run rest] eqn:Hbody.
    { exfalso. unfold DynamicRecord.body_total in Hpos. rewrite Hbody in Hpos.
      simpl in Hpos. lia. }
    apply Forall_cons in Hruns as [[Hrank Hrun] _].
    destruct counting.
    - destruct (add_count_spec (DynamicRecord.outgoing r) run.1 run.2)
        as (result & Hadd & Hlen & Hget); [exact Hrank |].
      rewrite Hadd. cbn. eexists _, []. split; [reflexivity |].
      cbn [w_node w_record w_run w_rest w_offset w_result].
      split; [reflexivity |]. split; [reflexivity |].
      split; [|change (run_lengths []) with 0; lia].
      split; [exact Hbody |]. split; [reflexivity |]. intros _. split; [exact Hlen |].
      intros k e Hk. rewrite (Hget _ _ Hk). eexists. split; [reflexivity |].
      cbn [app]. unfold count_rank. cbn [fmap list_fmap sumZ].
      destruct (Z.eqb_spec (Z.of_nat k) run.1); destruct (Z.eqb_spec run.1 (Z.of_nat k));
        try lia.
      + rewrite wrap64_idem. f_equal. lia.
      + f_equal. lia.
    - cbn. eexists _, []. split; [reflexivity |].
      cbn [w_node w_record w_run w_rest w_offset w_result].
      split; [reflexivity |]. split; [reflexivity |].
      split; [|change (run_lengths []) with 0; lia].
      split; [exact Hbody |]. split; [reflexivity | discriminate]. }
  destruct w as [w'|]; cbn [walk_for]; [|exact Hopen].
  destruct (Z.eqb_spec (w_node w') node) as [Hnode|_]; [|exact Hopen].
  destruct Hok as (before & Hrec' & Hw).
  rewrite Hnode, Hrec in Hrec'. injection Hrec' as Hr'.
  exists w', before. split; [reflexivity |]. split; [exact Hnode |].
  split; [symmetry; exact Hr' |]. rewrite Hr'. split; [exact Hw |].
  specialize (Hlow w' eq_refl Hnode). destruct Hw as (_ & Hoff & _). lia.
Qed.

Lemma walking_under counting r before run rest offset result :
  walkable r -> walking counting r before run rest offset result ->
  Forall (valid_run (DynamicRecord.outdegree r)) before
  /\ valid_run (DynamicRecord.outdegree r) run
  /\ exists e, at_index (DynamicRecord.outgoing r) run.1 = Some e.
Proof.
  intros [Hruns _] (Hbody & _ & _). rewrite Hbody in Hruns.
  apply Forall_app in Hruns as [Hbefore Hruns].
  apply Forall_cons in Hruns as [Hrun _].
  split; [exact Hbefore |]. split; [exact Hrun |].
  apply at_index_is_Some. exact (proj1 Hrun).
Qed.

Lemma LF_edge_under source node r before run rest pos e :
  record source node = Some r -> 0 <= node < sigma source ->
  DynamicRecord.body r = before ++ run :: rest ->
  Forall (valid_run (DynamicRecord.outdegree r)) before ->
  run_lengths before <= pos < run_lengths before + run.2 ->
  at_index (DynamicRecord.outgoing r) run.1 = Some e ->
  LF_edge source node pos
  = Ok (e.1, wrap64 (e.2 + count_rank before run.1 + pos - run_lengths before)).
Proof.
  intros Hrec Hnode Hbody Hbefore Hpos He. unfold LF_edge.
  destruct (Z.leb_spec (sigma source) node); [lia |].
  rewrite Hrec. cbn [defined bind]. unfold DynamicRecord.LF_edge.
  rewrite Hbody, (symbol_at_split _ _ _ _ _ Hbefore Hpos), He.
  rewrite (rank_in_split _ _ _ _ _ _ Hbefore Hpos), Z.eqb_refl.
  f_equal. f_equal. f_equal. lia.
Qed.

Lemma nextPosition_from_spec source : forall seqs w,
  Forall (placed source Sequence.curr) seqs -> ascending Sequence.curr seqs ->
  walk_ok true source w ->
  (forall w' seq rest, w = Some w' -> seqs = seq :: rest ->
     w_node w' = Sequence.curr seq -> w_offset w' - (w_run w').2 <= Sequence.pos seq) ->
  exists seqs',
    nextPosition_from source w seqs = Some seqs'
    /\ Forall2 (fun seq seq' =>
                  exists e, LF_edge source (Sequence.curr seq) (Sequence.pos seq) = Ok e
                            /\ seq' = Sequence.set_pos seq e.2) seqs seqs'.
Proof.
  induction seqs as [|seq rest IH]; intros w Hall Hasc Hok Hlow.
  - exists []. split; [reflexivity | constructor].
  - apply Forall_cons in Hall as [(r & Hrec & Hnode & Hr & Hpos) Hall].
    destruct Hasc as [Hnext Hasc].
    destruct (walk_for_spec true source w (Sequence.curr seq) r (Sequence.pos seq)
                Hok Hrec Hr Hpos)
      as (w1 & before & Hfor & Hn1 & Hr1 & Hw1 & Hb1).
    { intros w' Hw' Hnode'. exact (Hlow w' seq rest Hw' eq_refl Hnode'). }
    destruct (walk_to_spec true r Hr _ _ _ _ _ (Sequence.pos seq) Hw1 (conj Hb1 (proj2 Hpos)))
      as (before' & run' & rest' & offset' & result' & Hto & Hw' & Hbound).
    destruct (walking_under _ _ _ _ _ _ _ Hr Hw') as (Hbefore' & Hrun' & e & He).
    pose proof Hw' as (Hbody' & Hoff' & Hres').
    destruct (Hres' eq_refl) as [_ Hget].
    apply at_index_Some in He as [Hrank He].
    destruct (Hget _ _ He) as (v & Hv & Hcount).
    rewrite Z2Nat.id in Hcount by exact Hrank.
    cbn [nextPosition_from]. rewrite Hfor. cbn. rewrite Hto. cbn.
    assert (Hat : at_index result' run'.1 = Some (e.1, v)).
    { apply at_index_Some. split; [exact Hrank | exact Hv]. }
    rewrite Hat. cbn.
    destruct (IH (Some (mk_walk (w_node w1) (w_record w1) run' rest' offset' result'))
                Hall Hasc) as (seqs' & Hrest & Hall').
    { exists before'. cbn [w_node w_record w_run w_rest w_offset w_result].
      rewrite Hn1, Hr1. split; [exact Hrec | exact Hw']. }
    { intros w' b rest2 [= <-] -> Hnode'. cbn [w_node w_offset w_run] in *.
      rewrite Hn1 in Hnode'. specialize (Hnext Hnode'). lia. }
    rewrite Hrest. cbn. eexists. split; [reflexivity |].
    constructor; [|exact Hall'].
    eexists. split.
    + apply (LF_edge_under source _ r before' run' rest'); try eassumption.
      * lia.
      * apply at_index_Some. split; [exact Hrank | exact He].
    + cbn [snd]. f_equal.
      assert (Hd : wrap64 (offset' - Sequence.pos seq) = offset' - Sequence.pos seq).
      { apply wrap64_small. destruct Hrun' as [_ Hlen']. unfold u64. lia. }
      rewrite Hd.
      rewrite (count_rank_snoc before' run'), Z.eqb_refl in Hcount.
      apply (wrap64_eq_add _ _ (- (offset' - Sequence.pos seq))) in Hcount.
      replace (v - (offset' - Sequence.pos seq)) with (v + - (offset' - Sequence.pos seq))
        by lia.
      rewrite Hcount. f_equal. lia.
Qed.

Lemma advancePosition_from_spec source : forall seqs w,
  Forall (placed source Sequence.next) seqs -> ascending Sequence.next seqs ->
  walk_ok false source w ->
  (forall w' seq rest, w = Some w' -> seqs = seq :: rest ->
     w_node w' = Sequence.next seq -> w_offset w' - (w_run w').2 <= Sequence.pos seq) ->
  exists seqs',
    advancePosition_from source w seqs = Some seqs'
    /\ Forall2 (fun seq seq' =>
                  exists e, LF_edge source (Sequence.next seq) (Sequence.pos seq) = Ok e
                            /\ seq' = Sequence.advance seq e.1) seqs seqs'.
Proof.
  induction seqs as [|seq rest IH]; intros w Hall Hasc Hok Hlow.
  - exists []. split; [reflexivity | constructor].
  - apply Forall_cons in Hall as [(r & Hrec & Hnode & Hr & Hpos) Hall].
    destruct Hasc as [Hnext Hasc].
    destruct (walk_for_spec false source w (Sequence.next seq) r (Sequence.pos seq)
                Hok Hrec Hr Hpos)
      as (w1 & before & Hfor & Hn1 & Hr1 & Hw1 & Hb1).
    { intros w' Hw' Hnode'. exact (Hlow w' seq rest Hw' eq_refl Hnode'). }
    destruct (walk_to_spec false r Hr _ _ _ _ _ (Sequence.pos seq) Hw1 (conj Hb1 (proj2 Hpos)))
      as (before' & run' & rest' & offset' & result' & Hto & Hw' & Hbound).
    destruct (walking_under _ _ _ _ _ _ _ Hr Hw') as (Hbefore' & Hrun' & e & He).
    pose proof Hw' as (Hbody' & Hoff' & _).
    cbn [advancePosition_from]. rewrite Hfor. cbn. rewrite Hto. cbn.
    unfold DynamicRecord.successor. rewrite Hr1, He. cbn.
    destruct (IH (Some (mk_walk (w_node w1) r run' rest' offset' result'))
                Hall Hasc) as (seqs' & Hrest & Hall').
    { exists before'. cbn [w_node w_record w_run w_rest w_offset w_result].
      rewrite Hn1. split; [exact Hrec | exact Hw']. }
    { intros w' b rest2 [= <-] -> Hnode'. cbn [w_node w_offset w_run] in *.
      rewrite Hn1 in Hnode'. specialize (Hnext Hnode'). lia. }
    rewrite Hrest. cbn. eexists. split; [reflexivity |].
    constructor; [|exact Hall'].
    eexists. split.
    + apply (LF_edge_under source _ r before' run' rest'); try eassumption. lia.
    + reflexivity.
Qed.

(** X18.  With an index as the source, [nextPosition] and [advancePosition]
    compute [LF]: for sequences at positions of the columns of nodes of the
    source whose records can be walked, in the order of their positions
    where they follow one another on a node, [nextPosition] returns and
    moves each sequence to the offset of [LF (curr, pos)], and
    [advancePosition] returns and makes the node of [LF (next, pos)] the
    next node of each sequence, its old next node becoming the current
    one. *)
Theorem source_positions_follow_LF (source : t) (seqs : list Sequence.t) :
  (Forall (placed source Sequence.curr) seqs -> ascending Sequence.curr seqs ->
   exists seqs',
     nextPosition seqs source = Some seqs'
     /\ Forall2 (fun seq seq' =>
                   exists e, LF_edge source (Sequence.curr seq) (Sequence.pos seq) = Ok e
                             /\ seq' = Sequence.set_pos seq e.2) seqs seqs')
  /\ (Forall (placed source Sequence.next) seqs -> ascending Sequence.next seqs ->
      exists seqs',
        advancePosition seqs source = Some seqs'
        /\ Forall2 (fun seq seq' =>
                      exists e, LF_edge source (Sequence.next seq) (Sequence.pos seq) = Ok e
                                /\ seq' = Sequence.advance seq e.1) seqs seqs').
Proof.
  split; intros Hall Hasc.
  - apply nextPosition_from_spec; [exact Hall | exact Hasc | exact I |].
    intros w' seq rest Hw. discriminate.
  - apply advancePosition_from_spec; [exact Hall | exact Hasc | exact I |].
    intros w' seq rest Hw. discriminate.
Qed.

Lemma source_positions_follow_LF_witness :
  (exists seqs',
     nextPosition batch_3_5 index_3_5 = Some seqs'
     /\ Forall2 (fun seq seq' =>
                   exists e, LF_edge index_3_5 (Sequence.curr seq) (Sequence.pos seq) = Ok e
                             /\ seq' = Sequence.set_pos seq e.2) batch_3_5 seqs')
  /\ (exists seqs',
        advancePosition batch_3_5 index_3_5 = Some seqs'
        /\ Forall2 (fun seq seq' =>
                      exists e, LF_edge index_3_5 (Sequence.next seq) (Sequence.pos seq) = Ok e
                                /\ seq' = Sequence.advance seq e.1) batch_3_5 seqs').
Proof.
  destruct (source_positions_follow_LF index_3_5 batch_3_5) as [Hnext Hadv].
  split.
  - apply Hnext.
    + constructor; [|constructor]. eexists. split; [reflexivity |].
      split; [vm_compute; split; [discriminate | reflexivity] |].
      split; [|vm_compute; split; [discriminate | reflexivity]].
      split; [|vm_compute; reflexivity].
      constructor; [|constructor]. vm_compute. repeat split; discriminate.
    + simpl. auto.
  - apply Hadv.
    + constructor; [|constructor]. eexists. split; [reflexivity |].
      split; [vm_compute; split; [discriminate | reflexivity] |].
      split; [|vm_compute; split; [discriminate | reflexivity]].
      split; [|vm_compute; reflexivity].
      constructor; [|constructor]. vm_compute. repeat split; discriminate.
    + simpl. auto.
Defined.

(** ** The two variants of LF *)

Lemma first_index_unique {A} (p : A -> bool) l k x :
  at_index l k = Some x -> p x = true ->
  (forall k' y, at_index l k' = Some y -> p y = true -> k' = k) ->
  first_index p l = k.
Proof.
  intros Hk Hp Huniq.
  assert (Hin : x ∈ l).
  { apply at_index_Some in Hk as [_ Hk]. exact (list_elem_of_lookup_2 _ _ _ Hk). }
  destruct (first_index_found p l (first_index_some p l x Hin Hp)) as (y & Hy & Hpy).
  exact (Huniq _ _ Hy Hpy).
Qed.

(** X19.  The two variants of [LF] agree: when the edges of the record of
    [from] lead to distinct nodes and [LF (from, i)] is the edge [(to, j)]
    with [to] in the alphabet and [j] not the sentinel, [LF (from, i, to)]
    is [j]. *)
Theorem LF_variants_agree (g : t) (from : node_type) (i : size_type) (to : node_type)
    (j : size_type) (r : DynamicRecord.t) :
  record g from = Some r -> NoDup (fst <$> DynamicRecord.outgoing r) ->
  to < sigma g -> j <> invalid_offset ->
  LF_edge g from i = Ok (to, j) ->
  LF g from i to = Ok j.
Proof.
  intros Hrec Hdup Hto Hj Hedge. unfold LF_edge in Hedge. unfold LF.
  destruct (Z.leb_spec (sigma g) to); [lia |].
  destruct (Z.leb_spec (sigma g) from).
  { injection Hedge as _ Hinv. congruence. }
  rewrite Hrec in *. cbn [defined bind] in *.
  unfold DynamicRecord.LF_edge in Hedge.
  destruct (DynamicRecord.symbol_at (DynamicRecord.body r) i) as [k|] eqn:Hk.
  2:{ injection Hedge as _ Hinv. congruence. }
  destruct (at_index (DynamicRecord.outgoing r) k) as [e|] eqn:He.
  2:{ injection Hedge as _ Hinv. congruence. }
  injection Hedge as Hdest Hoff.
  assert (Hrank : DynamicRecord.edgeTo r to = k).
  { unfold DynamicRecord.edgeTo. apply (first_index_unique _ _ _ e He).
    - apply Z.eqb_eq. exact Hdest.
    - intros k' y Hy Hpy. apply Z.eqb_eq in Hpy.
      apply at_index_Some in Hy as [Hk'0 Hy]. apply at_index_Some in He as [Hk0 He].
      assert (Z.to_nat k' = Z.to_nat k); [|lia].
      apply (NoDup_lookup _ _ _ to Hdup).
      + rewrite list_lookup_fmap, Hy. cbn. congruence.
      + rewrite list_lookup_fmap, He. cbn. congruence. }
  unfold DynamicRecord.LF, DynamicRecord.offset. rewrite Hrank, He. cbn [fmap option_fmap option_map].
  rewrite Hoff. destruct (Z.eqb_spec j invalid_offset); [contradiction |]. reflexivity.
Qed.

Lemma LF_variants_agree_witness :
  LF_edge index_3_5 3 0 = Ok (5, 0) /\ LF index_3_5 3 0 5 = Ok 0.
Proof.
  split; [reflexivity |].
  apply (LF_variants_agree index_3_5 3 0 5 0 (DynamicRecord.mk 1 [(0, 1)] [(5, 0)] [(0, 1)])).
  - reflexivity.
  - repeat constructor. intros H. inversion H.
  - vm_compute. reflexivity.
  - discriminate.
  - reflexivity.
Defined.

(** ** The incoming edges that load rebuilds *)

Lemma count_rank_cons (run : Z * Z) rest k :
  count_rank (run :: rest) k = (if run.1 =? k then run.2 else 0) + count_rank rest k.
Proof. reflexivity. Qed.

Lemma run_counts_spec b : forall counts counts',
  run_counts b counts = Some counts' -> Forall u64 counts ->
  length counts' = length counts
  /\ forall k c, counts !! k = Some c ->
       counts' !! k = Some (wrap64 (c + count_rank b (Z.of_nat k))).
Proof.
  induction b as [|run rest IH]; intros counts counts' H Hu; cbn [run_counts] in H.
  - injection H as <-. split; [reflexivity |]. intros k c Hk.
    change (count_rank [] (Z.of_nat k)) with 0. rewrite Z.add_0_r.
    rewrite wrap64_small; [exact Hk |]. exact (proj1 (Forall_lookup _ _) Hu _ _ Hk).
  - apply bind_Some in H as (c0 & Hc0 & H).
    apply bind_Some in H as (counts1 & Hset & H).
    apply set_index_Some in Hset as [Hrange ->].
    apply at_index_Some in Hc0 as [_ Hc0].
    destruct (IH _ _ H) as [Hlen Hget].
    { apply Forall_insert; [exact Hu | apply wrap64_u64]. }
    split; [rewrite Hlen; apply length_insert |].
    intros k c Hk. rewrite count_rank_cons.
    destruct (Z.eqb_spec run.1 (Z.of_nat k)) as [Heq|Hne].
    + assert (k = Z.to_nat run.1) by lia. subst k.
      rewrite (Hget _ (wrap64 (c0 + run.2))).
      * rewrite wrap64_add_l. f_equal. f_equal. rewrite Hc0 in Hk. injection Hk as ->. lia.
      * apply list_lookup_insert_eq. eapply lookup_lt_Some. exact Hc0.
    + rewrite (Hget _ c); [f_equal; f_equal; lia |].
      rewrite list_lookup_insert_ne by lia. exact Hk.
Qed.

Lemma run_counts_zero r counts :
  run_counts (DynamicRecord.body r) (replicate (length (DynamicRecord.outgoing r)) 0)
  = Some counts ->
  counts = rank_counts r.
Proof.
  intros H. destruct (run_counts_spec _ _ _ H) as [Hlen Hget].
  { apply Forall_replicate. unfold u64. lia. }
  rewrite length_replicate in Hlen.
  apply list_eq. intros k. unfold rank_counts, DynamicRecord.outdegree, vsize.
  rewrite list_lookup_fmap.
  destruct (decide (k < length (DynamicRecord.outgoing r))%nat) as [Hlt|Hge].
  - rewrite (Hget k 0) by (apply lookup_replicate_2; exact Hlt).
    rewrite lookup_seqZ_lt by lia. cbn [fmap option_fmap option_map].
    rewrite !Z.add_0_l. reflexivity.
  - rewrite lookup_ge_None_2 by lia.
    rewrite lookup_seqZ_ge by lia. reflexivity.
Qed.

Lemma given_to_cons g v comp (p : (Z * Z) * Z) edges :
  given_to g v comp (p :: edges)
  = (if decide (p.1.1 <> ENDMARKER /\ toComp g p.1.1 = Z.of_nat v) then [(comp, p.2)] else [])
    ++ given_to g v comp edges.
Proof.
  unfold given_to. rewrite filter_cons. destruct (decide _); reflexivity.
Qed.

Lemma given_to_header g g' v comp edges :
  header g' = header g -> given_to g' v comp edges = given_to g v comp edges.
Proof.
  intros Hh. unfold given_to. f_equal. apply list_filter_iff. intros p.
  rewrite (toComp_header g g' _ Hh). reflexivity.
Qed.

Lemma rebuild_edges_incoming edges : forall g comp g',
  rebuild_edges g comp edges = Some g' ->
  header g' = header g
  /\ forall v r, bwt g !! v = Some r ->
       exists r', bwt g' !! v = Some r'
                  /\ stored r' = stored r
                  /\ DynamicRecord.incoming r'
                     = DynamicRecord.incoming r ++ given_to g v comp edges.
Proof.
  induction edges as [|[outedge c] rest IH]; intros g comp g' H; cbn [rebuild_edges] in H.
  - injection H as <-. split; [reflexivity |]. intros v r Hr. exists r.
    split; [exact Hr |]. split; [reflexivity |]. unfold given_to.
    rewrite filter_nil. cbn. rewrite app_nil_r. reflexivity.
  - destruct (Z.eqb_spec outedge.1 ENDMARKER) as [Hend|Hreal]; cbn [negb] in H.
    + destruct (IH _ _ _ H) as [Hh Hget]. split; [exact Hh |].
      intros v r Hr. destruct (Hget v r Hr) as (r' & Hr' & Hst & Hinc).
      exists r'. split; [exact Hr' |]. split; [exact Hst |].
      rewrite given_to_cons. cbn [fst snd].
      rewrite Hinc. destruct (decide _) as [[Hne _]|_]; [contradiction | reflexivity].
    + apply bind_Some in H as (successor & Hrec & H).
      apply bind_Some in H as (g1 & Hset & H).
      destruct (IH _ _ _ H) as [Hh Hget].
      apply record_Some in Hrec as [H0 Hsucc].
      apply set_record_Some in Hset as [Hrange ->]. cbn [header bwt] in *.
      split; [exact Hh |].
      intros v r Hr. rewrite given_to_cons. cbn [fst snd].
      destruct (decide (v = Z.to_nat (toComp g outedge.1))) as [->|Hother].
      * rewrite Hsucc in Hr. injection Hr as <-.
        destruct (Hget (Z.to_nat (toComp g outedge.1))
                       (DynamicRecord.addIncoming successor (comp, c)))
          as (r' & Hr' & Hst & Hinc).
        { apply list_lookup_insert_eq. eapply lookup_lt_Some. exact Hsucc. }
        exists r'. split; [exact Hr' |]. split; [rewrite Hst; reflexivity |].
        rewrite Hinc. cbn [DynamicRecord.addIncoming DynamicRecord.incoming].
        rewrite (given_to_header g (mk (header g) _) _ _ _ eq_refl).
        destruct (decide _) as [_|Hno]; [rewrite <- app_assoc; reflexivity |].
        exfalso. apply Hno. split; [exact Hreal | lia].
      * destruct (Hget v r) as (r' & Hr' & Hst & Hinc).
        { rewrite list_lookup_insert_ne by congruence. exact Hr. }
        exists r'. split; [exact Hr' |]. split; [exact Hst |].
        rewrite Hinc, (given_to_header g (mk (header g) _) _ _ _ eq_refl).
        destruct (decide _) as [[_ Heq]|_]; [exfalso; apply Hother; lia | reflexivity].
Qed.

Lemma given_by_same g g' v comp r r' :
  header g' = header g ->
  DynamicRecord.outgoing r' = DynamicRecord.outgoing r ->
  DynamicRecord.body r' = DynamicRecord.body r ->
  given_by g' v comp r' = given_by g v comp r.
Proof.
  intros Hh Hout Hbody. unfold given_by, rank_counts, DynamicRecord.outdegree.
  rewrite Hout, Hbody. apply given_to_header. exact Hh.
Qed.

Lemma given_by_stored g g' v comp r r' :
  header g' = header g -> stored r' = stored r ->
  given_by g' v comp r' = given_by g v comp r.
Proof.
  intros Hh Hst. unfold stored in Hst. injection Hst as _ Hout Hbody.
  apply given_by_same; assumption.
Qed.

Lemma stored_lookup (l l' : list DynamicRecord.t) v r :
  stored <$> l = stored <$> l' -> l !! v = Some r ->
  exists r', l' !! v = Some r' /\ stored r' = stored r.
Proof.
  intros Hst Hr. apply (f_equal (fun x => x !! v)) in Hst.
  rewrite !list_lookup_fmap, Hr in Hst.
  destruct (l' !! v) as [r'|]; [|discriminate].
  exists r'. split; [reflexivity |]. cbn in Hst. congruence.
Qed.

Lemma rebuild_incoming_incoming g0 : forall n comp g g',
  header g = header g0 -> stored <$> bwt g = stored <$> bwt g0 -> 0 <= comp ->
  rebuild_incoming n comp g = Some g' ->
  length (bwt g') = length (bwt g)
  /\ header g' = header g0 /\ stored <$> bwt g' = stored <$> bwt g0
  /\ forall v r, bwt g !! v = Some r ->
       exists r', bwt g' !! v = Some r'
                  /\ DynamicRecord.incoming r'
                     = DynamicRecord.incoming r
                       ++ concat (imap (fun i r0 => given_by g0 v (comp + Z.of_nat i) r0)
                                       (take n (drop (Z.to_nat comp) (bwt g0)))).
Proof.
  induction n as [|n IH]; intros comp g g' Hh Hst Hcomp H; cbn [rebuild_incoming] in H.
  - injection H as <-. split; [reflexivity |]. split; [exact Hh |]. split; [exact Hst |].
    intros v r Hr. exists r.
    split; [exact Hr |]. cbn. rewrite app_nil_r. reflexivity.
  - apply bind_Some in H as (current & Hcur & H).
    apply bind_Some in H as (counts & Hcounts & H).
    apply bind_Some in H as (g1 & Hedges & H).
    apply run_counts_zero in Hcounts. subst counts.
    apply at_index_Some in Hcur as [_ Hcur].
    destruct (stored_lookup _ _ _ _ Hst Hcur) as (r0 & Hr0 & Hst0).
    destruct (rebuild_edges_incoming _ _ _ _ Hedges) as [Hh1 Hget1].
    destruct (rebuild_edges_bodies _ _ _ _ Hedges) as [_ Hb1].
    apply bodies_length in Hb1.
    assert (Hst1 : stored <$> bwt g1 = stored <$> bwt g0).
    { rewrite <- Hst. apply list_eq. intros v. rewrite !list_lookup_fmap.
      destruct (bwt g !! v) as [r|] eqn:Hr.
      - destruct (Hget1 v r Hr) as (r' & Hr' & Hst' & _). rewrite Hr'. cbn. congruence.
      - rewrite lookup_ge_None_2; [reflexivity |].
        apply lookup_ge_None_1 in Hr. lia. }
    destruct (IH (comp + 1) g1 g' ltac:(congruence) Hst1 ltac:(lia) H)
      as (Hlen & Hh' & Hst' & Hget).
    split; [congruence |]. split; [exact Hh' |]. split; [exact Hst' |].
    intros v r Hr. destruct (Hget1 v r Hr) as (r1 & Hr1 & _ & Hinc1).
    destruct (Hget v r1 Hr1) as (r' & Hr' & Hinc).
    exists r'. split; [exact Hr' |]. rewrite Hinc, Hinc1, <- app_assoc. f_equal.
    rewrite (drop_S _ _ _ Hr0). cbn [take imap concat]. f_equal.
    + rewrite Z.add_0_r. symmetry.
      change (given_to g v comp (zip (DynamicRecord.outgoing current) (rank_counts current)))
        with (given_by g v comp current).
      apply given_by_stored; [congruence | congruence].
    + f_equal. replace (Z.to_nat (comp + 1)) with (S (Z.to_nat comp)) by lia.
      apply imap_ext. intros i x _. cbn. f_equal. lia.
Qed.

Lemma load_serialize_records g0 g s g' :
  consistent g -> Forall encodable (bwt g) ->
  serialize g = Ok s -> vsize (s_bytes s) < 2 ^ 64 ->
  load g0 s = Ok g' ->
  header g' = header g /\ length (bwt g') = length (bwt g)
  /\ forall v r, bwt g !! v = Some r ->
       bwt g' !! v
       = Some (DynamicRecord.mk (wrap64 (DynamicRecord.body_total r)) (rebuilt_incoming g v)
                                (DynamicRecord.outgoing r) (DynamicRecord.body r)).
Proof.
  intros Hcons Henc Hser Hmax Hload.
  rewrite (serialize_consistent _ _ Hcons Hser) in Hload, Hmax. simpl in Hmax.
  destruct Hcons as (Hoff & Hsig & Hlen).
  unfold load in Hload. cbn [s_header s_index s_bytes] in Hload.
  fold (effective g) in Hload.
  apply bind_Ok in Hload as (records & Hread & Hload).
  apply defined_Ok in Hread. apply defined_Ok in Hload.
  rewrite (read_records_written (effective g) _ (bwt g) _ 0 0) in Hread.
  2:{ rewrite length_app, length_take, length_replicate. unfold vsize in Hlen. lia. }
  2:{ reflexivity. }
  2:{ lia. }
  2:{ lia. }
  2:{ simpl. unfold vsize. rewrite starts_length. exact Hlen. }
  2:{ simpl. lia. }
  2:{ simpl. exact Hmax. }
  2:{ exact Henc. }
  injection Hread as <-.
  set (g1 := mk (header g) (reread <$> bwt g)) in *.
  destruct (rebuild_incoming_incoming g1 _ _ g1 _ eq_refl eq_refl (Z.le_refl 0) Hload)
    as (Hlen' & Hh' & Hst' & Hget).
  split; [exact Hh' |].
  split; [rewrite Hlen'; unfold g1; cbn [bwt]; apply length_fmap |].
  intros v r Hr.
  assert (Hr1 : bwt g1 !! v = Some (reread r)).
  { unfold g1. cbn [bwt]. rewrite list_lookup_fmap, Hr. reflexivity. }
  destruct (Hget v _ Hr1) as (r' & Hr' & Hinc).
  destruct (stored_lookup _ _ _ _ Hst' Hr') as (r1 & Hr1' & Hstored).
  rewrite Hr1 in Hr1'. injection Hr1' as <-.
  rewrite Hr'. f_equal.
  assert (Hrebuilt : DynamicRecord.incoming r' = rebuilt_incoming g v).
  { rewrite Hinc. cbn [reread DynamicRecord.incoming app]. unfold rebuilt_incoming. f_equal.
    change (drop (Z.to_nat 0) (bwt g1)) with (bwt g1).
    rewrite take_ge by (unfold g1, vsize in *; cbn [bwt]; rewrite length_fmap; lia).
    unfold g1. cbn [bwt]. rewrite imap_fmap. apply imap_ext. intros i x _.
    unfold compose. rewrite Z.add_0_l. apply given_by_same; reflexivity. }
  unfold stored, reread in Hstored. cbn in Hstored. injection Hstored as Hs Ho Hb.
  destruct r'. cbn in *. congruence.
Qed.

(** X20.  The incoming edges that [load] rebuilds: for an index whose header
    is consistent with its records and whose records are encodable, when
    [load] of what [serialize] wrote returns, the incoming edges of the
    record at every compacted index are those the bodies give: one edge
    for each outgoing edge that leads to the node of that record and not
    to the endmarker, the records taken in the order of their compacted
    indices and the edges of a record in the order of their ranks, each
    with the number of symbols of the edge as its count and with the
    compacted index of the record it comes from as its predecessor. *)
Theorem load_incoming_from_bodies (g0 g : t) (s : stream) (g' : t) :
  consistent g -> Forall encodable (bwt g) ->
  serialize g = Ok s -> vsize (s_bytes s) < 2 ^ 64 ->
  load g0 s = Ok g' ->
  forall v r', bwt g' !! v = Some r' ->
    DynamicRecord.incoming r' = rebuilt_incoming g v
    /\ Forall (fun e : edge_type => 0 <= e.1 < vsize (bwt g)) (DynamicRecord.incoming r').
Proof.
  intros Hcons Henc Hser Hmax Hload v r' Hr'.
  destruct (load_serialize_records _ _ _ _ Hcons Henc Hser Hmax Hload) as (_ & Hlen & Hget).
  destruct (lookup_lt_is_Some_2 (bwt g) v) as [r Hr].
  { rewrite <- Hlen. eapply lookup_lt_Some. exact Hr'. }
  rewrite (Hget v r Hr) in Hr'. injection Hr' as <-. cbn [DynamicRecord.incoming].
  split; [reflexivity |]. unfold rebuilt_incoming.
  apply Forall_concat. apply Forall_forall. intros l Hl.
  apply list_elem_of_lookup in Hl as [i Hl]. rewrite list_lookup_imap in Hl.
  destruct (bwt g !! i) as [x|] eqn:Hx; [|discriminate]. injection Hl as <-.
  unfold given_by, given_to. apply Forall_fmap, Forall_forall. intros p _. cbn.
  apply lookup_lt_Some in Hx. unfold vsize. lia.
Qed.

Lemma load_incoming_from_bodies_witness :
  DynamicRecord.incoming (DynamicRecord.mk 1 [(1, 1)] [(0, 0)] [(0, 1)])
  = rebuilt_incoming index_2_3 2.
Proof.
  refine (proj1 (load_incoming_from_bodies empty_index index_2_3 stream_2_3 index_2_3_reloaded
                   index_2_3_consistent index_2_3_encodable _ _ _ 2%nat _ _)).
  - vm_compute. reflexivity.
  - vm_compute. reflexivity.
  - vm_compute. reflexivity.
  - reflexivity.
Defined.

(** X21.  When the round trip through the byte stream gives the index
    back: for an index whose header is consistent with its records and
    whose records are encodable, when [load] of what [serialize] wrote
    returns, [compare] of the result with the original returns, and it
    reports them equal exactly when in every record of the original the
    size is the number of symbols of the body and the incoming edges are
    those the bodies give, with compacted indices as predecessors. *)
Theorem round_trip_exact (g0 g : t) (s : stream) (g' : t) :
  consistent g -> Forall encodable (bwt g) ->
  serialize g = Ok s -> vsize (s_bytes s) < 2 ^ 64 ->
  load g0 s = Ok g' ->
  exists equal,
    compare g' g = Ok equal
    /\ (equal = true <->
        forall v r, bwt g !! v = Some r ->
          DynamicRecord.body_size r = wrap64 (DynamicRecord.body_total r)
          /\ DynamicRecord.incoming r = rebuilt_incoming g v).
Proof.
  intros Hcons Henc Hser Hmax Hload.
  destruct (load_serialize_records _ _ _ _ Hcons Henc Hser Hmax Hload) as (Hh & Hlen & Hget).
  destruct Hcons as (_ & _ & Hsize).
  assert (He : effective g' = effective g) by (unfold effective; rewrite Hh; reflexivity).
  assert (Hcmp := compare_first g' g ltac:(unfold vsize in *; lia)
                                     ltac:(unfold vsize in *; lia)).
  eexists. split; [exact Hcmp |].
  rewrite bool_decide_eq_true.
  rewrite !take_ge by (unfold vsize in *; lia).
  split.
  - intros [_ Heq] v r Hr. pose proof (Hget v r Hr) as Hr'.
    rewrite Heq, Hr in Hr'. injection Hr' as Hr'.
    split; [rewrite Hr' at 1 | rewrite Hr' at 1]; reflexivity.
  - intros Hall. split; [exact Hh |]. apply list_eq. intros v.
    destruct (bwt g !! v) as [r|] eqn:Hr.
    + rewrite (Hget v r Hr). destruct (Hall v r Hr) as [Hs Hi].
      rewrite <- Hs, <- Hi. destruct r. reflexivity.
    + apply lookup_ge_None_2. apply lookup_ge_None_1 in Hr. lia.
Qed.

Lemma round_trip_exact_witness :
  exists equal,
    compare index_2_3_reloaded index_2_3 = Ok equal
    /\ (equal = true <->
        forall v r, bwt index_2_3 !! v = Some r ->
          DynamicRecord.body_size r = wrap64 (DynamicRecord.body_total r)
          /\ DynamicRecord.incoming r = rebuilt_incoming index_2_3 v).
Proof.
  apply (round_trip_exact empty_index index_2_3 stream_2_3 index_2_3_reloaded).
  - exact index_2_3_consistent.
  - exact index_2_3_encodable.
  - vm_compute. reflexivity.
  - vm_compute. reflexivity.
  - vm_compute. reflexivity.
Defined.

(** ** The column that an insertion rewrites *)

Lemma expand_app b b' : expand (b ++ b') = expand b ++ expand b'.
Proof. unfold expand. rewrite fmap_app. apply concat_app. Qed.

Lemma expand_cons (run : Z * Z) b :
  expand (run :: b) = replicate (Z.to_nat run.2) run.1 ++ expand b.
Proof. reflexivity. Qed.

Lemma expand_one (run : Z * Z) : expand [run] = replicate (Z.to_nat run.2) run.1.
Proof. unfold expand. cbn. apply app_nil_r. Qed.

Lemma occurrences_app k l l' : occurrences k (l ++ l') = occurrences k l + occurrences k l'.
Proof. unfold occurrences, vsize. rewrite filter_app, length_app. lia. Qed.

Lemma occurrences_replicate k n x :
  occurrences k (replicate n x) = if x =? k then Z.of_nat n else 0.
Proof.
  unfold occurrences, vsize. induction n as [|n IH]; cbn [replicate].
  - rewrite filter_nil. destruct (x =? k); reflexivity.
  - rewrite filter_cons. destruct (decide (x = k)) as [->|Hne].
    + rewrite Z.eqb_refl in *. cbn [length]. lia.
    + destruct (Z.eqb_spec x k); [contradiction | exact IH].
Qed.

Lemma occurrences_le k l : 0 <= occurrences k l <= vsize l.
Proof.
  unfold occurrences, vsize. pose proof (length_filter (fun x => x = k) l). lia.
Qed.

Lemma built_eq m :
  built m = expand (RunMerger.runs m)
            ++ replicate (Z.to_nat (RunMerger.accumulator m).2) (RunMerger.accumulator m).1.
Proof. unfold built. rewrite expand_app, expand_one. reflexivity. Qed.

Lemma merger_insert m (run : Z * Z) :
  merger_ok m -> 0 <= run.1 < vsize (RunMerger.counts m) -> 0 <= run.2 ->
  vsize (built m) + run.2 < 2 ^ 64 ->
  exists m',
    RunMerger.insert m run = Some m'
    /\ merger_ok m'
    /\ built m' = built m ++ replicate (Z.to_nat run.2) run.1
    /\ vsize (RunMerger.counts m') = vsize (RunMerger.counts m).
Proof.
  intros (Htotal & Hacc & Hruns & Hcounts & Hranks) Hrank Hlen Hmax.
  unfold RunMerger.insert.
  destruct (at_index_is_Some (RunMerger.counts m) run.1 Hrank) as [c Hc]. rewrite Hc. cbn.
  destruct (set_index (RunMerger.counts m) run.1 (wrap64 (c + run.2))) as [counts'|] eqn:Hset.
  2:{ exfalso. unfold set_index in Hset.
      destruct (Z.leb_spec 0 run.1); [|lia].
      destruct (Z.ltb_spec run.1 (vsize (RunMerger.counts m))); [discriminate | lia]. }
  cbn. apply set_index_Some in Hset as [_ ->].
  apply at_index_Some in Hc as [_ Hc].
  pose proof (Hcounts _ _ Hc) as Hcval. rewrite Z2Nat.id in Hcval by lia.
  pose proof (occurrences_le run.1 (built m)) as Hocc.
  assert (Hwc : wrap64 (c + run.2) = c + run.2) by (apply wrap64_small; unfold u64; lia).
  assert (Hwt : wrap64 (RunMerger.total_size m + run.2) = vsize (built m) + run.2).
  { rewrite Htotal. apply wrap64_small. unfold u64, vsize in *. lia. }
  assert (Hacc_le : (RunMerger.accumulator m).2 <= vsize (built m)).
  { rewrite built_eq. unfold vsize. rewrite length_app, length_replicate. lia. }
  assert (Hcounts' : forall built',
            built' = built m ++ replicate (Z.to_nat run.2) run.1 ->
            (forall k c', <[Z.to_nat run.1 := wrap64 (c + run.2)]> (RunMerger.counts m) !! k
                          = Some c' -> c' = occurrences (Z.of_nat k) built')
            /\ Forall (fun x => 0 <= x < vsize (<[Z.to_nat run.1 := wrap64 (c + run.2)]>
                                                  (RunMerger.counts m))) built'
            /\ vsize built' = vsize (built m) + run.2).
  { intros built' ->. split; [|split].
    - intros k c' Hk. rewrite occurrences_app, occurrences_replicate.
      destruct (decide (k = Z.to_nat run.1)) as [->|Hne].
      + rewrite list_lookup_insert_eq in Hk by (eapply lookup_lt_Some; exact Hc).
        injection Hk as <-. rewrite Hwc, Z2Nat.id by lia.
        rewrite Z.eqb_refl. lia.
      + rewrite list_lookup_insert_ne in Hk by congruence.
        rewrite (Hcounts _ _ Hk).
        destruct (Z.eqb_spec run.1 (Z.of_nat k)); lia.
    - unfold vsize. rewrite length_insert. apply Forall_app. split; [exact Hranks |].
      apply Forall_replicate. exact Hrank.
    - unfold vsize. rewrite length_app, length_replicate. lia. }
  cbn [RunMerger.accumulator RunMerger.total_size RunMerger.runs RunMerger.counts].
  destruct (Z.eqb_spec run.1 (RunMerger.accumulator m).1) as [Hsame|Hdiff].
  - eexists. split; [reflexivity |].
    assert (Hb : built {| RunMerger.total_size := wrap64 (RunMerger.total_size m + run.2);
                          RunMerger.accumulator :=
                            ((RunMerger.accumulator m).1,
                             wrap64 ((RunMerger.accumulator m).2 + run.2));
                          RunMerger.runs := RunMerger.runs m;
                          RunMerger.counts := <[Z.to_nat run.1 := wrap64 (c + run.2)]>
                                                (RunMerger.counts m) |}
                 = built m ++ replicate (Z.to_nat run.2) run.1).
    { rewrite !built_eq. cbn [RunMerger.accumulator RunMerger.runs fst snd].
      rewrite wrap64_small by (unfold u64; lia).
      rewrite Z2Nat.inj_add by lia. rewrite replicate_add, Hsame, app_assoc. reflexivity. }
    destruct (Hcounts' _ Hb) as (H1 & H2 & H3).
    split; [|split; [exact Hb | cbn [RunMerger.counts]; unfold vsize; rewrite length_insert; reflexivity]].
    split; [cbn [RunMerger.total_size]; lia |].
    split; [cbn [RunMerger.accumulator snd]; rewrite wrap64_small by (unfold u64; lia); lia |].
    split; [exact Hruns |]. split; [exact H1 | exact H2].
  - unfold RunMerger.flush.
    cbn [RunMerger.accumulator RunMerger.total_size RunMerger.runs RunMerger.counts].
    destruct (Z.eqb_spec (RunMerger.accumulator m).2 0) as [Hzero|Hnz];
      cbn [RunMerger.accumulator RunMerger.total_size RunMerger.runs RunMerger.counts];
      eexists; (split; [reflexivity |]).
    + assert (Hb : built {| RunMerger.total_size := wrap64 (RunMerger.total_size m + run.2);
                            RunMerger.accumulator := run;
                            RunMerger.runs := RunMerger.runs m;
                            RunMerger.counts := <[Z.to_nat run.1 := wrap64 (c + run.2)]>
                                                  (RunMerger.counts m) |}
                   = built m ++ replicate (Z.to_nat run.2) run.1).
      { rewrite !built_eq. cbn [RunMerger.accumulator RunMerger.runs].
        rewrite Hzero. cbn [Z.to_nat replicate]. rewrite app_nil_r. reflexivity. }
      destruct (Hcounts' _ Hb) as (H1 & H2 & H3).
      split; [|split; [exact Hb | cbn [RunMerger.counts]; unfold vsize; rewrite length_insert; reflexivity]].
      split; [cbn [RunMerger.total_size]; lia |].
      split; [exact Hlen |]. split; [exact Hruns |]. split; [exact H1 | exact H2].
    + assert (Hb : built {| RunMerger.total_size := wrap64 (RunMerger.total_size m + run.2);
                            RunMerger.accumulator := run;
                            RunMerger.runs := RunMerger.runs m ++ [RunMerger.accumulator m];
                            RunMerger.counts := <[Z.to_nat run.1 := wrap64 (c + run.2)]>
                                                  (RunMerger.counts m) |}
                   = built m ++ replicate (Z.to_nat run.2) run.1).
      { unfold built. cbn [RunMerger.accumulator RunMerger.runs].
        rewrite (expand_app (_ ++ _) [run]), expand_one. reflexivity. }
      destruct (Hcounts' _ Hb) as (H1 & H2 & H3).
      split; [|split; [exact Hb | cbn [RunMerger.counts]; unfold vsize; rewrite length_insert; reflexivity]].
      split; [cbn [RunMerger.total_size]; lia |].
      split; [exact Hlen |].
      split; [apply Forall_app; split; [exact Hruns | constructor; [exact Hacc | constructor]] |].
      split; [exact H1 | exact H2].
Qed.

Lemma vsize_expand_cons (run : Z * Z) b :
  0 <= run.2 -> vsize (expand (run :: b)) = run.2 + vsize (expand b).
Proof.
  intros Hlen. rewrite expand_cons. unfold vsize. rewrite length_app, length_replicate. lia.
Qed.

Lemma pull_spec iter : forall new_body offset,
  merger_ok new_body -> takable (vsize (RunMerger.counts new_body)) iter ->
  vsize (built new_body) <= offset <= vsize (built new_body) + vsize (expand iter) ->
  vsize (built new_body) + vsize (expand iter) < 2 ^ 64 ->
  exists iter' new_body',
    pull iter new_body offset = Some (iter', new_body')
    /\ merger_ok new_body'
    /\ takable (vsize (RunMerger.counts new_body')) iter'
    /\ vsize (RunMerger.counts new_body') = vsize (RunMerger.counts new_body)
    /\ vsize (built new_body') = offset
    /\ built new_body' ++ expand iter' = built new_body ++ expand iter.
Proof.
  induction iter as [|run rest IH]; intros nb offset Hok Htake Hoff Hmax.
  - change (vsize (expand [])) with 0 in Hoff.
    cbn [pull]. unfold RunMerger.size. rewrite (proj1 Hok).
    destruct (Z.ltb_spec (vsize (built nb)) offset); [lia |].
    exists [], nb. split; [reflexivity |]. split; [exact Hok |]. split; [constructor |].
    split; [reflexivity |]. split; [lia | reflexivity].
  - apply Forall_cons in Htake as [[Hrank Hlen] Htake].
    rewrite (vsize_expand_cons _ _ Hlen) in Hoff, Hmax.
    assert (Hrest_nonneg : 0 <= vsize (expand rest)) by (unfold vsize; lia).
    cbn [pull]. unfold RunMerger.size. rewrite (proj1 Hok).
    destruct (Z.ltb_spec (vsize (built nb)) offset) as [Hlt|Hge].
    2:{ exists (run :: rest), nb. split; [reflexivity |]. split; [exact Hok |].
        split; [constructor; [split; assumption | exact Htake] |].
        split; [reflexivity |]. split; [lia | reflexivity]. }
    assert (Hw : wrap64 (offset - vsize (built nb)) = offset - vsize (built nb)).
    { apply wrap64_small. unfold u64. unfold vsize in *. lia. }
    rewrite Hw.
    destruct (Z.leb_spec run.2 (offset - vsize (built nb))) as [Hwhole|Hsplit].
    + destruct (merger_insert nb run Hok Hrank Hlen) as (nb1 & Hins & Hok1 & Hb1 & Hc1).
      { lia. }
      rewrite Hins. cbn.
      assert (Hv1 : vsize (built nb1) = vsize (built nb) + run.2).
      { rewrite Hb1. unfold vsize. rewrite length_app, length_replicate. lia. }
      destruct (IH nb1 offset Hok1) as (iter' & nb' & Hpull & Hok' & Htake' & Hc' & Hv' & Hb').
      { rewrite Hc1. exact Htake. }
      { lia. }
      { lia. }
      exists iter', nb'. split; [exact Hpull |]. split; [exact Hok' |].
      split; [exact Htake' |]. split; [congruence |]. split; [exact Hv' |].
      rewrite Hb', Hb1, <- app_assoc. reflexivity.
    + destruct (merger_insert nb (run.1, offset - vsize (built nb)) Hok)
        as (nb1 & Hins & Hok1 & Hb1 & Hc1); cbn [fst snd]; try lia.
      rewrite Hins. cbn [mbind option_bind]. cbn [fst snd] in Hb1.
      assert (Hw2 : wrap64 (run.2 - (offset - vsize (built nb)))
                    = run.2 - (offset - vsize (built nb))).
      { apply wrap64_small. unfold u64. unfold vsize in *. lia. }
      rewrite Hw2. eexists _, nb1. split; [reflexivity |]. split; [exact Hok1 |].
      split.
      { rewrite Hc1. constructor; [cbn [fst snd]; lia | exact Htake]. }
      split; [exact Hc1 |]. split.
      { rewrite Hb1. unfold vsize. rewrite length_app, length_replicate. unfold vsize in *. lia. }
      rewrite Hb1, !expand_cons. cbn [fst snd]. rewrite <- !app_assoc. f_equal.
      rewrite app_assoc, <- replicate_add. f_equal. f_equal. lia.
Qed.

Lemma occurrences_absent n l : Forall (fun x => 0 <= x < n) l -> occurrences n l = 0.
Proof.
  intros Hall. unfold occurrences, vsize.
  induction Hall as [|x l Hx _ IH]; [reflexivity |].
  rewrite filter_cons. destruct (decide (x = n)); [lia | exact IH].
Qed.

Lemma merger_addEdge m :
  merger_ok m ->
  merger_ok (RunMerger.addEdge m) /\ built (RunMerger.addEdge m) = built m
  /\ vsize (RunMerger.counts (RunMerger.addEdge m)) = vsize (RunMerger.counts m) + 1.
Proof.
  intros (Htotal & Hacc & Hruns & Hcounts & Hranks).
  assert (Hlen : vsize (RunMerger.counts (RunMerger.addEdge m))
                 = vsize (RunMerger.counts m) + 1).
  { unfold RunMerger.addEdge, vsize. cbn. rewrite length_app. simpl. lia. }
  split; [|split; [reflexivity | exact Hlen]].
  split; [exact Htotal |]. split; [exact Hacc |]. split; [exact Hruns |].
  change (built (RunMerger.addEdge m)) with (built m). split.
  - intros k c Hk. unfold RunMerger.addEdge in Hk. cbn in Hk.
    destruct (decide (k < length (RunMerger.counts m))%nat) as [Hlt|Hge].
    + rewrite lookup_app_l in Hk by exact Hlt. exact (Hcounts _ _ Hk).
    + rewrite lookup_app_r in Hk by lia.
      destruct (k - length (RunMerger.counts m))%nat as [|n] eqn:Hn; [|discriminate].
      injection Hk as <-. symmetry.
      replace (Z.of_nat k) with (vsize (RunMerger.counts m)) by (unfold vsize; lia).
      apply occurrences_absent. exact Hranks.
  - rewrite Hlen. eapply Forall_impl; [exact Hranks |]. intros x Hx. cbn in Hx. lia.
Qed.

Lemma set_record_outgoing g node old r g' other c :
  record g node = Some old -> set_record g node r = Some g' ->
  DynamicRecord.outgoing r = DynamicRecord.outgoing old ->
  record g other = Some c ->
  exists c', record g' other = Some c'
             /\ DynamicRecord.outgoing c' = DynamicRecord.outgoing c.
Proof.
  intros Hold Hset Hout Hc.
  apply record_Some in Hold as [Hn0 Hold].
  apply set_record_Some in Hset as [_ ->].
  apply record_Some in Hc as [Ho0 Hc].
  unfold record. cbn [bwt]. change (toComp {| header := header g; bwt := _ |} other)
    with (toComp g other).
  destruct (decide (Z.to_nat (toComp g other) = Z.to_nat (toComp g node))) as [Heq|Hne].
  - exists r. split.
    + apply at_index_Some. split; [exact Ho0 |]. rewrite Heq.
      apply list_lookup_insert_eq. eapply lookup_lt_Some. exact Hold.
    + rewrite Heq in Hc. congruence.
  - exists c. split; [|reflexivity].
    apply at_index_Some. split; [exact Ho0 |].
    rewrite list_lookup_insert_ne by congruence. exact Hc.
Qed.

(** X22.  What one insertion of the loop does to the column of the current
    node: while a record is rewritten (the builder being what its symbols
    say, with a count for each outgoing edge), a sequence whose offset lies
    between the symbols already written and the end of the column, the
    column being shorter than the largest value of [size_type], is
    inserted at its offset: the column afterwards is the column before
    with the rank of the edge to the next node of the sequence put at that
    position, the offset the sequence leaves with is the number of symbols
    of that rank in front of it, and the record has the edge of that rank
    to the next node. *)
Theorem splice_step_inserts (g : t) (sp : splice) (seq : Sequence.t)
    (g' : t) (sp' : splice) (seq' : Sequence.t) :
  splice_ok g sp -> vsize (column sp) + 1 < 2 ^ 64 ->
  vsize (built (sp_new_body sp)) <= Sequence.offset seq <= vsize (column sp) ->
  splice_step g sp seq = Some (g', sp', seq') ->
  exists outrank current',
    record g' (sp_curr sp) = Some current'
    /\ DynamicRecord.successor current' outrank = Some (Sequence.next seq)
    /\ column sp' = take (Z.to_nat (Sequence.offset seq)) (column sp)
                    ++ outrank :: drop (Z.to_nat (Sequence.offset seq)) (column sp)
    /\ seq' = Sequence.set_offset seq
                (occurrences outrank (take (Z.to_nat (Sequence.offset seq)) (column sp)))
    /\ splice_ok g' sp' /\ sp_curr sp' = sp_curr sp.
Proof.
  intros (current & Hrec & Hclen & Hok & Htake) Hmax Hoff Hstep.
  unfold splice_step in Hstep. rewrite Hrec in Hstep. cbn [mbind option_bind] in Hstep.
  set (outrank := DynamicRecord.edgeTo current (Sequence.next seq)) in *.
  pose proof (first_index_range (fun e : Z * Z => e.1 =? Sequence.next seq)
                                (DynamicRecord.outgoing current)) as Hrange.
  fold (DynamicRecord.edgeTo current (Sequence.next seq)) in Hrange. fold outrank in Hrange.
  apply bind_Some in Hstep as ([g1 nb1] & Hedge & Hstep).
  assert (H1 : exists current1,
            record g1 (sp_curr sp) = Some current1
            /\ DynamicRecord.successor current1 outrank = Some (Sequence.next seq)
            /\ vsize (RunMerger.counts nb1) = DynamicRecord.outdegree current1
            /\ 0 <= outrank < DynamicRecord.outdegree current1
            /\ merger_ok nb1 /\ built nb1 = built (sp_new_body sp)
            /\ takable (DynamicRecord.outdegree current1) (sp_iter sp)
            /\ header g1 = header g).
  { unfold DynamicRecord.outdegree in *.
    destruct (Z.leb_spec (vsize (DynamicRecord.outgoing current)) outrank) as [Hnew|Hold].
    - apply bind_Some in Hedge as (g0 & Hset & Hedge). injection Hedge as <- <-.
      destruct (merger_addEdge _ Hok) as (Hok1 & Hb1 & Hc1).
      pose proof Hset as Hset'. apply set_record_Some in Hset' as [Hin Hg0].
      apply record_Some in Hrec as [Hc0 Hcur].
      eexists. split.
      { subst g0. unfold record. cbn [bwt].
        change (toComp {| header := header g; bwt := _ |} (sp_curr sp))
          with (toComp g (sp_curr sp)).
        apply at_index_Some. split; [exact Hc0 |].
        apply list_lookup_insert_eq. eapply lookup_lt_Some. exact Hcur. }
      cbn [DynamicRecord.outgoing].
      assert (Hout : outrank = vsize (DynamicRecord.outgoing current)) by lia.
      split.
      { unfold DynamicRecord.successor. cbn [DynamicRecord.outgoing]. rewrite Hout.
        rewrite at_index_middle. reflexivity. }
      split; [rewrite Hc1, Hclen; rewrite vsize_app; reflexivity |].
      split; [rewrite vsize_app; change (vsize [(Sequence.next seq, 0)]) with 1; lia |].
      split; [exact Hok1 |]. split; [exact Hb1 |].
      split; [|subst g0; reflexivity].
      rewrite vsize_app. change (vsize [(Sequence.next seq, 0)]) with 1.
      eapply Forall_impl; [exact Htake |]. intros run Hrun. cbn in Hrun. lia.
    - injection Hedge as <- <-. exists current. split; [exact Hrec |].
      split.
      { destruct (first_index_found (fun e : Z * Z => e.1 =? Sequence.next seq)
                    (DynamicRecord.outgoing current) Hold) as (e & He & Hp).
        unfold DynamicRecord.successor. fold (DynamicRecord.edgeTo current (Sequence.next seq)) in He.
        fold outrank in He. rewrite He. cbn. apply Z.eqb_eq in Hp. congruence. }
      split; [exact Hclen |]. split; [lia |]. split; [exact Hok |].
      split; [reflexivity |]. split; [exact Htake | reflexivity]. }
  destruct H1 as (current1 & Hrec1 & Hsucc & Hclen1 & Hrank & Hok1 & Hb1 & Htake1 & Hh1).
  apply bind_Some in Hstep as ([iter nb2] & Hpull & Hstep).
  destruct (pull_spec (sp_iter sp) nb1 (Sequence.offset seq) Hok1)
    as (iter' & nb2' & Hpull' & Hok2 & Htake2 & Hc2 & Hv2 & Hb2).
  { rewrite Hclen1. exact Htake1. }
  { rewrite Hb1. unfold column in Hoff. rewrite vsize_app in Hoff. exact Hoff. }
  { rewrite Hb1. unfold column in Hmax. rewrite vsize_app in Hmax. lia. }
  rewrite Hpull' in Hpull. injection Hpull as <- <-.
  rewrite Hb1 in Hb2. fold (column sp) in Hb2.
  assert (Htk : built nb2' = take (Z.to_nat (Sequence.offset seq)) (column sp)).
  { rewrite <- Hb2. replace (Z.to_nat (Sequence.offset seq)) with (length (built nb2'))
      by (unfold vsize in Hv2; lia).
    rewrite take_app_length. reflexivity. }
  assert (Hdr : expand iter' = drop (Z.to_nat (Sequence.offset seq)) (column sp)).
  { rewrite <- Hb2. replace (Z.to_nat (Sequence.offset seq)) with (length (built nb2'))
      by (unfold vsize in Hv2; lia).
    rewrite drop_app_length. reflexivity. }
  apply bind_Some in Hstep as (rank & Hrk & Hstep).
  apply bind_Some in Hstep as (nb3 & Hins & Hstep).
  apply bind_Some in Hstep as (g2 & Hinc & Hstep).
  injection Hstep as <- <- <-.
  apply at_index_Some in Hrk as [_ Hrk].
  pose proof (proj1 (proj2 (proj2 (proj2 Hok2))) _ _ Hrk) as Hrank_val.
  rewrite Z2Nat.id in Hrank_val by lia.
  unfold RunMerger.insert_rank in Hins.
  destruct (merger_insert nb2' (outrank, 1) Hok2) as (nb3' & Hins' & Hok3 & Hb3 & Hc3);
    cbn [fst snd]; try lia.
  rewrite Hins' in Hins. injection Hins as <-. cbn [fst snd] in Hb3.
  change (replicate (Z.to_nat 1) outrank) with [outrank] in Hb3.
  assert (H2 : exists current2,
            record g2 (sp_curr sp) = Some current2
            /\ DynamicRecord.outgoing current2 = DynamicRecord.outgoing current1).
  { destruct (negb (Sequence.next seq =? ENDMARKER)).
    - apply bind_Some in Hinc as (next_node & Hnext & Hset).
      exact (set_record_outgoing _ _ _ _ _ _ _ Hnext Hset eq_refl Hrec1).
    - injection Hinc as <-. exists current1. auto. }
  destruct H2 as (current2 & Hrec2 & Hout2).
  exists outrank, current2. split; [exact Hrec2 |].
  split; [unfold DynamicRecord.successor in *; rewrite Hout2; exact Hsucc |].
  split.
  { unfold column. cbn [sp_new_body sp_iter]. rewrite Hb3, Hdr, Htk, <- app_assoc. reflexivity. }
  split; [rewrite Hrank_val, Htk; reflexivity |].
  split; [|reflexivity].
  exists current2. cbn [sp_curr sp_new_body sp_iter]. split; [exact Hrec2 |].
  unfold DynamicRecord.outdegree in *. rewrite Hout2.
  split; [congruence |]. split; [exact Hok3 |].
  rewrite <- Hclen1, <- Hc2. exact Htake2.
Qed.

Lemma splice_step_inserts_witness :
  exists g' sp' seq',
    splice_step index_for_3_5 (mk_splice 0 (RunMerger.make 0) []) (Sequence.mk 0 0 3 0 0)
    = Some (g', sp', seq')
    /\ exists outrank,
         column sp' = outrank :: column (mk_splice 0 (RunMerger.make 0) [])
         /\ seq' = Sequence.mk 0 0 3 0 0.
Proof.
  destruct (splice_step index_for_3_5 (mk_splice 0 (RunMerger.make 0) [])
                        (Sequence.mk 0 0 3 0 0)) as [[[g' sp'] seq']|] eqn:Hstep;
    [|vm_compute in Hstep; discriminate].
  exists g', sp', seq'. split; [reflexivity |].
  assert (Hok : splice_ok index_for_3_5 (mk_splice 0 (RunMerger.make 0) [])).
  { exists DynamicRecord.empty. split; [reflexivity |]. split; [reflexivity |].
    split; [|constructor].
    split; [reflexivity |]. split; [cbn; lia |]. split; [constructor |].
    split; [intros k c Hk; destruct k; discriminate Hk | constructor]. }
  assert (Hmax : vsize (column (mk_splice 0 (RunMerger.make 0) [])) + 1 < 2 ^ 64).
  { vm_compute. reflexivity. }
  assert (Hoff : vsize (built (sp_new_body (mk_splice 0 (RunMerger.make 0) [])))
                 <= Sequence.offset (Sequence.mk 0 0 3 0 0)
                 <= vsize (column (mk_splice 0 (RunMerger.make 0) []))).
  { vm_compute. split; discriminate. }
  destruct (splice_step_inserts _ _ _ _ _ _ Hok Hmax Hoff Hstep)
    as (outrank & current' & _ & _ & Hcol & Hseq & _).
  exists outrank. split; [exact Hcol | exact Hseq].
Defined.

(** *** Opening and closing the rewriting of a record *)

Lemma merger_make n :
  0 <= n ->
  merger_ok (RunMerger.make n) /\ built (RunMerger.make n) = []
  /\ vsize (RunMerger.counts (RunMerger.make n)) = n.
Proof.
  intros Hn.
  assert (Hbuilt : built (RunMerger.make n) = []) by reflexivity.
  split; [|split; [exact Hbuilt |]].
  - split; [reflexivity |]. split; [cbn; lia |]. split; [constructor |].
    split; [|rewrite Hbuilt; constructor].
    intros k c Hk. rewrite Hbuilt. cbn [RunMerger.make RunMerger.counts] in Hk.
    apply lookup_replicate in Hk as [-> _]. reflexivity.
  - cbn [RunMerger.make RunMerger.counts]. unfold vsize. rewrite length_replicate. lia.
Qed.

Lemma splice_open_ok g curr current :
  record g curr = Some current ->
  Forall (valid_run (DynamicRecord.outdegree current)) (DynamicRecord.body current) ->
  exists sp,
    splice_open g curr = Some sp
    /\ sp_curr sp = curr
    /\ splice_ok g sp
    /\ column sp = expand (DynamicRecord.body current).
Proof.
  intros Hrec Hruns.
  assert (Hdeg : 0 <= DynamicRecord.outdegree current)
    by (unfold DynamicRecord.outdegree, vsize; lia).
  destruct (merger_make _ Hdeg) as (Hok & Hbuilt & Hcounts).
  unfold splice_open. rewrite Hrec. cbn [mbind option_bind].
  eexists. split; [reflexivity |]. split; [reflexivity |]. split.
  - exists current. cbn [sp_curr sp_new_body sp_iter].
    split; [exact Hrec |]. split; [exact Hcounts |]. split; [exact Hok |].
    unfold takable. eapply Forall_impl; [exact Hruns |].
    intros run [Hrank Hlen]. cbn beta. lia.
  - unfold column. cbn [sp_new_body sp_iter]. rewrite Hbuilt. reflexivity.
Qed.

Lemma pull_rest_spec iter : forall new_body,
  merger_ok new_body -> takable (vsize (RunMerger.counts new_body)) iter ->
  vsize (built new_body) + vsize (expand iter) < 2 ^ 64 ->
  exists new_body',
    pull_rest iter new_body = Some new_body'
    /\ merger_ok new_body'
    /\ built new_body' = built new_body ++ expand iter.
Proof.
  induction iter as [|run rest IH]; intros nb Hok Htake Hmax.
  - exists nb. split; [reflexivity |]. split; [exact Hok |].
    change (expand []) with (@nil rank_type). rewrite app_nil_r. reflexivity.
  - apply Forall_cons in Htake as [[Hrank Hlen] Htake].
    rewrite (vsize_expand_cons _ _ Hlen) in Hmax.
    assert (Hrest_nonneg : 0 <= vsize (expand rest)) by (unfold vsize; lia).
    destruct (merger_insert nb run Hok Hrank Hlen ltac:(lia))
      as (m' & Hins & Hok' & Hbuilt' & Hcounts').
    cbn [pull_rest]. rewrite Hins. cbn [mbind option_bind].
    assert (Hsize : vsize (built m') = vsize (built nb) + run.2).
    { rewrite Hbuilt'. unfold vsize. rewrite length_app, length_replicate. lia. }
    destruct (IH m' Hok') as (nb' & Hpull & Hok'' & Hbuilt'').
    { rewrite Hcounts'. exact Htake. }
    { lia. }
    exists nb'. split; [exact Hpull |]. split; [exact Hok'' |].
    rewrite Hbuilt'', Hbuilt', expand_cons, <- app_assoc. reflexivity.
Qed.

Lemma flush_writes_built m :
  merger_ok m ->
  expand (RunMerger.runs (RunMerger.flush m)) = built m
  /\ RunMerger.total_size (RunMerger.flush m) = vsize (built m).
Proof.
  intros (Htotal & _). unfold RunMerger.flush.
  destruct (Z.eqb_spec (RunMerger.accumulator m).2 0) as [Hz|Hnz].
  - split; [|exact Htotal]. rewrite built_eq, Hz. cbn [Z.to_nat replicate].
    rewrite app_nil_r. reflexivity.
  - split; [reflexivity | exact Htotal].
Qed.

(** X23. Closing the rewriting of a record writes the column: when the
    state of the rewriting is the one the loop keeps and the column is
    shorter than [2 ^ 64], [splice_close] succeeds, and the record of the
    node then has the column as the symbols of its runs and the length of
    the column as its size, with the edges it had. *)
Theorem splice_close_writes_column (g : t) (sp : splice) :
  splice_ok g sp -> vsize (column sp) < 2 ^ 64 ->
  exists g' current current',
    splice_close g (Some sp) = Some g'
    /\ record g (sp_curr sp) = Some current
    /\ record g' (sp_curr sp) = Some current'
    /\ expand (DynamicRecord.body current') = column sp
    /\ DynamicRecord.body_size current' = vsize (column sp)
    /\ DynamicRecord.outgoing current' = DynamicRecord.outgoing current
    /\ DynamicRecord.incoming current' = DynamicRecord.incoming current.
Proof.
  intros (current & Hrec & Hdeg & Hok & Htake) Hmax.
  unfold column in *.
  destruct (pull_rest_spec (sp_iter sp) (sp_new_body sp) Hok) as (nb & Hpull & Hok' & Hbuilt).
  { rewrite Hdeg. exact Htake. }
  { unfold vsize in *. rewrite length_app in Hmax. lia. }
  destruct (flush_writes_built nb Hok') as [Hruns Htotal].
  pose proof (at_index_lt _ _ _ Hrec) as Hin.
  pose proof (record_Some _ _ _ Hrec) as [Hn0 Hold].
  unfold splice_close. rewrite Hpull. cbn [mbind option_bind]. rewrite Hrec.
  cbn [mbind option_bind]. unfold swapBody. cbn [fst].
  unfold set_record, set_index.
  destruct (Z.leb_spec 0 (toComp g (sp_curr sp))); [|lia].
  destruct (Z.ltb_spec (toComp g (sp_curr sp)) (vsize (bwt g))); [|lia].
  cbn [andb mbind option_bind].
  eexists _, current, _. split; [reflexivity |]. split; [reflexivity |]. split.
  - unfold record.
    change (toComp (mk (header g) _) (sp_curr sp)) with (toComp g (sp_curr sp)).
    apply at_index_Some. split; [exact Hn0 |]. cbn [bwt].
    apply list_lookup_insert_eq. eapply lookup_lt_Some. exact Hold.
  - cbn [DynamicRecord.body DynamicRecord.body_size DynamicRecord.outgoing
         DynamicRecord.incoming].
    rewrite Hruns, Htotal, Hbuilt. auto.
Qed.

Lemma splice_close_writes_column_witness :
  exists g' current',
    splice_close index_3_5 (splice_open index_3_5 0) = Some g'
    /\ record g' 0 = Some current'
    /\ expand (DynamicRecord.body current') = [0].
Proof.
  destruct (splice_open_ok index_3_5 0 (DynamicRecord.mk 1 [] [(3, 0)] [(0, 1)]))
    as (sp & Hopen & Hcurr & Hok & Hcol).
  { reflexivity. }
  { constructor; [unfold valid_run, DynamicRecord.outdegree, vsize; cbn; lia | constructor]. }
  assert (Hmax : vsize (column sp) < 2 ^ 64) by (rewrite Hcol; vm_compute; reflexivity).
  destruct (splice_close_writes_column index_3_5 sp Hok Hmax)
    as (g' & current & current' & Hclose & _ & Hrec' & Hbody & _).
  exists g', current'. rewrite Hopen. split; [exact Hclose |].
  rewrite Hcurr in Hrec'. split; [exact Hrec' |]. rewrite Hbody. exact Hcol.
Defined.

(** X24. Opening the rewriting of a record sets up the state the loop
    keeps: for a node with a record whose runs name outgoing edges and are
    not empty, [splice_open] succeeds, the state is the one that the
    insertion of a position and the closing need, and the column is that of
    the record. *)
Theorem splice_open_starts (g : t) (curr : node_type) (current : DynamicRecord.t) :
  record g curr = Some current ->
  Forall (valid_run (DynamicRecord.outdegree current)) (DynamicRecord.body current) ->
  exists sp,
    splice_open g curr = Some sp
    /\ sp_curr sp = curr
    /\ splice_ok g sp
    /\ column sp = expand (DynamicRecord.body current).
Proof. exact (splice_open_ok g curr current). Qed.

Lemma splice_open_starts_witness :
  exists sp, splice_open index_3_5 5 = Some sp /\ column sp = [0].
Proof.
  destruct (splice_open_starts index_3_5 5 (DynamicRecord.mk 1 [(3, 1)] [(0, 0)] [(0, 1)]))
    as (sp & Hopen & _ & _ & Hcol).
  - reflexivity.
  - constructor; [unfold valid_run, DynamicRecord.outdegree, vsize; cbn; lia | constructor].
  - exists sp. split; [exact Hopen | exact Hcol].
Defined.
